(** * nest-crdt-tools: message distribution core

  A shallow embedding of the TypeScript sources
  ([TCPNetwork], [EncryptedTCPNetwork], [waitForEveryone],
  [GeneralMessageDistributor], [NetworkMessageDistributor],
  [ReliableMessageDistributor], [CachedMessageHandler],
  [SerializedSet]/[SerializedMap]), the properties the specification
  states about them, and further properties of the code.

  Conventions.
  - A Node.js [Buffer] is a [list byte].
  - A JS [Map<string, V>] is a [gmap string V]; a JS [Set] whose
    iteration order is observed is a duplicate-free list in insertion
    order ([JSSet]); a [SerializedSet], of which only [size] and
    membership are observed, is the [gset string] of its delegate.
  - Calls that leave the component (socket writes, [network.sendMessage],
    receiver callbacks) are recorded in a log carried by the state.
  - The runtime is single-threaded: a handler runs on the state it is
    given up to the next [await], and a method without [await] is one
    state transformer.  The ['data'] handler of [setReceiver] waits for
    the promise of [receive]; its runs that wait, and the chunks that
    arrive meanwhile, are part of the state ([Reader]).  Loops that the
    source does not bound carry fuel. *)

From Stdlib Require Import List Arith ZArith QArith Lia String Ascii.
From Stdlib Require Import Decimal DecimalNat DecimalString.
From Stdlib.Strings Require Import Byte.
From stdpp Require Import base option list gmap strings.
Import ListNotations.

Set Warnings "-register-all".

Local Open Scope nat_scope.
Local Open Scope list_scope.

(** ** Buffers *)

Module Buffer.

Abbreviation t := (list byte).

(** [Buffer.from(n.toString())] for a non-negative integer [n]. *)
Definition of_nat (n : nat) : t :=
  list_byte_of_string (NilEmpty.string_of_uint (Nat.to_uint n)).

(** [buf.subarray(start, end)] for non-negative indices: both ends are
    clamped to the length, and an end before the start gives the empty
    buffer. *)
Definition subarray (start stop : nat) (buf : t) : t :=
  take (stop - start) (drop start buf).

(** [buf.subarray(start)]. *)
Definition subarray_from (start : nat) (buf : t) : t := drop start buf.

(** [buf.findIndex(num => num == 0)]; [None] stands for [-1]. *)
Fixpoint findIndex_zero (buf : t) : option nat :=
  match buf with
  | [] => None
  | b :: rest =>
      if Byte.eqb b x00 then Some 0
      else match findIndex_zero rest with
           | Some i => Some (S i)
           | None => None
           end
  end.

(** [- -(buf.toString())]: the numeric value of the text of [buf].
    A run of decimal digits has its decimal value; the model takes every
    other text to [NaN] ([None]), on which all the comparisons of the
    callers are false. *)
Definition to_number (buf : t) : option nat :=
  match NilEmpty.uint_of_string (string_of_list_byte buf) with
  | Some d => Some (Nat.of_uint d)
  | None => None
  end.

(** One frame on the wire: [Buffer.concat([Buffer.from(len.toString()),
    Buffer.of(0), body])]. *)
Definition frame (body : t) : t :=
  of_nat (length body) ++ x00 :: body.

End Buffer.

(** ** The reader loop shared by both transports

  [setReceiver] of [TCPNetwork] and of [EncryptedTCPNetwork] install the
  same ['data'] handler; they differ only in what the [try] block does
  with a non-empty [content].  The handler is an [async] function: a run
  of it reads [lastBuffer] when it starts, stops at [await receive(...)]
  until that promise has settled, and assigns [lastBuffer] when its loop
  has ended.  A chunk that arrives while a run waits starts another run,
  from the [lastBuffer] of that moment. *)

Module Reader.

(** The [while] loop of a run that is never kept waiting: the contents
    for which the [try] block is entered, in order, and the buffer that
    is stored back into [lastBuffer]. *)
Fixpoint scan (fuel : nat) (buffer : Buffer.t) : list Buffer.t * Buffer.t :=
  match fuel with
  | 0 => ([], buffer)
  | S fuel' =>
      if 0 <? length buffer then
        match Buffer.findIndex_zero buffer with
        | Some lengthEnd =>
            if 0 <? lengthEnd then
              match Buffer.to_number (Buffer.subarray 0 lengthEnd buffer) with
              | Some len =>
                  let contentStart := lengthEnd + 1 in
                  if contentStart + len <=? length buffer then
                    let content :=
                      Buffer.subarray contentStart (contentStart + len) buffer in
                    let buffer' := Buffer.subarray_from (contentStart + len) buffer in
                    let '(received, last) := scan fuel' buffer' in
                    (if 0 <? length content then content :: received else received,
                     last)
                  else ([], buffer)
              | None => ([], buffer)
              end
            else ([], buffer)
        | None => ([], buffer)
        end
      else ([], buffer)
  end.

(** What happens on a connection: a chunk arrives, or the promise that
    the [k]-th waiting run of the handler awaits settles.  A promise that
    rejects is caught and logged, and the loop goes on as after one that
    fulfils. *)
Inductive event : Type :=
| Data (chunk : Buffer.t)
| Settled (k : nat).

Section Handler.
Context {St V : Type}.

(** The [try] block up to the call of [receive]: the value [receive] is
    called with ([JSON.parse(content.toString())], or the decrypted
    content), [None] where computing it throws; the [catch] logs that and
    the loop goes on at once.  It may read variables of the connection
    that [receive] assigns. *)
Variable decode : St → Buffer.t → option V.

(** The call [receive(data)], as far as it runs before the handler waits
    for its promise: what it does to the variables of the connection,
    the calls it makes included. *)
Variable receive : V → St → St.

(** How far a run of the handler gets. *)
Inductive progress : Type :=
| Awaits (variables : St) (buffer : Buffer.t)  (* [receive] was called; the run waits *)
| Stored (buffer : Buffer.t).                  (* the loop has ended: [lastBuffer = buffer] *)

(** The [while] loop, from a given [buffer], up to the first [await]. *)
Fixpoint loop (fuel : nat) (variables : St) (buffer : Buffer.t) : progress :=
  match fuel with
  | 0 => Stored buffer
  | S fuel' =>
      if 0 <? length buffer then
        match Buffer.findIndex_zero buffer with
        | Some lengthEnd =>
            if 0 <? lengthEnd then
              match Buffer.to_number (Buffer.subarray 0 lengthEnd buffer) with
              | Some len =>
                  let contentStart := lengthEnd + 1 in
                  if contentStart + len <=? length buffer then
                    let content :=
                      Buffer.subarray contentStart (contentStart + len) buffer in
                    let buffer' := Buffer.subarray_from (contentStart + len) buffer in
                    if 0 <? length content then
                      match decode variables content with
                      | Some data => Awaits (receive data variables) buffer'
                      | None => loop fuel' variables buffer'
                      end
                    else loop fuel' variables buffer'
                  else Stored buffer
              | None => Stored buffer
              end
            else Stored buffer
        | None => Stored buffer
        end
      else Stored buffer
  end.

(** A connection: the variables that [receive] works on, [lastBuffer],
    and the local [buffer] of every run of the handler that waits. *)
Record state : Type := State {
  variables : St;
  lastBuffer : Buffer.t;
  waiting : list Buffer.t
}.

Definition fresh (variables : St) : state := State variables [] [].

(** A ['data'] event: [buffer = Buffer.concat([lastBuffer, buffer])] and
    the loop.  Every iteration that goes on removes at least one byte, so
    the length of the buffer is fuel enough. *)
Definition onData (chunk : Buffer.t) (σ : state) : state :=
  let buffer := lastBuffer σ ++ chunk in
  match loop (length buffer) (variables σ) buffer with
  | Awaits variables' rest => State variables' (lastBuffer σ) (waiting σ ++ [rest])
  | Stored rest => State (variables σ) rest (waiting σ)
  end.

(** The [k]-th waiting run goes on after its [await]. *)
Definition onSettled (k : nat) (σ : state) : state :=
  match waiting σ !! k with
  | None => σ
  | Some buffer =>
      match loop (length buffer) (variables σ) buffer with
      | Awaits variables' rest =>
          State variables' (lastBuffer σ) (<[k := rest]> (waiting σ))
      | Stored rest => State (variables σ) rest (delete k (waiting σ))
      end
  end.

Definition step (e : event) (σ : state) : state :=
  match e with
  | Data chunk => onData chunk σ
  | Settled k => onSettled k σ
  end.

Definition run (events : list event) (σ : state) : state :=
  foldl (λ σ e, step e σ) σ events.

(** No chunk arrives while a run of the handler waits. *)
Fixpoint undisturbed (events : list event) (σ : state) : bool :=
  match events with
  | [] => true
  | e :: events' =>
      match e, waiting σ with
      | Data _, _ :: _ => false
      | _, _ => undisturbed events' (step e σ)
      end
  end.

End Handler.

Arguments progress : clear implicits.
Arguments state : clear implicits.

(** The chunks among the events. *)
Definition chunks (events : list event) : list Buffer.t :=
  omap (λ e, match e with Data chunk => Some chunk | Settled _ => None end) events.

End Reader.

(** ** Values that cross the wire *)

(** A JavaScript value of type [any] as far as JSON can carry it. *)
Inductive json : Type :=
| JNull
| JBool (b : bool)
| JNum (n : Z)
| JStr (s : string)
| JArr (items : list json)
| JObj (fields : list (string * json)).

(** [JSON.stringify] and [JSON.parse] belong to the runtime.  A [string]
  is the UTF-8 text, so [Buffer.from(s)] is [list_byte_of_string s] and
  [buf.toString()] is [string_of_list_byte buf].  [JSON_parse] gives
  [None] where [JSON.parse] throws. *)
Class JSON := {
JSON_stringify : json → string;
JSON_parse : string → option json
}.

(** What a call can do besides returning. *)
Inductive error : Type :=
| IncorrectlyEncoded      (* throw "Received incorrectly encoded data!" *)
| CryptoError             (* publicEncrypt / privateDecrypt throws *)
| SyntaxError             (* JSON.parse throws *)
| ReceiverExists          (* "Receiver for target CRDT already exists! ..." *)
| ReceiverMissing         (* "Message handler for targeted CRDT doesn't exist! ..." *)
| FactoryError            (* createFromReference throws *)
| RuntimeTypeError.       (* a [TypeError] of the runtime *)

Inductive outcome (A : Type) : Type :=
| Returns (a : A)
| Throws (e : error)
| Diverges.               (* the fuel of an unbounded loop ran out *)
Arguments Returns {A} a.
Arguments Throws {A} e.
Arguments Diverges {A}.

(** ** TCPNetwork: the plain framed transport *)

Module TCPNetwork.
Section TCPNetwork.
Context `{!JSON}.

(** [TCPNetwork.send]: the bytes given to [connection.write]. *)
Definition send (data : json) : Buffer.t :=
  let buffer := list_byte_of_string (JSON_stringify data) in
  Buffer.of_nat (length buffer) ++ x00 :: buffer.

(** The [try] block of [setReceiver] up to the call of [receive]:
    [JSON.parse(content.toString())]. *)
Definition parse (content : Buffer.t) : option json :=
  JSON_parse (string_of_list_byte content).

(** [setReceiver(connection, receive)] with a [receive] that is only
    watched: the variable of the connection is the list of the values
    [receive] has been called with. *)
Definition connection : Type := Reader.state (list json).

Definition setReceiver : connection := Reader.fresh [].

Definition on (events : list Reader.event) (c : connection) : connection :=
  Reader.run (λ _, parse) (λ data calls, calls ++ [data]) events c.

(** The receive calls made on a fresh connection. *)
Definition receiveCalls (events : list Reader.event) : list json :=
  Reader.variables (on events setReceiver).

End TCPNetwork.
End TCPNetwork.

(** ** EncryptedTCPNetwork *)

(** [publicEncrypt] and [privateDecrypt] of Node's [crypto].  Encryption
  pads with fresh randomness, passed here as a seed; both throw on input
  they cannot handle ([None]). *)
Class RSA := {
publicEncrypt : Buffer.t → Buffer.t → Buffer.t → option Buffer.t;
privateDecrypt : Buffer.t → Buffer.t → option Buffer.t
}.

Module EncryptedRSA.
Section EncryptedRSA.
Context `{!JSON} `{!RSA}.

(** The portion size [send] passes to [encryptRSA]. *)
Definition rsaPortionSize : nat := 2048 / 8 - 45.

(** The [for] loop of [encryptRSA], from a given [start]; [k] counts the
    portions already encrypted and selects the padding seed.  The result
    lists the buffers pushed onto [encrypted]. *)
Fixpoint encryptRSA_from (fuel : nat) (publicKey : Buffer.t) (portionSize : nat)
    (buffer : Buffer.t) (seeds : nat → Buffer.t) (k start : nat)
  : outcome (list Buffer.t) :=
  if start <? length buffer then
    match fuel with
    | 0 => Diverges
    | S fuel' =>
        let stop :=
          if length buffer <? start + portionSize then length buffer
          else start + portionSize in
        let portion := Buffer.subarray start stop buffer in
        match publicEncrypt publicKey (seeds k) portion with
        | None => Throws CryptoError
        | Some encryptedPortion =>
            match encryptRSA_from fuel' publicKey portionSize buffer seeds
                    (S k) (start + portionSize) with
            | Returns encrypted =>
                Returns (Buffer.of_nat (length encryptedPortion)
                         :: [x00] :: encryptedPortion :: encrypted)
            | Throws e => Throws e
            | Diverges => Diverges
            end
        end
    end
  else Returns [].

(** [encryptRSA(publicKey, portionSize, data)].  With a positive portion
    size the loop runs at most [buffer.length] times; with portion size
    zero and a non-empty buffer it never ends. *)
Definition encryptRSA (publicKey : Buffer.t) (portionSize : nat) (data : json)
    (seeds : nat → Buffer.t) : outcome Buffer.t :=
  let buffer := list_byte_of_string (JSON_stringify data) in
  match encryptRSA_from (length buffer) publicKey portionSize buffer seeds 0 0 with
  | Returns encrypted => Returns (concat encrypted)
  | Throws e => Throws e
  | Diverges => Diverges
  end.

(** The [while] loop of [decryptRSA]; the result lists
    [decryptedPortions]. *)
Fixpoint decryptRSA_loop (fuel : nat) (privateKey : Buffer.t) (rest : Buffer.t)
  : outcome (list Buffer.t) :=
  if 0 <? length rest then
    match fuel with
    | 0 => Diverges
    | S fuel' =>
        match Buffer.findIndex_zero rest with
        | Some portionSizeEnd =>
            if 0 <? portionSizeEnd then
              match Buffer.to_number (Buffer.subarray 0 portionSizeEnd rest) with
              | Some portionSize =>
                  if 0 <? portionSize then
                    let start := portionSizeEnd + 1 in
                    let portion := Buffer.subarray start (start + portionSize) rest in
                    let rest' := Buffer.subarray_from (start + portionSize) rest in
                    match privateDecrypt privateKey portion with
                    | None => Throws CryptoError
                    | Some decryptedPortion =>
                        match decryptRSA_loop fuel' privateKey rest' with
                        | Returns decryptedPortions =>
                            Returns (decryptedPortion :: decryptedPortions)
                        | Throws e => Throws e
                        | Diverges => Diverges
                        end
                    end
                  else Throws IncorrectlyEncoded
              | None => Throws IncorrectlyEncoded
              end
            else Throws IncorrectlyEncoded
        | None => Throws IncorrectlyEncoded
        end
    end
  else Returns [].

(** [decryptRSA(privateKey, buffer)]: every iteration shortens [rest], so
    its length is fuel enough. *)
Definition decryptRSA (privateKey : Buffer.t) (buffer : Buffer.t) : outcome json :=
  match decryptRSA_loop (length buffer) privateKey buffer with
  | Returns decryptedPortions =>
      let decrypted := concat decryptedPortions in
      match JSON_parse (string_of_list_byte decrypted) with
      | Some data => Returns data
      | None => Throws SyntaxError
      end
  | Throws e => Throws e
  | Diverges => Diverges
  end.

End EncryptedRSA.
End EncryptedRSA.

(** *** Connection state of EncryptedTCPNetwork

    The part of the class that decides when a message is written and when
    it is buffered: [connections], [connectionKeys], [bufferedData],
    [receiversByTopic], and the closure ([nonce], [hasKey]) that every call
    of [connect] creates for its socket.  The bytes of a write depend on
    fresh randomness (padding, IV); the log records a write by the
    arguments of the [EncryptedTCPNetwork.send] that made it. *)

Module EncryptedTCPNetwork.

(** A symmetric key as [connectionKeys] holds it ([Buffer | string]). *)
Inductive connKey : Type :=
| KeyString (s : string)
| KeyBuffer (b : Buffer.t).

(** JavaScript truthiness of a key: only the empty string is falsy. *)
Definition truthy (k : connKey) : bool :=
  match k with
  | KeyString s => negb (String.eqb s "")
  | KeyBuffer _ => true
  end.

(** The bytes of a key; a key given as a string stands for its UTF-8
    text. *)
Definition keyBytes (key : connKey) : Buffer.t :=
  match key with
  | KeyBuffer b => b
  | KeyString s => list_byte_of_string s
  end.

(** [createCipheriv('aes-256-cbc', key, iv)] takes a key of 32 bytes and
    throws on a key of any other length. *)
Definition cipherKey (key : connKey) : bool := length (keyBytes key) =? 32.

(** The key as it arrives in the handshake reply: a string, or the JSON
    image of a Buffer, whose [data] field holds the bytes. *)
Inductive wireKey : Type :=
| WireString (s : string)
| WireBuffer (data : Buffer.t).

(** [if (typeof connectionKey !== 'string') connectionKey =
    Buffer.from(connectionKey.data)]. *)
Definition keyOfWire (k : wireKey) : connKey :=
  match k with
  | WireString s => KeyString s
  | WireBuffer data => KeyBuffer data
  end.

Inductive encryptionType : Type := rsa | aes.

(** Calls that leave the object. *)
Inductive io : Type :=
| SocketWrite (socket : nat) (key : connKey) (type : encryptionType) (data : json)
| SocketEnd (socket : nat)
| SocketDestroy (socket : nat)
| LocalReceive (topic senderId : string) (message : json).

(** The variables captured by the receiver that [connect] installs. *)
Record closure : Type := Closure {
  peer : string;
  peerPublicKey : Buffer.t;
  nonce : string;
  hasKey : bool
}.

Record state : Type := State {
  id : string;
  publicKeys : gmap string Buffer.t;
  connections : gmap string nat;
  connectionKeys : gmap string connKey;
  bufferedData : gmap string (list (string * json));
  receiversByTopic : gset string;
  hasStopped : bool;
  closures : gmap nat closure;
  nextSocket : nat;
  log : list io
}.

Definition init (ownId : string) : state :=
  State ownId ∅ ∅ ∅ ∅ ∅ false ∅ 0 [].

Definition emit (e : io) (σ : state) : state :=
  State (id σ) (publicKeys σ) (connections σ) (connectionKeys σ) (bufferedData σ)
        (receiversByTopic σ) (hasStopped σ) (closures σ) (nextSocket σ) (log σ ++ [e]).

Definition setBuffered (b : gmap string (list (string * json))) (σ : state) : state :=
  State (id σ) (publicKeys σ) (connections σ) (connectionKeys σ) b
        (receiversByTopic σ) (hasStopped σ) (closures σ) (nextSocket σ) (log σ).

Definition setConnectionKeys (k : gmap string connKey) (σ : state) : state :=
  State (id σ) (publicKeys σ) (connections σ) k (bufferedData σ)
        (receiversByTopic σ) (hasStopped σ) (closures σ) (nextSocket σ) (log σ).

Definition setClosures (c : gmap nat closure) (σ : state) : state :=
  State (id σ) (publicKeys σ) (connections σ) (connectionKeys σ) (bufferedData σ)
        (receiversByTopic σ) (hasStopped σ) c (nextSocket σ) (log σ).

(** The queue buffered for a peer; an absent entry holds nothing. *)
Definition buffered (σ : state) (targetId : string) : list (string * json) :=
  default [] (bufferedData σ !! targetId).

(** [EncryptedTCPNetwork.send(connection, key, encryptionType, data)]:
    the data is encrypted, then written.  [encryptAES] throws when
    [createCipheriv] refuses the key, and nothing is written then.
    [encryptRSA] is only used for the handshake, under the public key
    read from the key file of the peer, which [publicEncrypt] is taken
    to accept. *)
Definition send (connection : nat) (key : connKey) (type : encryptionType)
    (data : json) (σ : state) : outcome state :=
  match type with
  | rsa => Returns (emit (SocketWrite connection key rsa data) σ)
  | aes =>
      if cipherKey key then Returns (emit (SocketWrite connection key aes data) σ)
      else Throws CryptoError
  end.

(** [sendMessage(targetId, topic, message)]; what [send] throws rejects
    the promise, and the object is as it was. *)
Definition sendMessage (targetId topic : string) (message : json) (σ : state)
  : outcome state :=
  if negb (String.eqb targetId (id σ)) then
    match connections σ !! targetId, connectionKeys σ !! targetId with
    | Some targetNode, Some connectionKey =>
        if truthy connectionKey then
          send targetNode connectionKey aes (JArr [JStr topic; message]) σ
        else
          Returns (setBuffered (<[targetId := buffered σ targetId ++ [(topic, message)]]>
                                  (bufferedData σ)) σ)
    | _, _ =>
        Returns (setBuffered (<[targetId := buffered σ targetId ++ [(topic, message)]]>
                                (bufferedData σ)) σ)
    end
  else
    Returns (if decide (topic ∈ receiversByTopic σ)
             then emit (LocalReceive topic targetId message) σ
             else σ).

(** [registerReceiver(topic, receiver)]. *)
Definition registerReceiver (topic : string) (σ : state) : state :=
  State (id σ) (publicKeys σ) (connections σ) (connectionKeys σ) (bufferedData σ)
        ({[topic]} ∪ receiversByTopic σ) (hasStopped σ) (closures σ) (nextSocket σ) (log σ).

(** [stop()].  [Map.forEach] visits the sockets in the order in which
    their keys were first set; the model does not keep that order and
    destroys them in the order of [map_to_list]. *)
Definition stop (σ : state) : state :=
  let σ1 :=
    State (id σ) (publicKeys σ) (connections σ) (connectionKeys σ) (bufferedData σ)
          (receiversByTopic σ) true (closures σ) (nextSocket σ) (log σ) in
  foldl (λ s kv, emit (SocketDestroy kv.2) s) σ1 (map_to_list (connections σ)).

(** The local function [connect] of [registerNode(id, node)], for the peer
    [peerId]; [newNonce] is the value [randomUUID()] returns.  The
    handshake is a [send] with ['rsa'], which writes (see [send]), so
    the [catch] branch is not entered. *)
Definition connect (peerId : string) (targetPublicKey : Buffer.t) (newNonce : string)
    (σ : state) : state :=
  let σ1 := setConnectionKeys (delete peerId (connectionKeys σ)) σ in
  let σ2 := match connections σ1 !! peerId with
            | Some old => emit (SocketEnd old) σ1
            | None => σ1
            end in
  let connection := nextSocket σ2 in
  let σ3 :=
    State (id σ2) (publicKeys σ2) (<[peerId := connection]> (connections σ2))
          (connectionKeys σ2) (bufferedData σ2) (receiversByTopic σ2) (hasStopped σ2)
          (<[connection := Closure peerId targetPublicKey newNonce false]> (closures σ2))
          (S connection) (log σ2) in
  emit (SocketWrite connection (KeyBuffer targetPublicKey) rsa
          (JArr [JStr (id σ3); JStr newNonce])) σ3.

(** [registerNode(id, node)]; [targetPublicKey] is what [readPublicKey]
    reads from disk. *)
Definition registerNode (peerId : string) (targetPublicKey : Buffer.t)
    (newNonce : string) (σ : state) : state :=
  if negb (String.eqb peerId (id σ)) then
    let σ1 :=
      State (id σ) (<[peerId := targetPublicKey]> (publicKeys σ)) (connections σ)
            (connectionKeys σ) (bufferedData σ) (receiversByTopic σ) (hasStopped σ)
            (closures σ) (nextSocket σ) (log σ) in
    connect peerId targetPublicKey newNonce σ1
  else σ.

(** The [for ... of bufferedElements] loop of the handshake receiver, from
    index [i].  The array iterator reads the live array, so an element that
    [sendMessage] pushes during the loop is visited too.  A [sendMessage]
    that throws ends the loop.  The result is the state in which the loop
    ends and the exception that ended it, if any. *)
Fixpoint drain (fuel : nat) (peerId : string) (i : nat) (σ : state)
  : outcome (state * option error) :=
  match buffered σ peerId !! i with
  | None => Returns (σ, None)
  | Some (topic, message) =>
      match fuel with
      | 0 => Diverges
      | S fuel' =>
          match sendMessage peerId topic message σ with
          | Returns σ' => drain fuel' peerId (S i) σ'
          | Throws e => Returns (σ, Some e)
          | Diverges => Diverges
          end
      end
  end.

(** The receiver installed by [connect] on the outbound socket, called with
    the decrypted reply [[returnedNonce, connectionKey]]: the state it
    leaves, and the exception that its promise rejects with, if any (the
    [catch] of [setReceiver] logs it). *)
Definition onHandshakeReply (fuel : nat) (socket : nat) (returnedNonce : string)
    (connectionKey : wireKey) (newNonce : string) (σ : state)
  : outcome (state * option error) :=
  match closures σ !! socket with
  | None => Returns (σ, None)
  | Some c =>
      if negb (hasKey c) then
        if String.eqb returnedNonce (nonce c) then
          let σ1 := setConnectionKeys
                      (<[peer c := keyOfWire connectionKey]> (connectionKeys σ)) σ in
          let σ2 := setClosures
                      (<[socket := Closure (peer c) (peerPublicKey c) (nonce c) true]>
                         (closures σ1)) σ1 in
          match bufferedData σ2 !! peer c with
          | Some _ => drain fuel (peer c) 0 σ2
          | None => Returns (σ2, None)
          end
        else
          Returns (connect (peer c) (peerPublicKey c) newNonce σ, None)
      else Returns (σ, None)
  end.

(** The ['error'] and ['end'] handlers of an outbound socket: [connect]. *)
Definition onSocketDown (socket : nat) (newNonce : string) (σ : state) : state :=
  match closures σ !! socket with
  | None => σ
  | Some c => connect (peer c) (peerPublicKey c) newNonce σ
  end.

(** Everything that can happen to the object. *)
Inductive op : Type :=
| OpRegisterNode (peerId : string) (targetPublicKey : Buffer.t) (newNonce : string)
| OpRegisterReceiver (topic : string)
| OpSendMessage (targetId topic : string) (message : json)
| OpHandshakeReply (fuel socket : nat) (returnedNonce : string) (connectionKey : wireKey)
    (newNonce : string)
| OpSocketDown (socket : nat) (newNonce : string)
| OpStop.

Definition step (o : op) (σ : state) : outcome state :=
  match o with
  | OpRegisterNode p k n => Returns (registerNode p k n σ)
  | OpRegisterReceiver t => Returns (registerReceiver t σ)
  | OpSendMessage i t m => sendMessage i t m σ
  | OpHandshakeReply f s r k n =>
      match onHandshakeReply f s r k n σ with
      | Returns (σ', _) => Returns σ'
      | Throws e => Throws e
      | Diverges => Diverges
      end
  | OpSocketDown s n => Returns (onSocketDown s n σ)
  | OpStop => Returns (stop σ)
  end.

(** A sequence of operations, each run to its end; the sequence ends at
    a call that throws to its caller. *)
Fixpoint run (ops : list op) (σ : state) : outcome state :=
  match ops with
  | [] => Returns σ
  | o :: ops' =>
      match step o σ with
      | Returns σ' => run ops' σ'
      | Throws e => Throws e
      | Diverges => Diverges
      end
  end.

End EncryptedTCPNetwork.

(** ** A JavaScript [Set] whose iteration order matters

    Elements are kept in insertion order; [add] of an element that is
    already present changes nothing. *)

Module JSSet.
Section JSSet.
Context {A : Type} `{EqDecision A}.

Definition t := list A.

Definition has (x : A) (s : t) : bool := bool_decide (x ∈ s).

Definition add (x : A) (s : t) : t := if has x s then s else s ++ [x].

Definition delete (x : A) (s : t) : t := filter (λ y, y ≠ x) s.

Definition size (s : t) : nat := length s.

(** [new Set(iterable)]. *)
Definition of_list (l : list A) : t := foldl (λ s x, add x s) [] l.

End JSSet.
Arguments t A : clear implicits.
End JSSet.

(** ** waitForEveryone: the readiness barrier *)

Module Barrier.

(** [network.sendMessage(targetId, topic, message)] as the barrier calls it. *)
Record sent : Type := Sent {
  targetId : string;
  topic : string;
  message : json
}.

Record state : Type := State {
  missingNodes : JSSet.t string;
  sends : list sent;
  resolveCalls : nat          (* how often [resolve()] has been called *)
}.

(** The receiver registered for [setupTopic]. *)
Definition onGreeting (setupTopic greeterId : string) (σ : state) : state :=
  if JSSet.has greeterId (missingNodes σ) then
    let missing := JSSet.delete greeterId (missingNodes σ) in
    let sends' := sends σ ++ [Sent greeterId setupTopic JNull] in
    if JSSet.size missing =? 0 then State missing sends' (S (resolveCalls σ))
    else State missing sends' (resolveCalls σ)
  else σ.

(** The executor of the promise: copy the set, register the receiver,
    greet every other node. *)
Definition waitForEveryone (setupTopic : string) (otherIDs : JSSet.t string) : state :=
  State (JSSet.of_list otherIDs)
        (map (λ otherId, Sent otherId setupTopic JNull) otherIDs)
        0.

(** The barrier after the greetings of [greeters] have arrived, in order. *)
Definition after (setupTopic : string) (otherIDs : JSSet.t string)
    (greeters : list string) : state :=
  foldl (λ σ g, onGreeting setupTopic g σ) (waitForEveryone setupTopic otherIDs) greeters.

(** The promise is settled by the first call of [resolve]. *)
Definition resolved (σ : state) : bool := 0 <? resolveCalls σ.

End Barrier.

(** ** GeneralMessageDistributor: fan-out to the local receivers

    A receiver is a function object; the set compares by reference, so a
    receiver is identified by a number.  What a receiver does is outside
    the class; [settles r m] tells how the promise [r(m)] ends. *)

Module GeneralMessageDistributor.

(** How a promise ends: it fulfils, it rejects, or it never settles. *)
Inductive settlement : Type :=
| Fulfils
| Rejects
| Pending.

Inductive call : Type :=
| Invoked (receiver : nat) (message : json)     (* [deliver(message)] is called *)
| Completed (receiver : nat) (message : json).  (* its promise has fulfilled   *)

Definition addReceiver (receiveMessage : nat) (receivers : JSSet.t nat) : JSSet.t nat :=
  JSSet.add receiveMessage receivers.

(** [deliver(message)]: [for (const deliver of this.receivers) await
    deliver(message)].  The loop goes on when the awaited promise has
    fulfilled.  A promise that rejects makes the [await] throw, which
    ends the loop and rejects the promise of [deliver]; at a promise that
    never settles the loop stays, and so does the promise of [deliver].
    The result is the calls made and how the promise of [deliver]
    ends. *)
Fixpoint deliver (settles : nat → json → settlement) (receivers : JSSet.t nat)
    (message : json) : list call * settlement :=
  match receivers with
  | [] => ([], Fulfils)
  | r :: rest =>
      match settles r message with
      | Fulfils =>
          let '(calls, ending) := deliver settles rest message in
          (Invoked r message :: Completed r message :: calls, ending)
      | Rejects => ([Invoked r message], Rejects)
      | Pending => ([Invoked r message], Pending)
      end
  end.

End GeneralMessageDistributor.

(** ** SerializedSet

    Only [add], [has] and [size] are used by the broadcast; all three go to
    the delegate, a set of the serialized values. *)

Module SerializedSet.

Abbreviation t := (gset string).

Section SerializedSet.
Context `{!JSON}.

(** The default [serializeValue]. *)
Definition serializeValue (value : json) : string := JSON_stringify value.

Definition add (value : json) (s : t) : t := {[serializeValue value]} ∪ s.

Definition has (value : json) (s : t) : bool := bool_decide (serializeValue value ∈ s).

Definition size (s : t) : nat := size s.

End SerializedSet.
End SerializedSet.

(** ** ReliableMessageDistributor: Bracha's reliable broadcast *)

(** [createHash('sha256').update(s).digest('base64')]. *)
Class Hash := { sha256_base64 : string → string }.

Module ReliableMessageDistributor.

(** [interface MessageState]; [None] is [null]. *)
Record MessageState : Type := mkMessageState {
  wasEchoSent : bool;
  wasReadySent : bool;
  wasAccepted : bool;
  echoSenders : option SerializedSet.t;
  readySenders : option SerializedSet.t
}.

(** Calls that leave the object: [this.sendMessage(nodeId, topic, message)]
    and [this.deliver(content)].  A delivery is logged together with the
    key of the message state on whose behalf it is made.  A message sent to
    the node itself comes back from the network as a call of the receiver
    of its topic, like a message of any other node. *)
Inductive effect : Type :=
| Send (targetId topic : string) (message : json)
| Deliver (hashedMessage : string) (content : json).

Record state : Type := State {
  messageStates : gmap string MessageState;
  effects : list effect
}.

Definition init : state := State ∅ [].

(** Methods read and update the object: a state monad. *)
Definition M (A : Type) : Type := state → A * state.

Definition ret {A} (a : A) : M A := λ σ, (a, σ).

Definition bind {A B} (m : M A) (k : A → M B) : M B :=
  λ σ, let '(a, σ') := m σ in k a σ'.

Definition exec {A} (m : M A) (σ : state) : state := snd (m σ).

Definition eval {A} (m : M A) (σ : state) : A := fst (m σ).

Declare Scope rbc_scope.
Delimit Scope rbc_scope with rbc.
Notation "'let*' x ':=' m 'in' k" := (bind m (λ x, k))
  (at level 10, x name, m at level 100, k at level 200) : rbc_scope.
Notation "m ';;' k" := (bind m (λ _, k))
  (at level 100, k at level 200, right associativity) : rbc_scope.
Local Open Scope rbc_scope.

Definition when (b : bool) (m : M unit) : M unit := if b then m else ret tt.

Definition emit (e : effect) : M unit :=
  λ σ, (tt, State (messageStates σ) (effects σ ++ [e])).

(** [o[i]] for an array; a missing element reads as [undefined], which
    [JSON.stringify] writes as [null] inside an array. *)
Definition at_index (i : nat) (o : json) : json :=
  match o with
  | JArr items => nth i items JNull
  | _ => JNull
  end.

Definition getIdOfMessage (message : json) : json := at_index 0 message.

Definition getContentOfMessage (message : json) : json := at_index 1 message.

Definition isString (o : json) : bool :=
  match o with JStr _ => true | _ => false end.

(** [Array.isArray(o) && o.length == 2 && typeof o[0] === 'string']. *)
Definition isMessageWithId (o : json) : bool :=
  match o with
  | JArr items => (length items =? 2) && isString (nth 0 items JNull)
  | _ => false
  end.

(** [Array.isArray(o) && o.length == 3 && typeof o[0] === 'string' &&
    typeof o[2] === 'string']. *)
Definition isAnnotatedMessage (o : json) : bool :=
  match o with
  | JArr items =>
      (length items =? 3) && isString (nth 0 items JNull) && isString (nth 2 items JNull)
  | _ => false
  end.

(** [[...messageWithId, senderId]]. *)
Definition annotate (messageWithId : json) (senderId : string) : json :=
  match messageWithId with
  | JArr items => JArr (items ++ [JStr senderId])
  | _ => JArr [JStr senderId]
  end.

(** [withId(message)]; [uuid] is the value [uuid()] returns. *)
Definition withId (uuid : string) (message : json) : json :=
  JArr [JStr uuid; message].

(** Strictly less on rationals, as a boolean. *)
Definition Qltb (x y : Q) : bool := negb (Qle_bool y x).

Section Distributor.
Context `{!JSON} `{!Hash}.

(** [this.nodeIDs], that is [Object.keys(this.nodes)]. *)
Variable nodeIDs : list string.

Definition nodeCount : Z := Z.of_nat (length nodeIDs).

(** [Math.floor((this.nodeCount - 1) / 3)]. *)
Definition faultyNodeCount : Z := ((nodeCount - 1) / 3)%Z.

Definition hashMessage (annotatedMessage : json) : string :=
  let hash := sha256_base64 (JSON_stringify annotatedMessage) in
  JSON_stringify (JArr [getIdOfMessage annotatedMessage; JStr hash]).

Definition freshMessageState : MessageState :=
  mkMessageState false false false (Some ∅) (Some ∅).

(** [getMessageState]: the state object of the message, created on first
    use. *)
Definition getMessageState (annotatedMessage : json) : M MessageState :=
  λ σ,
    let hashedMessage := hashMessage annotatedMessage in
    match messageStates σ !! hashedMessage with
    | Some messageState => (messageState, σ)
    | None =>
        (freshMessageState,
         State (<[hashedMessage := freshMessageState]> (messageStates σ)) (effects σ))
    end.

(** An assignment to a field of the state object of the message. *)
Definition putMessageState (annotatedMessage : json) (messageState : MessageState)
  : M unit :=
  λ σ, (tt, State (<[hashMessage annotatedMessage := messageState]> (messageStates σ))
                  (effects σ)).

(** [this.nodeIDs.forEach(nodeId => this.sendMessage(nodeId, topic,
    message))]. *)
Definition sendToEveryone (topic : string) (message : json) : M unit :=
  λ σ, (tt, State (messageStates σ)
                  (effects σ ++ map (λ nodeId, Send nodeId topic message) nodeIDs)).

Definition echoMessage (annotatedMessage : json) : M unit :=
  let* messageState := getMessageState annotatedMessage in
  when (negb (wasEchoSent messageState)) (
    putMessageState annotatedMessage
      (mkMessageState true (wasReadySent messageState) (wasAccepted messageState)
         (echoSenders messageState) (readySenders messageState)) ;;
    sendToEveryone "echo" annotatedMessage).

Definition readyMessage (annotatedMessage : json) : M unit :=
  let* messageState := getMessageState annotatedMessage in
  when (negb (wasReadySent messageState)) (
    putMessageState annotatedMessage
      (mkMessageState (wasEchoSent messageState) true (wasAccepted messageState)
         None (readySenders messageState)) ;;
    sendToEveryone "ready" annotatedMessage).

Definition acceptMessage (annotatedMessage : json) : M unit :=
  let* messageState := getMessageState annotatedMessage in
  when (negb (wasAccepted messageState)) (
    putMessageState annotatedMessage
      (mkMessageState (wasEchoSent messageState) (wasReadySent messageState) true
         (echoSenders messageState) None) ;;
    emit (Deliver (hashMessage annotatedMessage) (getContentOfMessage annotatedMessage))).

(** The two tests on a message state. *)
Definition readyTest (messageState : MessageState) : bool :=
  match readySenders messageState with
  | Some senders => (faultyNodeCount + 1 <=? Z.of_nat (SerializedSet.size senders))%Z
  | None => false
  end
  ||
  match echoSenders messageState with
  | Some senders =>
      Qltb (inject_Z (nodeCount + faultyNodeCount) / 2)
           (inject_Z (Z.of_nat (SerializedSet.size senders)))
  | None => false
  end.

Definition acceptedTest (messageState : MessageState) : bool :=
  match readySenders messageState with
  | Some senders => (2 * faultyNodeCount + 1 <=? Z.of_nat (SerializedSet.size senders))%Z
  | None => false
  end.

Definition isMessageReady (annotatedMessage : json) : M bool :=
  let* messageState := getMessageState annotatedMessage in
  ret (readyTest messageState).

Definition isMessageAccepted (annotatedMessage : json) : M bool :=
  let* messageState := getMessageState annotatedMessage in
  ret (acceptedTest messageState).

Definition registerEchoMessage (senderId : string) (annotatedMessage : json) : M unit :=
  let* messageState := getMessageState annotatedMessage in
  match echoSenders messageState with
  | Some senders =>
      putMessageState annotatedMessage
        (mkMessageState (wasEchoSent messageState) (wasReadySent messageState)
           (wasAccepted messageState)
           (Some (SerializedSet.add (JStr senderId) senders))
           (readySenders messageState))
  | None => ret tt
  end.

Definition registerReadyMessage (senderId : string) (annotatedMessage : json) : M unit :=
  let* messageState := getMessageState annotatedMessage in
  match readySenders messageState with
  | Some senders =>
      putMessageState annotatedMessage
        (mkMessageState (wasEchoSent messageState) (wasReadySent messageState)
           (wasAccepted messageState)
           (echoSenders messageState)
           (Some (SerializedSet.add (JStr senderId) senders)))
  | None => ret tt
  end.

(** The receivers registered in the constructor. *)
Definition onInitial (senderId : string) (messageWithId : json) : M unit :=
  when (isMessageWithId messageWithId) (
    echoMessage (annotate messageWithId senderId)).

Definition onEcho (senderId : string) (annotatedMessage : json) : M unit :=
  when (isAnnotatedMessage annotatedMessage) (
    registerEchoMessage senderId annotatedMessage ;;
    let* ready := isMessageReady annotatedMessage in
    when ready (
      echoMessage annotatedMessage ;;
      readyMessage annotatedMessage)).

Definition onReady (senderId : string) (annotatedMessage : json) : M unit :=
  when (isAnnotatedMessage annotatedMessage) (
    registerReadyMessage senderId annotatedMessage ;;
    let* ready := isMessageReady annotatedMessage in
    when ready (
      echoMessage annotatedMessage ;;
      readyMessage annotatedMessage) ;;
    let* accepted := isMessageAccepted annotatedMessage in
    when accepted (acceptMessage annotatedMessage)).

Definition broadcast (uuid : string) (message : json) : M unit :=
  sendToEveryone "initial" (withId uuid message).

(** What the network and the application make the node do. *)
Inductive event : Type :=
| Broadcast (uuid : string) (message : json)
| Initial (senderId : string) (message : json)
| Echo (senderId : string) (message : json)
| Ready (senderId : string) (message : json).

Definition handle (e : event) : M unit :=
  match e with
  | Broadcast uuid message => broadcast uuid message
  | Initial senderId message => onInitial senderId message
  | Echo senderId message => onEcho senderId message
  | Ready senderId message => onReady senderId message
  end.

Definition run (events : list event) (σ : state) : state :=
  foldl (λ s e, exec (handle e) s) σ events.

(** How often a message with the given key was sent to a node on a topic. *)
Definition sentCount (topic hashedMessage targetId : string) (l : list effect) : nat :=
  length (List.filter
            (λ e, match e with
                  | Send t tp m =>
                      String.eqb t targetId && String.eqb tp topic
                      && String.eqb (hashMessage m) hashedMessage
                  | Deliver _ _ => false
                  end) l).

(** How often [deliver] was called on behalf of the given key. *)
Definition deliverCount (hashedMessage : string) (l : list effect) : nat :=
  length (List.filter
            (λ e, match e with
                  | Deliver h _ => String.eqb h hashedMessage
                  | Send _ _ _ => false
                  end) l).

End Distributor.
End ReliableMessageDistributor.

(** ** CachedMessageHandler: the router

    [messageReceiverByTarget] is a [SerializedMap]: every operation goes to
    the delegate under the key [JSON.stringify(target)].  A receiver is a
    function object, identified by a number.  [createFromReference] comes
    from the [nest-crdt] package; it is given the handler itself and may
    call back into it, so it is a parameter that transforms the state of
    the handler and may throw. *)

Module CachedMessageHandler.

Inductive effect : Type :=
| Handle (receiver : nat) (message : json)   (* [handleMessage(message)] *)
| BroadcastAnnotated (annotatedMessage : json).

Record state : Type := State {
  messageReceiverByTarget : gmap string nat;
  effects : list effect
}.

Section Handler.
Context `{!JSON}.

Variable createFromReference : json → state → outcome unit * state.

(** The default [serializeKey] of [SerializedMap]. *)
Definition serializeKey (target : json) : string := JSON_stringify target.

Definition has (target : json) (σ : state) : bool :=
  bool_decide (is_Some (messageReceiverByTarget σ !! serializeKey target)).

Definition get (target : json) (σ : state) : option nat :=
  messageReceiverByTarget σ !! serializeKey target.

Definition addReceiverFor (target : json) (handleMessage : nat) (σ : state)
  : outcome unit * state :=
  if has target σ then (Throws ReceiverExists, σ)
  else
    (Returns tt,
     State (<[serializeKey target := handleMessage]> (messageReceiverByTarget σ))
           (effects σ)).

Definition sendMessageTo (target message : json) (σ : state) : outcome unit * state :=
  let annotatedMessage := JObj [("target"%string, target); ("message"%string, message)] in
  (Returns tt,
   State (messageReceiverByTarget σ) (effects σ ++ [BroadcastAnnotated annotatedMessage])).

Definition deliverMessage (target message : json) (σ : state) : outcome unit * state :=
  let '(created, σ1) :=
    if negb (has target σ) then createFromReference target σ
    else (Returns tt, σ) in
  match created with
  | Returns _ =>
      match get target σ1 with
      | None => (Throws ReceiverMissing, σ1)
      | Some handleMessage =>
          (Returns tt,
           State (messageReceiverByTarget σ1) (effects σ1 ++ [Handle handleMessage message]))
      end
  | Throws e => (Throws e, σ1)
  | Diverges => (Diverges, σ1)
  end.

End Handler.
End CachedMessageHandler.

(** * [NetworkMessageDistributor.init]

    [init] waits for every node of [this.nodes] but the node itself:
    [otherNodes] is [new Set(Object.keys(this.nodes))] without [this.id]. *)

Module NetworkMessageDistributor.

Definition SETUP_TOPIC : string := "NETWORK_MESSAGE_DISTRIBUTOR_SETUP_TOPIC".

Definition otherNodes (id : string) (nodeIDs : list string) : JSSet.t string :=
  JSSet.delete id (JSSet.of_list nodeIDs).

(** The barrier [init] awaits, as it is when [init] has made its calls. *)
Definition init (id : string) (nodeIDs : list string) : Barrier.state :=
  Barrier.waitForEveryone SETUP_TOPIC (otherNodes id nodeIDs).


End NetworkMessageDistributor.

(** * TCPNetwork: the object

    [TCPNetwork.send] and [TCPNetwork.setReceiver] are modelled above; here
    are the constructor's server callback, [registerNode], [sendMessage],
    [registerReceiver] and [stop]. *)

Module TCPNetworkInstance.

(** What a variable of the callback can hold: [undefined], or a value that
    [JSON.parse] returned ([null] is [Value JNull]). *)
Inductive jsval : Type :=
| Undefined
| Value (j : json).

(** ** Strings

    A [string] is the UTF-8 text of a JavaScript string, whose indices
    count UTF-16 code units.  The first byte of a character tells how
    many bytes it takes; a character of four bytes is outside the basic
    plane and takes two code units, any other character takes one. *)

Definition charWidth (lead : ascii) : nat :=
  let n := nat_of_ascii lead in
  if n <? 192 then 1 else if n <? 224 then 2 else if n <? 240 then 3 else 4.

Fixpoint dropBytes (n : nat) (s : string) : string :=
  match n, s with
  | S n', String _ rest => dropBytes n' rest
  | _, _ => s
  end.

Fixpoint takeBytes (n : nat) (s : string) : string :=
  match n, s with
  | S n', String c rest => String c (takeBytes n' rest)
  | _, _ => EmptyString
  end.

(** [s.endsWith(suffix)] for a [suffix] of ASCII characters, which occur
    in a UTF-8 text only as themselves. *)
Definition endsWith (s suffix : string) : bool :=
  let n := String.length s in
  let k := String.length suffix in
  (k <=? n) && String.eqb (dropBytes (n - k) s) suffix.

(** [s.substring(1)]: [s] without its first code unit.  When the first
    character takes two code units the result begins with the second
    half of a surrogate pair and is not a text: [None]; no topic a
    receiver is registered for equals it. *)
Definition substring1 (s : string) : option string :=
  match s with
  | EmptyString => Some EmptyString
  | String lead rest =>
      if charWidth lead <? 4 then Some (dropBytes (charWidth lead - 1) rest) else None
  end.

(** The first character of a string, as the string iterator yields it,
    and what follows it. *)
Definition splitChar (s : string) : option (string * string) :=
  match s with
  | EmptyString => None
  | String lead rest =>
      Some (String lead (takeBytes (charWidth lead - 1) rest),
            dropBytes (charWidth lead - 1) rest)
  end.

(** ** The server callback *)

(** [let [ topic, message ] = data]: the first two values the iterator of
    [data] yields, [undefined] where it is exhausted.  An array yields its
    elements and a string its characters; any other value [JSON.parse]
    returns is not iterable and the declaration throws a [TypeError]
    ([None]). *)
Definition destructure (data : json) : option (jsval * jsval) :=
  match data with
  | JArr items =>
      Some (from_option Value Undefined (items !! 0),
            from_option Value Undefined (items !! 1))
  | JStr s =>
      match splitChar s with
      | None => Some (Undefined, Undefined)
      | Some (first, rest) =>
          Some (Value (JStr first),
                match splitChar rest with
                | None => Undefined
                | Some (second, _) => Value (JStr second)
                end)
      end
  | _ => None
  end.

(** [topic == "senderId"].  Against a string, [==] compares a string as
    it is and an array by its [toString()], the elements joined with
    commas; only an array of one element can give a text without a comma.
    A number, a boolean, [null] and an object of [JSON.parse] never
    compare equal to ["senderId"]. *)
Fixpoint looseEqSenderId (topic : json) : bool :=
  match topic with
  | JStr s => String.eqb s "senderId"
  | JArr items =>
      match items with
      | [item] => looseEqSenderId item
      | _ => false
      end
  | _ => false
  end.

(** A call [receive(senderId, message)] of a registered receiver. *)
Inductive call : Type :=
| Called (receiver : nat) (senderId message : jsval).

(** The callback given to [setReceiver] in the constructor, for one value
    of [data]: the new value of the variable [senderId] of the connection,
    and the calls made.  [receiversByTopic] maps a topic to its receiver.
    A [TypeError] ([data] is not iterable, or [topic] has no method
    [endsWith]) is caught and logged by [setReceiver]. *)
Definition onMessage (receiversByTopic : gmap string nat) (senderId : jsval)
    (data : json) : jsval * list call :=
  match destructure data with
  | None => (senderId, [])
  | Some (topic, message) =>
      if match topic with Value t => looseEqSenderId t | Undefined => false end
      then (message, [])
      else
        match topic with
        | Value (JStr t) =>
            let topic' := if endsWith t "senderId" then substring1 t else Some t in
            match topic' ≫= (λ t', receiversByTopic !! t') with
            | Some receive => (senderId, [Called receive senderId message])
            | None => (senderId, [])
            end
        | _ => (senderId, [])
        end
  end.

(** The callback on the values of a sequence of frames, in order. *)
Definition onMessages (receiversByTopic : gmap string nat) (senderId : jsval)
    (datas : list json) : jsval * list call :=
  foldl (λ '(senderId, calls) data,
           let '(senderId', new) := onMessage receiversByTopic senderId data in
           (senderId', calls ++ new))
        (senderId, []) datas.

(** The callback as [setReceiver] calls it: the variables it works on
    are [senderId] and, for the record, the calls made so far. *)
Definition receive (receiversByTopic : gmap string nat) (data : json)
    (c : jsval * list call) : jsval * list call :=
  let '(senderId', new) := onMessage receiversByTopic c.1 data in
  (senderId', c.2 ++ new).

Section TCPNetworkInstance.
Context `{!JSON}.

(** An accepted connection: [senderId] is [null], [lastBuffer] is empty
    and no run of the ['data'] handler waits. *)
Definition accepted : Reader.state (jsval * list call) :=
  Reader.fresh (Value JNull, []).

(** An accepted connection after the given events. *)
Definition serve (receiversByTopic : gmap string nat) (events : list Reader.event)
  : Reader.state (jsval * list call) :=
  Reader.run (λ _, TCPNetwork.parse) (receive receiversByTopic) events accepted.

(** ** The object *)

(** Calls that leave the object.  Sockets are numbered as they are
    created. *)
Inductive io : Type :=
| SocketConnect (socket : nat)
| SocketWrite (socket : nat) (data : Buffer.t)
| SocketEnd (socket : nat)
| SocketDestroy (socket : nat)
| ServerClose
| LocalReceive (receiver : nat) (senderId : string) (message : json).

Record state : Type := State {
  id : string;
  connections : gmap string nat;
  receiversByTopic : gmap string nat;
  hasStopped : bool;
  nextSocket : nat;
  log : list io
}.

Definition init (ownId : string) : state := State ownId ∅ ∅ false 0 [].

Definition emit (new : list io) (σ : state) : state :=
  State (id σ) (connections σ) (receiversByTopic σ) (hasStopped σ) (nextSocket σ)
        (log σ ++ new).

(** [connections] is a plain object: reading a key it does not own finds
    the property of [Object.prototype] of that name, if there is one. *)
Definition objectPrototypeKeys : list string :=
  ["constructor"; "__defineGetter__"; "__defineSetter__"; "hasOwnProperty";
   "__lookupGetter__"; "__lookupSetter__"; "isPrototypeOf"; "propertyIsEnumerable";
   "toString"; "valueOf"; "__proto__"; "toLocaleString"]%string.

Definition inherited (key : string) : bool := bool_decide (key ∈ objectPrototypeKeys).

(** A method returns, or throws a [TypeError] (its promise rejects). *)
Inductive result : Type :=
| Done (σ : state)
| TypeError.

(** The closure [connect] of [registerNode], for the socket it was made
    for; it is also the listener of the socket's ['error'] and ['end']
    events. *)
Definition connect (socket : nat) (σ : state) : state :=
  if hasStopped σ then σ
  else emit [SocketConnect socket;
             SocketWrite socket (TCPNetwork.send (JArr [JStr "senderId"; JStr (id σ)]))] σ.

Definition onSocketDown (socket : nat) (σ : state) : state := connect socket σ.

(** [registerNode(id, node)].  A key that [connections] does not own but
    inherits reads as a value without a method [end]. *)
Definition registerNode (nodeId : string) (σ : state) : result :=
  if decide (nodeId = id σ) then Done σ
  else
    let create (σ : state) :=
      let connection := nextSocket σ in
      let σ1 := connect connection
                  (State (id σ) (connections σ) (receiversByTopic σ) (hasStopped σ)
                         (S connection) (log σ)) in
      State (id σ1) (<[nodeId := connection]> (connections σ1)) (receiversByTopic σ1)
            (hasStopped σ1) (nextSocket σ1) (log σ1) in
    match connections σ !! nodeId with
    | Some old => Done (create (emit [SocketEnd old] σ))
    | None => if inherited nodeId then TypeError else Done (create σ)
    end.

(** [registerReceiver(topic, receiver)]. *)
Definition registerReceiver (topic : string) (receiver : nat) (σ : state) : state :=
  State (id σ) (connections σ) (<[topic := receiver]> (receiversByTopic σ))
        (hasStopped σ) (nextSocket σ) (log σ).

(** The topic as [sendMessage] puts it on the wire. *)
Definition wireTopic (topic : string) : string :=
  if endsWith topic "senderId" then String "_" topic else topic.

(** [sendMessage(targetId, topic, message)].  For a target without
    connection [TCPNetwork.send] is called with [undefined], or with the
    inherited property, neither of which has a method [write]. *)
Definition sendMessage (targetId topic : string) (message : json) (σ : state) : result :=
  if decide (targetId = id σ) then
    match receiversByTopic σ !! topic with
    | Some receive => Done (emit [LocalReceive receive targetId message] σ)
    | None => Done σ
    end
  else
    match connections σ !! targetId with
    | Some targetNode =>
        Done (emit [SocketWrite targetNode
                      (TCPNetwork.send (JArr [JStr (wireTopic topic); message]))] σ)
    | None => TypeError
    end.

(** [stop()].  [Object.values] lists the sockets in the order in which
    their keys were first set; the model does not keep that order and
    destroys them in the order of [map_to_list]. *)
Definition stop (σ : state) : state :=
  emit (ServerClose :: map (λ kv, SocketDestroy kv.2) (map_to_list (connections σ)))
       (State (id σ) (connections σ) (receiversByTopic σ) true (nextSocket σ) (log σ)).

(** The bytes written to a socket since it was last connected: what the
    peer has been sent on the present connection. *)
Definition written (socket : nat) (l : list io) : Buffer.t :=
  foldl (λ bytes e,
           match e with
           | SocketConnect s => if decide (s = socket) then [] else bytes
           | SocketWrite s data => if decide (s = socket) then bytes ++ data else bytes
           | _ => bytes
           end) [] l.

End TCPNetworkInstance.
End TCPNetworkInstance.

(** * EncryptedTCPNetwork: what goes over the wire

    [encryptAES], [decryptAES], [send] and the [try] block of
    [setReceiver]; [encryptRSA] and [decryptRSA] are modelled above. *)

(** [createCipheriv('aes-256-cbc', key, iv)] with [update] and [final],
    and [createDecipheriv] likewise; [None] where one of the calls
    throws. *)
Class AES := {
cipher : EncryptedTCPNetwork.connKey → Buffer.t → string → option Buffer.t;
decipher : EncryptedTCPNetwork.connKey → Buffer.t → Buffer.t → option Buffer.t
}.

Module EncryptedFrames.
Import EncryptedTCPNetwork EncryptedRSA.

Section EncryptedFrames.
Context `{!JSON} `{!RSA} `{!AES}.

(** [encryptAES(key, data)]; [iv] is what [randomBytes(16)] returns. *)
Definition encryptAES (key : connKey) (data : json) (iv : Buffer.t) : outcome Buffer.t :=
  match cipher key iv (JSON_stringify data) with
  | Some encrypted => Returns (iv ++ encrypted)
  | None => Throws CryptoError
  end.

(** [decryptAES(key, buffer)]. *)
Definition decryptAES (key : connKey) (buffer : Buffer.t) : outcome json :=
  let iv := Buffer.subarray 0 16 buffer in
  let encrypted := Buffer.subarray_from 16 buffer in
  match decipher key iv encrypted with
  | Some decrypted =>
      match JSON_parse (string_of_list_byte decrypted) with
      | Some data => Returns data
      | None => Throws SyntaxError
      end
  | None => Throws CryptoError
  end.

(** [send(connection, key, encryptionType, data)]: the bytes given to
    [connection.write]; [seeds] and [iv] are the randomness drawn. *)
Definition send (key : connKey) (type : encryptionType) (data : json)
    (seeds : nat → Buffer.t) (iv : Buffer.t) : outcome Buffer.t :=
  match match type with
        | rsa => encryptRSA (keyBytes key) rsaPortionSize data seeds
        | aes => encryptAES key data iv
        end with
  | Returns encrypted => Returns (Buffer.frame encrypted)
  | Throws e => Throws e
  | Diverges => Diverges
  end.

(** The [try] block of [setReceiver], up to the call of [receive], when
    [getDecryptionKey()] returns [type] and [key]. *)
Definition decrypt (type : encryptionType) (key : connKey) (content : Buffer.t)
  : outcome json :=
  match type with
  | rsa => decryptRSA (keyBytes key) content
  | aes => decryptAES key content
  end.

(** The same for a connection whose decryption key stays the same: the
    outbound socket of [registerNode], which decrypts with the private
    key, and an accepted connection once [senderId] is set.  An
    exception is caught and logged by the [catch]. *)
Definition decode (type : encryptionType) (key : connKey) (content : Buffer.t)
  : option json :=
  match decrypt type key content with
  | Returns data => Some data
  | _ => None
  end.

(** A fresh connection of that kind after the given events, with a
    [receive] that is only watched: the variable of the connection is the
    list of the values [receive] has been called with. *)
Definition on (type : encryptionType) (key : connKey) (events : list Reader.event)
  : Reader.state (list json) :=
  Reader.run (λ _, decode type key) (λ data calls, calls ++ [data]) events
    (Reader.fresh []).

Definition receiveCalls (type : encryptionType) (key : connKey)
    (events : list Reader.event) : list json :=
  Reader.variables (on type key events).

End EncryptedFrames.
End EncryptedFrames.

(** * EncryptedTCPNetwork: the server callback

    The callback that the constructor gives to [setReceiver] for an
    accepted connection, with its variables [senderId] and
    [connectionKey]. *)

Module EncryptedServer.
Import EncryptedTCPNetwork.
Import TCPNetworkInstance (jsval, Undefined, Value, destructure).

(** The array of the bytes of a buffer. *)
Definition bytesJSON (b : Buffer.t) : json :=
  JArr (map (λ x, JNum (Z.of_N (Byte.to_N x))) b).

(** [JSON.stringify] of a [Buffer] goes through its [toJSON]. *)
Definition bufferJSON (b : Buffer.t) : json :=
  JObj [("type"%string, JStr "Buffer"); ("data"%string, bytesJSON b)].

Definition keyJSON (key : connKey) : json :=
  match key with
  | KeyString s => JStr s
  | KeyBuffer b => bufferJSON b
  end.

(** An element of an array as [JSON.stringify] writes it: [undefined]
    becomes [null]. *)
Definition orNull (v : jsval) : json :=
  match v with
  | Undefined => JNull
  | Value j => j
  end.

(** Calls that leave the callback: [EncryptedTCPNetwork.send(socket,
    senderPublicKey, 'rsa', data)] and [receive(senderId, message)] of the
    receiver of a topic. *)
Inductive effect : Type :=
| Reply (senderPublicKey : Buffer.t) (data : json)
| Called (topic : string) (senderId message : jsval).

(** [getDecryptionKey()]. *)
Definition getDecryptionKey (privateKey : Buffer.t) (connectionKey : connKey)
    (senderId : jsval) : encryptionType * connKey :=
  match senderId with
  | Value JNull => (rsa, KeyBuffer privateKey)
  | _ => (aes, connectionKey)
  end.

(** The callback for one decrypted value [data]: the new value of
    [senderId] and the calls made.  A [TypeError] ([data] is not iterable)
    and what [send] throws for a sender without public key are caught and
    logged by [setReceiver]; the assignment to [senderId] has then taken
    place. *)
Definition onMessage (publicKeys : gmap string Buffer.t) (receiversByTopic : gset string)
    (connectionKey : connKey) (senderId : jsval) (data : json) : jsval * list effect :=
  match senderId with
  | Value JNull =>
      match destructure data with
      | None => (senderId, [])
      | Some (senderId', nonce) =>
          match senderId' with
          | Value (JStr s) =>
              match publicKeys !! s with
              | Some senderPublicKey =>
                  (senderId',
                   [Reply senderPublicKey (JArr [orNull nonce; keyJSON connectionKey])])
              | None => (senderId', [])
              end
          | _ => (senderId', [])
          end
      end
  | _ =>
      match destructure data with
      | None => (senderId, [])
      | Some (topic, message) =>
          match topic with
          | Value (JStr t) =>
              if decide (t ∈ receiversByTopic)
              then (senderId, [Called t senderId message])
              else (senderId, [])
          | _ => (senderId, [])
          end
      end
  end.

(** The callback on the values of a sequence of frames, in order, from
    a given value of [senderId]. *)
Definition onMessages (publicKeys : gmap string Buffer.t) (receiversByTopic : gset string)
    (connectionKey : connKey) (senderId : jsval) (datas : list json)
  : jsval * list effect :=
  foldl (λ '(senderId, effects) data,
           let '(senderId', new) :=
             onMessage publicKeys receiversByTopic connectionKey senderId data in
           (senderId', effects ++ new))
        (senderId, []) datas.

End EncryptedServer.

(** * EncryptedTCPNetwork: the receiver of the handshake reply

    The receiver that [connect] gives to [setReceiver] for the outbound
    socket, on the value that was decrypted: how it reads the reply
    before it records the key. *)

(** [Buffer.from(value)] belongs to the runtime; [None] where it
    throws. *)
Class NodeBuffer := {
Buffer_from : TCPNetworkInstance.jsval → option Buffer.t
}.

Module EncryptedClient.
Import EncryptedTCPNetwork.
Import TCPNetworkInstance (jsval, Undefined, Value, destructure).

(** [returnedNonce == nonce].  The nonce is a string, so [==] compares a
    string as it is and an array by its [toString()], the elements
    joined with commas.  [randomUUID()] returns 36 characters, digits
    and letters in five groups joined by hyphens: no text of a number,
    and without a comma.  So only an array of one element can equal it,
    and a number, a boolean, [null] and an object never do. *)
Fixpoint looseEq (value : json) (nonce : string) : bool :=
  match value with
  | JStr s => String.eqb s nonce
  | JArr items =>
      match items with
      | [item] => looseEq item nonce
      | _ => false
      end
  | _ => false
  end.

(** The field of an object of [JSON.parse]; of a key that occurs more
    than once the last value stands. *)
Fixpoint field (name : string) (fields : list (string * json)) : jsval :=
  match fields with
  | [] => Undefined
  | (key, value) :: rest =>
      match field name rest with
      | Undefined => if String.eqb key name then Value value else Undefined
      | found => found
      end
  end.

(** [connectionKey.data]: reading a property of [null] or of [undefined]
    throws ([None]); a number, a boolean and an array have no property
    of that name. *)
Definition dataOf (connectionKey : jsval) : option jsval :=
  match connectionKey with
  | Undefined | Value JNull => None
  | Value (JObj fields) => Some (field "data" fields)
  | Value _ => Some Undefined
  end.

Section EncryptedClient.
Context `{!NodeBuffer}.

(** [if (typeof connectionKey !== 'string') connectionKey =
    Buffer.from(connectionKey.data)]: the key as [onHandshakeReply]
    takes it, [None] where the statement throws. *)
Definition wireKeyOf (connectionKey : jsval) : option wireKey :=
  match connectionKey with
  | Value (JStr s) => Some (WireString s)
  | _ =>
      match dataOf connectionKey with
      | Some value => WireBuffer <$> Buffer_from value
      | None => None
      end
  end.

(** The receiver on the decrypted value [data]: the destructuring, the
    comparison of the nonce and the reading of the key, then what
    [onHandshakeReply] does.  A [TypeError] rejects the promise of the
    receiver before anything is recorded. *)
Definition onReply (fuel : nat) (socket : nat) (data : json) (newNonce : string)
    (σ : state) : outcome (state * option error) :=
  match closures σ !! socket with
  | None => Returns (σ, None)
  | Some c =>
      if negb (hasKey c) then
        match destructure data with
        | None => Returns (σ, Some RuntimeTypeError)
        | Some (returnedNonce, connectionKey) =>
            if match returnedNonce with
               | Value value => looseEq value (nonce c)
               | Undefined => false
               end
            then
              match wireKeyOf connectionKey with
              | Some key => onHandshakeReply fuel socket (nonce c) key newNonce σ
              | None => Returns (σ, Some RuntimeTypeError)
              end
            else Returns (connect (peer c) (peerPublicKey c) newNonce σ, None)
        end
      else Returns (σ, None)
  end.

End EncryptedClient.
End EncryptedClient.

(** * Properties *)

(** A small stand-in for the JSON codec, used where an example needs one:
    a string is its own text, an array is the bracketed list of the texts
    of its elements, everything else is written [null]; a text is read
    back as a string, except for [null]. *)
Fixpoint toy_stringify (j : json) : string :=
  match j with
  | JStr s => s
  | JArr items =>
      "[" ++ (fix join (l : list json) : string :=
                match l with
                | [] => ""
                | x :: l' => toy_stringify x ++ "," ++ join l'
                end) items ++ "]"
  | _ => "null"
  end%string.

Definition toyJSON : JSON := {|
  JSON_stringify := toy_stringify;
  JSON_parse := λ s, Some (if String.eqb s "null" then JNull else JStr s)
|}.

(** ** Frames and the reader loop *)

Module FramingFacts.
Import Buffer Reader.

Lemma digits_no_zero (d : uint) :
  Forall (λ b, b ≠ x00) (list_byte_of_string (NilEmpty.string_of_uint d)).
Proof.
  induction d; simpl; constructor; try assumption; discriminate.
Qed.

Lemma to_uint_nonnil (n : nat) : Nat.to_uint n ≠ Nil.
Proof.
  rewrite <- (DecimalNat.Unsigned.of_to n) at 1.
  rewrite DecimalNat.Unsigned.to_of.
  apply DecimalFacts.unorm_nonnil.
Qed.

Lemma of_nat_no_zero (n : nat) : Forall (λ b, b ≠ x00) (of_nat n).
Proof. apply digits_no_zero. Qed.

Lemma of_nat_length (n : nat) : 0 < length (of_nat n).
Proof.
  unfold of_nat. pose proof (to_uint_nonnil n) as Hn.
  destruct (Nat.to_uint n); simpl; try lia. congruence.
Qed.

Lemma to_number_of_nat (n : nat) : to_number (of_nat n) = Some n.
Proof.
  unfold to_number, of_nat.
  rewrite string_of_list_byte_of_string, NilEmpty.usu.
  by rewrite DecimalNat.Unsigned.of_to.
Qed.

Lemma findIndex_zero_app (pre rest : t) :
  Forall (λ b, b ≠ x00) pre →
  findIndex_zero (pre ++ x00 :: rest) = Some (length pre).
Proof.
  induction 1 as [|b pre Hb _ IH]; simpl; [done|].
  destruct (Byte.eqb b x00) eqn:E.
  - apply Byte.byte_dec_bl in E. contradiction.
  - by rewrite IH.
Qed.

Lemma findIndex_zero_lt (buf : t) (i : nat) :
  findIndex_zero buf = Some i → i < length buf.
Proof.
  revert i. induction buf as [|b buf IH]; simpl; intros i; [done|].
  destruct (Byte.eqb b x00); [intros [= <-]; lia|].
  destruct (findIndex_zero buf) as [j|]; [|done].
  intros [= <-]. specialize (IH j eq_refl). lia.
Qed.

Lemma findIndex_zero_extend (buf more : t) (i : nat) :
  findIndex_zero buf = Some i → findIndex_zero (buf ++ more) = Some i.
Proof.
  revert i. induction buf as [|b buf IH]; simpl; intros i; [done|].
  destruct (Byte.eqb b x00); [done|].
  destruct (findIndex_zero buf) as [j|]; [|done].
  intros [= <-]. by rewrite (IH j eq_refl).
Qed.

(** The loop does not depend on fuel beyond the length of the buffer. *)
Lemma scan_fuel (f1 f2 : nat) (buf : t) :
  length buf ≤ f1 → length buf ≤ f2 → scan f1 buf = scan f2 buf.
Proof.
  revert f2 buf. induction f1 as [|f1 IH]; intros f2 buf H1 H2.
  - destruct buf; [|simpl in H1; lia]. by destruct f2.
  - destruct f2 as [|f2].
    { destruct buf; [done|simpl in H2; lia]. }
    simpl. destruct (0 <? length buf) eqn:Hlen; [|done].
    destruct (findIndex_zero buf) as [lengthEnd|] eqn:Hidx; [|done].
    destruct (0 <? lengthEnd); [|done].
    destruct (to_number _) as [len|]; [|done].
    destruct (lengthEnd + 1 + len <=? length buf) eqn:Hfit; [|done].
    apply Nat.leb_le in Hfit.
    rewrite (IH f2); [done| |]; unfold subarray_from; rewrite length_drop; lia.
Qed.

(** All the frames a buffer holds, and what is left over. *)
Definition scanAll (buf : t) : list t * t := scan (length buf) buf.

(** A complete frame at the head of the buffer is taken off; its body is
    handed on unless it is empty. *)
Lemma scanAll_frame (body rest : t) :
  scanAll (frame body ++ rest) =
    let '(received, last) := scanAll rest in
    (if 0 <? length body then body :: received else received, last).
Proof.
  unfold scanAll, frame.
  pose proof (of_nat_length (length body)) as Hpos.
  set (pre := of_nat (length body)) in *.
  assert (Hlen : length ((pre ++ x00 :: body) ++ rest)
                 = S (length pre + length body + length rest)).
  { rewrite !length_app. simpl. lia. }
  rewrite Hlen. simpl scan.
  replace (0 <? length ((pre ++ x00 :: body) ++ rest)) with true
    by (symmetry; apply Nat.ltb_lt; lia).
  rewrite <- app_assoc. simpl app.
  rewrite findIndex_zero_app by apply of_nat_no_zero.
  replace (0 <? length pre) with true by (symmetry; apply Nat.ltb_lt; lia).
  assert (Hpre : subarray 0 (length pre) (pre ++ x00 :: body ++ rest) = pre).
  { unfold subarray. rewrite Nat.sub_0_r, drop_0. by rewrite take_app_length. }
  rewrite Hpre. unfold pre at 1. rewrite to_number_of_nat. fold pre.
  replace (length pre + 1 + length body <=? length (pre ++ x00 :: body ++ rest))
    with true
    by (symmetry; apply Nat.leb_le; rewrite length_app; simpl;
        rewrite length_app; lia).
  assert (Hcontent : subarray (length pre + 1) (length pre + 1 + length body)
                       (pre ++ x00 :: body ++ rest) = body).
  { unfold subarray.
    replace (length pre + 1 + length body - (length pre + 1)) with (length body) by lia.
    replace (pre ++ x00 :: body ++ rest) with ((pre ++ [x00]) ++ body ++ rest)
      by (by rewrite <- app_assoc).
    replace (length pre + 1) with (length (pre ++ [x00]))
      by (rewrite length_app; simpl; lia).
    rewrite drop_app_length. by rewrite take_app_length. }
  assert (Hrest : subarray_from (length pre + 1 + length body)
                    (pre ++ x00 :: body ++ rest) = rest).
  { unfold subarray_from.
    replace (pre ++ x00 :: body ++ rest) with ((pre ++ x00 :: body) ++ rest)
      by (rewrite <- app_assoc; done).
    replace (length pre + 1 + length body) with (length (pre ++ x00 :: body))
      by (rewrite length_app; simpl; lia).
    by rewrite drop_app_length. }
  rewrite Hcontent, Hrest.
  rewrite (scan_fuel _ (length rest) rest) by lia.
  by destruct (scan (length rest) rest).
Qed.

(** The stream of a sequence of bodies. *)
Definition stream (bodies : list t) : t := concat (map frame bodies).

Definition nonEmpty (body : t) : bool := 0 <? length body.

Lemma scanAll_stream (bodies : list t) :
  scanAll (stream bodies) = (List.filter nonEmpty bodies, []).
Proof.
  induction bodies as [|body bodies IH]; [done|].
  unfold stream in *. simpl. rewrite scanAll_frame, IH.
  unfold nonEmpty. by destruct (0 <? length body).
Qed.

(** Bytes that arrive later do not change what the loop made of the bytes
    it already had: scanning [buf ++ more] is scanning [buf] and then
    going on from what [buf] left over. *)
Lemma scanAll_app (buf more : t) :
  scanAll (buf ++ more) =
    let '(r1, last1) := scanAll buf in
    let '(r2, last2) := scanAll (last1 ++ more) in
    (r1 ++ r2, last2).
Proof.
  remember (length buf) as n eqn:Hn.
  revert buf Hn more. induction n as [n IH] using lt_wf_ind. intros buf Hn more.
  assert (Hstay : scanAll buf = ([], buf) →
            scanAll (buf ++ more) =
              (let '(r1, last1) := scanAll buf in
               let '(r2, last2) := scanAll (last1 ++ more) in (r1 ++ r2, last2))).
  { intros ->. by destruct (scanAll (buf ++ more)). }
  destruct (length buf) as [|m] eqn:Hm.
  { apply Hstay. by destruct buf. }
  assert (Hbreak : ∀ p, scan (S m) buf = p → p = ([], buf) → scanAll buf = ([], buf)).
  { intros p <- Hp. unfold scanAll. by rewrite Hm. }
  pose proof (eq_refl (scan (S m) buf)) as Hscan.
  simpl scan in Hscan at 2. rewrite Hm in Hscan.
  replace (0 <? S m) with true in Hscan by done.
  destruct (findIndex_zero buf) as [lengthEnd|] eqn:Hidx;
    [|by apply Hstay, (Hbreak _ Hscan)].
  destruct (0 <? lengthEnd) eqn:Hle; [|by apply Hstay, (Hbreak _ Hscan)].
  destruct (to_number (subarray 0 lengthEnd buf)) as [len|] eqn:Hnum;
    [|by apply Hstay, (Hbreak _ Hscan)].
  destruct (lengthEnd + 1 + len <=? S m) eqn:Hfit;
    [|by apply Hstay, (Hbreak _ Hscan)].
  clear Hstay Hbreak. apply Nat.leb_le in Hfit.
  pose proof (findIndex_zero_lt _ _ Hidx) as Hlt.
  unfold scanAll at 2. rewrite Hm, Hscan. clear Hscan.
  (* the same frame is found in the longer buffer *)
  unfold scanAll at 1.
  assert (Hlen : length (buf ++ more) = S (m + length more))
    by (rewrite length_app; lia).
  rewrite Hlen. simpl scan. rewrite Hlen.
  replace (0 <? S (m + length more)) with true by done.
  rewrite (findIndex_zero_extend _ more _ Hidx), Hle.
  assert (Hsub : subarray 0 lengthEnd (buf ++ more) = subarray 0 lengthEnd buf).
  { unfold subarray. rewrite Nat.sub_0_r, !drop_0. apply take_app_le. lia. }
  rewrite Hsub, Hnum.
  replace (lengthEnd + 1 + len <=? S (m + length more)) with true
    by (symmetry; apply Nat.leb_le; lia).
  assert (Hcontent :
    subarray (lengthEnd + 1) (lengthEnd + 1 + len) (buf ++ more)
    = subarray (lengthEnd + 1) (lengthEnd + 1 + len) buf).
  { unfold subarray. rewrite drop_app_le by lia.
    apply take_app_le. rewrite length_drop. lia. }
  assert (Hrest :
    subarray_from (lengthEnd + 1 + len) (buf ++ more)
    = subarray_from (lengthEnd + 1 + len) buf ++ more).
  { unfold subarray_from. apply drop_app_le. lia. }
  rewrite Hcontent, Hrest.
  set (buf1 := subarray_from (lengthEnd + 1 + len) buf) in *.
  assert (Hlen1 : length buf1 < n).
  { unfold buf1, subarray_from. rewrite length_drop. lia. }
  rewrite (scan_fuel (m + length more) (length (buf1 ++ more)) (buf1 ++ more));
    [|rewrite length_app; unfold buf1, subarray_from; rewrite length_drop; lia|done].
  rewrite (scan_fuel m (length buf1) buf1);
    [|unfold buf1, subarray_from; rewrite length_drop; lia|done].
  fold (scanAll (buf1 ++ more)). fold (scanAll buf1).
  rewrite (IH (length buf1) Hlen1 buf1 eq_refl more).
  destruct (scanAll buf1) as [r1 last1].
  destruct (scanAll (last1 ++ more)) as [r2 last2].
  by destruct (0 <? length _).
Qed.

(** What the loop leaves over holds no further complete frame. *)
Lemma scanAll_leftover (buf : t) :
  scanAll (snd (scanAll buf)) = ([], snd (scanAll buf)).
Proof.
  pose proof (scanAll_app buf []) as H. rewrite !app_nil_r in H.
  destruct (scanAll buf) as [r1 last1]. simpl.
  rewrite app_nil_r in H.
  destruct (scanAll last1) as [r2 last2].
  injection H as H1 H2. subst last2.
  f_equal. apply (app_inv_head r1). by rewrite app_nil_r.
Qed.

(** One iteration of the loop: the content taken off the buffer and
    what is left, when the buffer begins with a complete frame. *)
Definition frameAt (buffer : t) : option (t * t) :=
  if 0 <? length buffer then
    match findIndex_zero buffer with
    | Some lengthEnd =>
        if 0 <? lengthEnd then
          match to_number (subarray 0 lengthEnd buffer) with
          | Some len =>
              if lengthEnd + 1 + len <=? length buffer then
                Some (subarray (lengthEnd + 1) (lengthEnd + 1 + len) buffer,
                      subarray_from (lengthEnd + 1 + len) buffer)
              else None
          | None => None
          end
        else None
    | None => None
    end
  else None.

Lemma scan_step (fuel : nat) (buffer : t) :
  scan (S fuel) buffer =
    match frameAt buffer with
    | Some (content, rest) =>
        let '(received, last) := scan fuel rest in
        (if 0 <? length content then content :: received else received, last)
    | None => ([], buffer)
    end.
Proof.
  unfold frameAt. simpl.
  destruct (0 <? length buffer); [|done].
  destruct (findIndex_zero buffer) as [lengthEnd|]; [|done].
  destruct (0 <? lengthEnd); [|done].
  destruct (to_number _) as [len|]; [|done].
  by destruct (lengthEnd + 1 + len <=? length buffer).
Qed.

Lemma frameAt_shorter (buffer content rest : t) :
  frameAt buffer = Some (content, rest) → length rest < length buffer.
Proof.
  unfold frameAt.
  destruct (0 <? length buffer); [|done].
  destruct (findIndex_zero buffer) as [lengthEnd|]; [|done].
  destruct (0 <? lengthEnd); [|done].
  destruct (to_number _) as [len|]; [|done].
  destruct (lengthEnd + 1 + len <=? length buffer) eqn:Hfit; [|done].
  apply Nat.leb_le in Hfit. intros [= _ <-].
  unfold subarray_from. rewrite length_drop. lia.
Qed.

Lemma scanAll_step (buffer : t) :
  scanAll buffer =
    match frameAt buffer with
    | Some (content, rest) =>
        let '(received, last) := scanAll rest in
        (if 0 <? length content then content :: received else received, last)
    | None => ([], buffer)
    end.
Proof.
  unfold scanAll. destruct (length buffer) as [|n] eqn:Hn.
  - destruct buffer; [done|discriminate].
  - rewrite scan_step. destruct (frameAt buffer) as [[content rest]|] eqn:Hframe; [|done].
    apply frameAt_shorter in Hframe.
    by rewrite (scan_fuel n (length rest) rest) by lia.
Qed.

Lemma frameAt_frame (body rest : t) : frameAt (frame body ++ rest) = Some (body, rest).
Proof.
  unfold frameAt, frame.
  pose proof (of_nat_length (length body)) as Hpos.
  set (pre := of_nat (length body)) in *.
  assert (Hlen : length ((pre ++ x00 :: body) ++ rest)
                 = S (length pre + length body + length rest)).
  { rewrite !length_app. simpl. lia. }
  rewrite Hlen.
  replace (0 <? S (length pre + length body + length rest)) with true by done.
  rewrite <- app_assoc. simpl app.
  rewrite findIndex_zero_app by apply of_nat_no_zero.
  replace (0 <? length pre) with true by (symmetry; apply Nat.ltb_lt; lia).
  assert (Hpre : subarray 0 (length pre) (pre ++ x00 :: body ++ rest) = pre).
  { unfold subarray. rewrite Nat.sub_0_r, drop_0. by rewrite take_app_length. }
  rewrite Hpre. unfold pre at 1. rewrite to_number_of_nat. fold pre.
  replace (length pre + 1 + length body <=? S (length pre + length body + length rest))
    with true by (symmetry; apply Nat.leb_le; lia).
  f_equal. f_equal.
  - unfold subarray.
    replace (length pre + 1 + length body - (length pre + 1)) with (length body) by lia.
    replace (pre ++ x00 :: body ++ rest) with ((pre ++ [x00]) ++ body ++ rest)
      by (by rewrite <- app_assoc).
    replace (length pre + 1) with (length (pre ++ [x00]))
      by (rewrite length_app; simpl; lia).
    rewrite drop_app_length. by rewrite take_app_length.
  - unfold subarray_from.
    replace (pre ++ x00 :: body ++ rest) with ((pre ++ x00 :: body) ++ rest)
      by (rewrite <- app_assoc; done).
    replace (length pre + 1 + length body) with (length (pre ++ x00 :: body))
      by (rewrite length_app; simpl; lia).
    by rewrite drop_app_length.
Qed.

Lemma frameAt_zero (rest : t) : frameAt (x00 :: rest) = None.
Proof. reflexivity. Qed.

Lemma findIndex_zero_none (buf : t) :
  Forall (λ b, b ≠ x00) buf → findIndex_zero buf = None.
Proof.
  induction 1 as [|b buf Hb _ IH]; simpl; [done|].
  destruct (Byte.eqb b x00) eqn:E; [|by rewrite IH].
  apply Byte.byte_dec_bl in E. contradiction.
Qed.

Lemma frameAt_no_zero (buf : t) : Forall (λ b, b ≠ x00) buf → frameAt buf = None.
Proof.
  intros Hbuf. unfold frameAt. rewrite (findIndex_zero_none buf Hbuf).
  by destruct (0 <? length buf).
Qed.

(** The contents taken out of a sequence of chunks by runs that are never
    kept waiting, from a given [lastBuffer], and the [lastBuffer] left. *)
Fixpoint scanChunks (last : t) (pieces : list t) : list t * t :=
  match pieces with
  | [] => ([], last)
  | piece :: pieces' =>
      let '(r1, last1) := scanAll (last ++ piece) in
      let '(r2, last2) := scanChunks last1 pieces' in
      (r1 ++ r2, last2)
  end.

(** Reading piece by piece is reading the whole stream at once. *)
Lemma scanChunks_scanAll (pieces : list t) (last : t) :
  scanAll last = ([], last) →
  scanChunks last pieces = scanAll (last ++ concat pieces).
Proof.
  revert last. induction pieces as [|piece pieces IH]; intros last Hlast.
  - simpl. by rewrite app_nil_r, Hlast.
  - simpl. rewrite app_assoc, (scanAll_app (last ++ piece) (concat pieces)).
    pose proof (scanAll_leftover (last ++ piece)) as Hleft.
    destruct (scanAll (last ++ piece)) as [r1 last1]. simpl in Hleft.
    rewrite (IH last1 Hleft).
    by destruct (scanAll (last1 ++ concat pieces)).
Qed.

End FramingFacts.

(** ** Runs of the ['data'] handler *)

Module HandlerFacts.
Import Buffer Reader FramingFacts.

Section Handler.
Context {St V : Type}.
Variable decode : St → t → option V.
Variable receive : V → St → St.

(** The [try] block on one content, and on a sequence of contents in
    turn. *)
Definition handOver (variables : St) (content : t) : St :=
  match decode variables content with
  | Some data => receive data variables
  | None => variables
  end.

Definition handOverAll (variables : St) (contents : list t) : St :=
  foldl handOver variables contents.

(** Where a run that starts on [buffer] ends when it is never kept
    waiting for long: the variables, and the buffer it stores. *)
Definition finish (variables : St) (buffer : t) : St * t :=
  (handOverAll variables (scanAll buffer).1, (scanAll buffer).2).

Lemma loop_step (fuel : nat) (variables : St) (buffer : t) :
  loop decode receive (S fuel) variables buffer =
    match frameAt buffer with
    | Some (content, rest) =>
        if 0 <? length content then
          match decode variables content with
          | Some data => Awaits (receive data variables) rest
          | None => loop decode receive fuel variables rest
          end
        else loop decode receive fuel variables rest
    | None => Stored buffer
    end.
Proof.
  unfold frameAt. simpl.
  destruct (0 <? length buffer); [|done].
  destruct (findIndex_zero buffer) as [lengthEnd|]; [|done].
  destruct (0 <? lengthEnd); [|done].
  destruct (to_number _) as [len|]; [|done].
  by destruct (lengthEnd + 1 + len <=? length buffer).
Qed.

Lemma loop_stuck (fuel : nat) (variables : St) (buffer : t) :
  frameAt buffer = None → loop decode receive fuel variables buffer = Stored buffer.
Proof. intros Hnone. destruct fuel; [done|]. by rewrite loop_step, Hnone. Qed.

Lemma loop_frame (variables : St) (body rest : t) (data : V) :
  0 < length body →
  decode variables body = Some data →
  loop decode receive (length (frame body ++ rest)) variables (frame body ++ rest)
  = Awaits (receive data variables) rest.
Proof.
  intros Hbody Hdata.
  destruct (length (frame body ++ rest)) as [|n] eqn:Hn.
  { unfold frame in Hn. rewrite !length_app in Hn. simpl in Hn. lia. }
  rewrite loop_step, frameAt_frame, Hdata.
  by replace (0 <? length body) with true by (symmetry; by apply Nat.ltb_lt).
Qed.

Lemma finish_step (variables : St) (buffer : t) :
  finish variables buffer =
    match frameAt buffer with
    | Some (content, rest) =>
        finish (if 0 <? length content then handOver variables content else variables)
               rest
    | None => (variables, buffer)
    end.
Proof.
  unfold finish. rewrite (scanAll_step buffer).
  destruct (frameAt buffer) as [[content rest]|]; [|done].
  destruct (scanAll rest) as [received last].
  by destruct (0 <? length content).
Qed.

(** However far the loop gets before it waits, where the run will end
    is where it was going to end. *)
Lemma loop_finish (fuel : nat) (variables : St) (buffer : t) :
  length buffer ≤ fuel →
  match loop decode receive fuel variables buffer with
  | Awaits variables' rest => finish variables buffer = finish variables' rest
  | Stored rest => finish variables buffer = (variables, rest)
  end.
Proof.
  revert buffer. induction fuel as [|fuel IH]; intros buffer Hfuel.
  - destruct buffer; [done|simpl in Hfuel; lia].
  - rewrite loop_step, (finish_step variables buffer).
    destruct (frameAt buffer) as [[content rest]|] eqn:Hframe; [|done].
    pose proof (frameAt_shorter _ _ _ Hframe) as Hshorter.
    specialize (IH rest ltac:(lia)).
    destruct (0 <? length content); [|done].
    unfold handOver. by destruct (decode variables content) as [data|].
Qed.

(** Where a connection is heading when at most one run waits. *)
Definition outlook (σ : state St) : St * t :=
  match waiting σ with
  | [] => (variables σ, lastBuffer σ)
  | buffer :: _ => finish (variables σ) buffer
  end.

Lemma onData_outlook (chunk : t) (σ : state St) :
  waiting σ = [] →
  outlook (onData decode receive chunk σ)
  = finish (variables σ) (lastBuffer σ ++ chunk)
  ∧ length (waiting (onData decode receive chunk σ)) ≤ 1.
Proof.
  intros Hidle. unfold onData.
  pose proof (loop_finish (length (lastBuffer σ ++ chunk)) (variables σ)
                (lastBuffer σ ++ chunk) ltac:(lia)) as Hloop.
  destruct (loop _ _ _ _ _) as [variables' rest|rest];
    unfold outlook; rewrite Hidle; cbn [waiting variables lastBuffer app length];
    split; (done || lia).
Qed.

Lemma onSettled_outlook (k : nat) (σ : state St) :
  length (waiting σ) ≤ 1 →
  outlook (onSettled decode receive k σ) = outlook σ
  ∧ length (waiting (onSettled decode receive k σ)) ≤ 1.
Proof.
  intros Hone. unfold onSettled.
  destruct (waiting σ !! k) as [buffer|] eqn:Hk; [|done].
  destruct (waiting σ) as [|buffer' [|]] eqn:Hwaiting;
    [done| |simpl in Hone; lia].
  destruct k as [|k]; [|done]. injection Hk as ->.
  pose proof (loop_finish (length buffer) (variables σ) buffer ltac:(lia)) as Hloop.
  destruct (loop _ _ _ _ _) as [variables' rest|rest];
    unfold outlook; rewrite Hwaiting; cbn; split; (done || lia).
Qed.

(** The chunks still to come, run after run. *)
Definition ahead (p : St * t) (pieces : list t) : St * t :=
  foldl (λ p piece, finish p.1 (p.2 ++ piece)) p pieces.

Lemma undisturbed_outlook (events : list event) (σ : state St) :
  length (waiting σ) ≤ 1 →
  undisturbed decode receive events σ = true →
  outlook (run decode receive events σ) = ahead (outlook σ) (chunks events)
  ∧ length (waiting (run decode receive events σ)) ≤ 1.
Proof.
  revert σ. induction events as [|e events IH]; intros σ Hone Hquiet; [done|].
  cbn [run foldl]. fold (run decode receive events (step decode receive e σ)).
  destruct e as [chunk|k].
  - cbn [undisturbed] in Hquiet.
    destruct (waiting σ) as [|buffer rest] eqn:Hidle; [|done].
    destruct (onData_outlook chunk σ Hidle) as [Hnext Hone'].
    destruct (IH (onData decode receive chunk σ) Hone' Hquiet) as [Hrun Hlen].
    split; [|done]. cbn [step] in *. rewrite Hrun, Hnext.
    unfold outlook. by rewrite Hidle.
  - assert (Hquiet' : undisturbed decode receive events (onSettled decode receive k σ) = true).
    { cbn [undisturbed] in Hquiet. by destruct (waiting σ). }
    destruct (onSettled_outlook k σ Hone) as [Hnext Hone'].
    destruct (IH (onSettled decode receive k σ) Hone' Hquiet') as [Hrun Hlen].
    split; [|done]. cbn [step] in *. by rewrite Hrun, Hnext.
Qed.

Lemma handOverAll_app (variables : St) (contents contents' : list t) :
  handOverAll variables (contents ++ contents')
  = handOverAll (handOverAll variables contents) contents'.
Proof. unfold handOverAll. apply foldl_app. Qed.

Lemma ahead_scanChunks (variables : St) (last : t) (pieces : list t) :
  ahead (variables, last) pieces
  = (handOverAll variables (scanChunks last pieces).1, (scanChunks last pieces).2).
Proof.
  revert variables last. induction pieces as [|piece pieces IH]; intros variables last.
  - done.
  - change (ahead (variables, last) (piece :: pieces))
      with (ahead (finish variables (last ++ piece)) pieces).
    unfold finish. cbn [scanChunks].
    destruct (scanAll (last ++ piece)) as [r1 last1]. cbn [fst snd].
    rewrite IH.
    destruct (scanChunks last1 pieces) as [r2 last2]. cbn [fst snd].
    by rewrite handOverAll_app.
Qed.

(** When no chunk arrives while a run of the handler waits, and no run
    waits in the end, the contents have been handed over as a single
    run over the whole stream would have: one after the other, in the
    order of the stream. *)
Lemma undisturbed_run (initial : St) (events : list event) :
  undisturbed decode receive events (fresh initial) = true →
  waiting (run decode receive events (fresh initial)) = [] →
  variables (run decode receive events (fresh initial))
  = handOverAll initial (scanAll (concat (chunks events))).1
  ∧ lastBuffer (run decode receive events (fresh initial))
    = (scanAll (concat (chunks events))).2.
Proof.
  intros Hquiet Hidle.
  destruct (undisturbed_outlook events (fresh initial)) as [Hrun _]; [simpl; lia|done|].
  unfold outlook in Hrun at 1. rewrite Hidle in Hrun.
  change (outlook (fresh initial)) with (initial, @nil byte) in Hrun.
  rewrite ahead_scanChunks, (scanChunks_scanAll (chunks events) []) in Hrun by done.
  simpl app in Hrun. by injection Hrun as -> ->.
Qed.

(** A connection on which nothing waits and whose [lastBuffer] begins
    with a zero byte stays that way. *)
Lemma stuck_run (events : list event) (σ : state St) (rest : t) :
  waiting σ = [] →
  lastBuffer σ = x00 :: rest →
  run decode receive events σ
  = State (variables σ) (x00 :: rest ++ concat (chunks events)) [].
Proof.
  revert σ rest. induction events as [|e events IH]; intros σ rest Hidle Hlast.
  - simpl. rewrite app_nil_r. destruct σ. simpl in *. by subst.
  - cbn [run foldl]. fold (run decode receive events (step decode receive e σ)).
    destruct e as [chunk|k]; cbn [step].
    + assert (Hdata : onData decode receive chunk σ
                      = State (variables σ) (x00 :: rest ++ chunk) []).
      { unfold onData. rewrite Hlast, Hidle. cbn [app].
        by rewrite loop_stuck by apply frameAt_zero. }
      rewrite Hdata, (IH _ (rest ++ chunk)) by done.
      cbn [variables chunks omap list_omap concat]. by rewrite <- app_assoc.
    + assert (Hsettled : onSettled decode receive k σ = σ).
      { unfold onSettled. by rewrite Hidle. }
      rewrite Hsettled. by apply IH.
Qed.

End Handler.

(** With a [receive] that is only watched, and a [try] block that reads
    no variable: the values [receive] has been called with when the
    contents of a stream are handed over in turn. *)
Lemma handOverAll_watched {V : Type} (decode : t → option V) (calls : list V)
    (contents : list t) :
  handOverAll (λ _ : list V, decode) (λ data calls, calls ++ [data]) calls contents
  = calls ++ omap decode contents.
Proof.
  revert calls. induction contents as [|content contents IH]; intros calls.
  - by rewrite app_nil_r.
  - change (handOverAll ?d ?r calls (content :: contents))
      with (handOverAll d r (handOver d r calls content) contents).
    rewrite IH. unfold handOver. cbn [omap list_omap].
    destruct (decode content) as [data|]; [|done].
    by rewrite <- app_assoc.
Qed.

(** One byte at a time, each run of the handler going on before the next
    byte arrives. *)
Definition byteByByte (bytes : t) : list event :=
  flat_map (λ b, [Data [b]; Settled 0]) bytes.

End HandlerFacts.

Module TCPNetworkFacts.
Import Buffer Reader FramingFacts HandlerFacts.

Section WithJSON.
Context `{!JSON}.

Lemma send_frame (data : json) :
  TCPNetwork.send data = frame (list_byte_of_string (JSON_stringify data)).
Proof. reflexivity. Qed.

(** A value that survives [JSON.parse(JSON.stringify(_))] and whose text
    is not empty, as no text of [JSON.stringify] is. *)
Definition faithful (data : json) : Prop :=
  JSON_parse (JSON_stringify data) = Some data ∧ JSON_stringify data ≠ ""%string.

Lemma faithful_body (data : json) :
  faithful data →
  0 < length (list_byte_of_string (JSON_stringify data))
  ∧ TCPNetwork.parse (list_byte_of_string (JSON_stringify data)) = Some data.
Proof.
  intros [Hparse Htext]. split.
  - destruct (list_byte_of_string (JSON_stringify data)) as [|b bs] eqn:Hbytes;
      [|simpl; lia].
    exfalso. apply Htext. rewrite <- (string_of_list_byte_of_string (JSON_stringify data)).
    by rewrite Hbytes.
  - unfold TCPNetwork.parse. by rewrite string_of_list_byte_of_string.
Qed.

Lemma omap_parse_stream (datas : list json) :
  Forall faithful datas →
  omap TCPNetwork.parse
    (List.filter nonEmpty (map (λ d, list_byte_of_string (JSON_stringify d)) datas))
  = datas.
Proof.
  induction 1 as [|data datas Hdata _ IH]; [done|].
  destruct (faithful_body data Hdata) as [Hbody Hparse].
  rewrite map_cons. cbn [List.filter]. unfold nonEmpty at 1.
  replace (0 <? length (list_byte_of_string (JSON_stringify data))) with true
    by (symmetry; by apply Nat.ltb_lt).
  cbn [omap list_omap]. by rewrite Hparse, IH.
Qed.

Lemma stream_send (datas : list json) :
  concat (map TCPNetwork.send datas)
  = stream (map (λ d, list_byte_of_string (JSON_stringify d)) datas).
Proof. unfold stream. by rewrite map_map. Qed.

(** The round trip, when [receive] has settled before the next chunk
    arrives: what the writer sends is what the receiver is called with,
    however the bytes are cut into chunks. *)
Lemma send_receive (datas : list json) (events : list event) :
  Forall faithful datas →
  concat (chunks events) = concat (map TCPNetwork.send datas) →
  undisturbed (λ _, TCPNetwork.parse) (λ data calls, calls ++ [data]) events
    TCPNetwork.setReceiver = true →
  waiting (TCPNetwork.on events TCPNetwork.setReceiver) = [] →
  TCPNetwork.receiveCalls events = datas.
Proof.
  intros Hdatas Hcut Hquiet Hidle.
  destruct (undisturbed_run _ _ [] events Hquiet Hidle) as [Hcalls _].
  unfold TCPNetwork.receiveCalls, TCPNetwork.on, TCPNetwork.setReceiver.
  rewrite Hcalls, Hcut, stream_send, scanAll_stream. cbn [fst].
  rewrite handOverAll_watched. by rewrite omap_parse_stream.
Qed.

(** While the first run of the handler waits, nothing that settles
    brings back the frame that was cut. *)
Lemma settles_after_cut (first : json) (digits : t) (settles : list nat)
    (c : TCPNetwork.connection) :
  Forall (λ b, b ≠ x00) digits →
  variables c = [first] →
  waiting c = [digits] ∨ waiting c = [] →
  variables (TCPNetwork.on (map Settled settles) c) = [first].
Proof.
  intros Hdigits. revert c.
  induction settles as [|k settles IH]; intros c Hcalls Hwaiting; [done|].
  unfold TCPNetwork.on. cbn [map run foldl step].
  fold (run (λ _ : list json, TCPNetwork.parse) (λ data calls, calls ++ [data])
          (map Settled settles)).
  set (c' := onSettled _ _ k c).
  assert (Hstep : variables c' = [first] ∧ (waiting c' = [digits] ∨ waiting c' = [])).
  { assert (Hk : waiting c !! k = None ∨ (k = 0 ∧ waiting c = [digits])).
    { destruct Hwaiting as [Hw|Hw]; rewrite Hw.
      - destruct k as [|k]; [by right|left; by destruct k].
      - left. by destruct k. }
    unfold c', onSettled. destruct Hk as [Hk|[-> Hw]].
    - by rewrite Hk.
    - rewrite Hw. cbn [lookup list_lookup].
      rewrite loop_stuck by (by apply frameAt_no_zero). cbn. split; [done|by right]. }
  destruct Hstep as [Hcalls' Hwaiting']. by apply IH.
Qed.

(** C4: the round trip fails for a chunk that arrives while [receive] is
    awaited.  Two values are written.  The first chunk ends after the
    length of the second frame; its run calls [receive] with the first
    value and waits.  The second chunk, the rest of the second frame,
    starts a run from the [lastBuffer] of that moment, which is empty:
    the run finds a zero byte where a length should be and stores the
    chunk.  Whenever the first run goes on, it stores the length it
    held.  [receive] is never called with the second value, whatever
    settles later. *)
Theorem frame_lost_while_receive_pending (first second : json) (settles : list nat) :
  faithful first →
  let body := list_byte_of_string (JSON_stringify second) in
  let chunk1 := TCPNetwork.send first ++ of_nat (length body) in
  let chunk2 := x00 :: body in
  chunk1 ++ chunk2 = concat (map TCPNetwork.send [first; second])
  ∧ TCPNetwork.receiveCalls (Data chunk1 :: Data chunk2 :: map Settled settles)
    = [first].
Proof.
  intros Hfirst body chunk1 chunk2.
  destruct (faithful_body first Hfirst) as [Hbody Hparse].
  split.
  { unfold chunk1, chunk2, body, TCPNetwork.send. simpl.
    by rewrite app_nil_r, <- !app_assoc. }
  unfold TCPNetwork.receiveCalls, TCPNetwork.on, TCPNetwork.setReceiver.
  cbn [run foldl step].
  assert (H1 : onData (λ _ : list json, TCPNetwork.parse) (λ data calls, calls ++ [data])
                 chunk1 (fresh [])
               = State [first] [] [of_nat (length body)]).
  { unfold onData, fresh. cbn [lastBuffer variables waiting app].
    unfold chunk1. rewrite send_frame.
    by rewrite (loop_frame _ _ [] _ _ first Hbody Hparse). }
  rewrite H1.
  assert (H2 : onData (λ _ : list json, TCPNetwork.parse) (λ data calls, calls ++ [data])
                 chunk2 (State [first] [] [of_nat (length body)])
               = State [first] chunk2 [of_nat (length body)]).
  { unfold onData. cbn [lastBuffer variables waiting app].
    by rewrite loop_stuck by apply frameAt_zero. }
  rewrite H2.
  apply (settles_after_cut first (of_nat (length body)) settles);
    [apply of_nat_no_zero|done|by left].
Qed.

End WithJSON.

(** The values ["hi"] and ["yo"]: the chunks ["2"; 0; "h"; "i"; "2"] and
    [0; "y"; "o"], then the first run goes on. *)
Lemma frame_lost_while_receive_pending_witness :
  faithful (H := toyJSON) (JStr "hi")
  ∧ TCPNetwork.receiveCalls (H := toyJSON)
      [Data [x32; x00; x68; x69; x32]; Data [x00; x79; x6f]; Settled 0]
    = [JStr "hi"].
Proof.
  assert (Hfirst : faithful (H := toyJSON) (JStr "hi")) by (by split).
  split; [exact Hfirst|].
  by destruct (frame_lost_while_receive_pending (H := toyJSON) (JStr "hi") (JStr "yo") [0]
                 Hfirst) as [_ Hcalls].
Defined.

End TCPNetworkFacts.

(** ** RSA chunking *)

Module EncryptedRSAFacts.
Import Buffer FramingFacts EncryptedRSA.

(** A stand-in for the RSA primitives, used where an example needs one:
    a ciphertext is the plaintext behind a marker byte. *)
Definition toyRSA : RSA := {|
  publicEncrypt := λ _ _ portion, Some (x01 :: portion);
  privateDecrypt := λ _ portion, Some (drop 1 portion)
|}.

Section WithRSA.
Context `{!JSON} `{!RSA}.

(** [publicKey] and [privateKey] belong together and the key is large
    enough for portions of [portionSize] bytes: every such portion is
    encrypted, to a ciphertext that is not empty and that decrypts to the
    portion. *)
Definition keyPair (publicKey privateKey : Buffer.t) (portionSize : nat) : Prop :=
  ∀ (seed portion : Buffer.t),
    0 < length portion ≤ portionSize →
    ∃ encryptedPortion,
      publicEncrypt publicKey seed portion = Some encryptedPortion
      ∧ 0 < length encryptedPortion
      ∧ privateDecrypt privateKey encryptedPortion = Some portion.

Lemma decryptRSA_loop_fuel (privateKey : Buffer.t) (f1 f2 : nat) (rest : t) :
  length rest ≤ f1 → length rest ≤ f2 →
  decryptRSA_loop f1 privateKey rest = decryptRSA_loop f2 privateKey rest.
Proof.
  revert f2 rest. induction f1 as [|f1 IH]; intros f2 rest H1 H2.
  - destruct rest; [|simpl in H1; lia]. by destruct f2.
  - destruct f2 as [|f2].
    { destruct rest; [done|simpl in H2; lia]. }
    simpl. destruct (0 <? length rest) eqn:Hlen; [|done].
    destruct (findIndex_zero rest) as [portionSizeEnd|] eqn:Hidx; [|done].
    destruct (0 <? portionSizeEnd); [|done].
    destruct (to_number _) as [portionSize|]; [|done].
    destruct (0 <? portionSize) eqn:Hpos; [|done].
    destruct (privateDecrypt _ _); [|done].
    apply Nat.ltb_lt in Hlen.
    rewrite (IH f2); [done| |]; unfold subarray_from; rewrite length_drop; lia.
Qed.

(** One length-prefixed ciphertext portion at the head of [rest]. *)
Lemma decryptRSA_loop_frame (privateKey : Buffer.t) (fuel : nat)
    (encryptedPortion portion rest : t) :
  0 < length encryptedPortion →
  privateDecrypt privateKey encryptedPortion = Some portion →
  length rest ≤ fuel →
  decryptRSA_loop (S fuel) privateKey (frame encryptedPortion ++ rest) =
    match decryptRSA_loop fuel privateKey rest with
    | Returns decryptedPortions => Returns (portion :: decryptedPortions)
    | Throws e => Throws e
    | Diverges => Diverges
    end.
Proof.
  intros Hc Hdec Hfuel. unfold frame.
  pose proof (of_nat_length (length encryptedPortion)) as Hpos.
  set (pre := of_nat (length encryptedPortion)) in *.
  simpl decryptRSA_loop.
  replace (0 <? length ((pre ++ x00 :: encryptedPortion) ++ rest)) with true
    by (symmetry; apply Nat.ltb_lt; rewrite !length_app; simpl; lia).
  rewrite <- app_assoc. simpl app.
  rewrite findIndex_zero_app by apply of_nat_no_zero.
  replace (0 <? length pre) with true by (symmetry; apply Nat.ltb_lt; lia).
  assert (Hpre : subarray 0 (length pre) (pre ++ x00 :: encryptedPortion ++ rest) = pre).
  { unfold subarray. rewrite Nat.sub_0_r, drop_0. by rewrite take_app_length. }
  rewrite Hpre. unfold pre at 1. rewrite to_number_of_nat. fold pre.
  replace (0 <? length encryptedPortion) with true
    by (symmetry; apply Nat.ltb_lt; lia).
  assert (Hcontent :
    subarray (length pre + 1) (length pre + 1 + length encryptedPortion)
      (pre ++ x00 :: encryptedPortion ++ rest) = encryptedPortion).
  { unfold subarray.
    replace (length pre + 1 + length encryptedPortion - (length pre + 1))
      with (length encryptedPortion) by lia.
    replace (pre ++ x00 :: encryptedPortion ++ rest)
      with ((pre ++ [x00]) ++ encryptedPortion ++ rest)
      by (by rewrite <- app_assoc).
    replace (length pre + 1) with (length (pre ++ [x00]))
      by (rewrite length_app; simpl; lia).
    rewrite drop_app_length. by rewrite take_app_length. }
  assert (Hrest :
    subarray_from (length pre + 1 + length encryptedPortion)
      (pre ++ x00 :: encryptedPortion ++ rest) = rest).
  { unfold subarray_from.
    replace (pre ++ x00 :: encryptedPortion ++ rest)
      with ((pre ++ x00 :: encryptedPortion) ++ rest)
      by (rewrite <- app_assoc; done).
    replace (length pre + 1 + length encryptedPortion)
      with (length (pre ++ x00 :: encryptedPortion))
      by (rewrite length_app; simpl; lia).
    by rewrite drop_app_length. }
  by rewrite Hcontent, Hrest, Hdec.
Qed.

(** The two loops, one against the other, from any [start]. *)
Lemma roundtrip_from (publicKey privateKey : Buffer.t) (portionSize : nat)
    (buffer : t) (seeds : nat → Buffer.t) (fuel k start : nat) :
  0 < portionSize →
  keyPair publicKey privateKey portionSize →
  length buffer - start ≤ fuel →
  ∃ encrypted decryptedPortions,
    encryptRSA_from fuel publicKey portionSize buffer seeds k start = Returns encrypted
    ∧ decryptRSA_loop (length (concat encrypted)) privateKey (concat encrypted)
      = Returns decryptedPortions
    ∧ concat decryptedPortions = drop start buffer.
Proof.
  intros Hsize Hkeys. revert k start.
  induction fuel as [|fuel IH]; intros k start Hfuel.
  - exists [], []. simpl.
    replace (start <? length buffer) with false
      by (symmetry; apply Nat.ltb_ge; lia).
    repeat split. symmetry. apply drop_ge. lia.
  - simpl. destruct (start <? length buffer) eqn:Hlt.
    2:{ apply Nat.ltb_ge in Hlt. exists [], []. repeat split.
        symmetry. by apply drop_ge. }
    apply Nat.ltb_lt in Hlt.
    set (stop := if length buffer <? start + portionSize then length buffer
                 else start + portionSize).
    set (portion := subarray start stop buffer).
    assert (Hstop : start < stop ≤ length buffer ∧ stop ≤ start + portionSize).
    { unfold stop. destruct (length buffer <? start + portionSize) eqn:E;
        [apply Nat.ltb_lt in E|apply Nat.ltb_ge in E]; lia. }
    assert (Hportion : length portion = stop - start).
    { unfold portion, subarray. rewrite length_take, length_drop. lia. }
    destruct (Hkeys (seeds k) portion) as (c & -> & Hc & Hdec);
      [rewrite Hportion; lia|].
    destruct (IH (S k) (start + portionSize)) as (encrypted & ps & -> & Hloop & Hcat);
      [lia|].
    eexists _, (portion :: ps). split; [done|].
    assert (Hshape : concat (of_nat (length c) :: [x00] :: c :: encrypted)
                     = frame c ++ concat encrypted).
    { unfold frame. simpl. by rewrite <- app_assoc. }
    rewrite Hshape. split.
    + assert (Hlen : length (frame c ++ concat encrypted)
                     = S (length (of_nat (length c)) + length c
                          + length (concat encrypted))).
      { unfold frame. rewrite !length_app. simpl. lia. }
      rewrite Hlen, (decryptRSA_loop_frame _ _ c portion) by (done || lia).
      rewrite (decryptRSA_loop_fuel _ _ (length (concat encrypted))) by lia.
      by rewrite Hloop.
    + simpl. rewrite Hcat. unfold portion, subarray.
      destruct (decide (start + portionSize ≤ length buffer)) as [Hin|Hout].
      * replace stop with (start + portionSize)
          by (unfold stop; destruct (length buffer <? start + portionSize) eqn:E;
              [apply Nat.ltb_lt in E; lia|done]).
        replace (start + portionSize - start) with portionSize by lia.
        rewrite <- drop_drop. apply take_drop.
      * rewrite (drop_ge buffer (start + portionSize)) by lia.
        replace stop with (length buffer)
          by (unfold stop; destruct (length buffer <? start + portionSize) eqn:E;
              [done|apply Nat.ltb_ge in E; lia]).
        rewrite app_nil_r. apply take_ge. rewrite length_drop. lia.
Qed.

(** C7.  For every value [x] that survives [JSON.parse(JSON.stringify(_))],
    every matching key pair that can encrypt portions of [portionSize]
    bytes, and every positive [portionSize] (the transport uses
    [2048/8 - 45 = 211]): [encryptRSA] returns, and [decryptRSA] of its
    result returns [x].  The plaintext is cut into portions, each portion
    encrypted and prefixed with its decimal length and a zero byte;
    decryption parses the prefixes, decrypts and concatenates. *)
Theorem decryptRSA_encryptRSA (publicKey privateKey : Buffer.t) (portionSize : nat)
    (x : json) (seeds : nat → Buffer.t) :
  0 < portionSize →
  keyPair publicKey privateKey portionSize →
  JSON_parse (JSON_stringify x) = Some x →
  ∃ encrypted,
    encryptRSA publicKey portionSize x seeds = Returns encrypted
    ∧ decryptRSA privateKey encrypted = Returns x.
Proof.
  intros Hsize Hkeys Hjson. unfold encryptRSA, decryptRSA.
  set (buffer := list_byte_of_string (JSON_stringify x)).
  destruct (roundtrip_from publicKey privateKey portionSize buffer seeds
              (length buffer) 0 0 Hsize Hkeys) as (encrypted & ps & -> & Hloop & Hcat);
    [lia|].
  exists (concat encrypted). split; [done|].
  rewrite Hloop, Hcat, drop_0. unfold buffer.
  by rewrite string_of_list_byte_of_string, Hjson.
Qed.

End WithRSA.

(** The portion size of the transport. *)
Lemma rsaPortionSize_value : rsaPortionSize = 211.
Proof. reflexivity. Qed.

(** The text ["hello"], cut into portions of two bytes, under the stand-in
    codec and cipher. *)
Lemma decryptRSA_encryptRSA_witness :
  ∃ encrypted,
    encryptRSA (H := toyJSON) (H0 := toyRSA) [] 2 (JStr "hello") (λ _, [])
      = Returns encrypted
    ∧ decryptRSA (H := toyJSON) (H0 := toyRSA) [] encrypted = Returns (JStr "hello").
Proof.
  apply (decryptRSA_encryptRSA (H := toyJSON) (H0 := toyRSA)).
  - lia.
  - intros seed portion Hlen. exists (x01 :: portion).
    repeat split. simpl. lia.
  - reflexivity.
Defined.

End EncryptedRSAFacts.

(** ** Reliable broadcast *)

Module ReliableFacts.
Import ReliableMessageDistributor.

(** A stand-in for the hash, used where an example needs one. *)
Definition toyHash : Hash := {| sha256_base64 := λ s, s |}.

Section WithDistributor.
Context `{!JSON} `{!Hash}.
Variable nodeIDs : list string.

(** The state of a message as [getMessageState] would return it: a message
    not yet in the map has the freshly created state. *)
Definition stateOf (σ : state) (hashedMessage : string) : MessageState :=
  default freshMessageState (messageStates σ !! hashedMessage).

Lemma stateOf_tracked σ h st : messageStates σ !! h = Some st → stateOf σ h = st.
Proof. unfold stateOf. by intros ->. Qed.

Lemma exec_bind {A B} (m : M A) (k : A → M B) σ :
  exec (bind m k) σ = exec (k (eval m σ)) (exec m σ).
Proof. unfold exec, eval, bind. by destruct (m σ). Qed.

Lemma eval_bind {A B} (m : M A) (k : A → M B) σ :
  eval (bind m k) σ = eval (k (eval m σ)) (exec m σ).
Proof. unfold exec, eval, bind. by destruct (m σ). Qed.

Lemma exec_ret {A} (a : A) σ : exec (ret a) σ = σ.
Proof. reflexivity. Qed.

Lemma exec_when (b : bool) (m : M unit) σ :
  exec (when b m) σ = if b then exec m σ else σ.
Proof. by destruct b. Qed.

(** *** What each method does to the map and to the log *)

Lemma get_eval m σ : eval (getMessageState m) σ = stateOf σ (hashMessage m).
Proof.
  unfold eval, getMessageState, stateOf.
  by destruct (messageStates σ !! hashMessage m).
Qed.

Lemma get_stateOf m σ h : stateOf (exec (getMessageState m) σ) h = stateOf σ h.
Proof.
  unfold exec, getMessageState, stateOf.
  destruct (messageStates σ !! hashMessage m) eqn:E; [done|]. simpl.
  destruct (decide (hashMessage m = h)) as [<-|Hne].
  - by rewrite lookup_insert_eq, E.
  - by rewrite lookup_insert_ne.
Qed.

Lemma get_effects m σ : effects (exec (getMessageState m) σ) = effects σ.
Proof.
  unfold exec, getMessageState. by destruct (messageStates σ !! hashMessage m).
Qed.

Lemma get_tracked m σ h :
  is_Some (messageStates σ !! h) →
  is_Some (messageStates (exec (getMessageState m) σ) !! h).
Proof.
  unfold exec, getMessageState. intros Hh.
  destruct (messageStates σ !! hashMessage m) eqn:E; [done|]. simpl.
  destruct (decide (hashMessage m = h)) as [<-|Hne].
  - rewrite lookup_insert_eq. eauto.
  - by rewrite lookup_insert_ne.
Qed.

Lemma put_stateOf m st σ h :
  stateOf (exec (putMessageState m st) σ) h =
    if decide (h = hashMessage m) then st else stateOf σ h.
Proof.
  unfold exec, putMessageState, stateOf. simpl.
  destruct (decide (h = hashMessage m)) as [->|Hne].
  - by rewrite lookup_insert_eq.
  - by rewrite lookup_insert_ne.
Qed.

Lemma put_tracked m st σ h :
  is_Some (messageStates σ !! h) →
  is_Some (messageStates (exec (putMessageState m st) σ) !! h).
Proof.
  unfold exec, putMessageState. simpl. intros Hh.
  destruct (decide (hashMessage m = h)) as [<-|Hne].
  - rewrite lookup_insert_eq. eauto.
  - by rewrite lookup_insert_ne.
Qed.

Lemma send_stateOf topic m σ h :
  stateOf (exec (sendToEveryone nodeIDs topic m) σ) h = stateOf σ h.
Proof. reflexivity. Qed.

Lemma send_effects topic m σ :
  effects (exec (sendToEveryone nodeIDs topic m) σ)
  = effects σ ++ map (λ nodeId, Send nodeId topic m) nodeIDs.
Proof. reflexivity. Qed.

Lemma emit_stateOf e σ h : stateOf (exec (emit e) σ) h = stateOf σ h.
Proof. reflexivity. Qed.

(** A method acts on one message state and appends to the log: its effect
    is a function [f] on that state and a list [out] of new log entries. *)
Definition acts (c : M unit) (m : json) (f : MessageState → MessageState)
    (out : MessageState → list effect) : Prop :=
  ∀ σ,
    (∀ h, stateOf (exec c σ) h =
            if decide (h = hashMessage m) then f (stateOf σ h) else stateOf σ h)
    ∧ effects (exec c σ) = effects σ ++ out (stateOf σ (hashMessage m))
    ∧ (∀ h, is_Some (messageStates σ !! h) → is_Some (messageStates (exec c σ) !! h)).

Definition setEchoSent (st : MessageState) : MessageState :=
  mkMessageState true (wasReadySent st) (wasAccepted st) (echoSenders st) (readySenders st).

Definition setReadySent (st : MessageState) : MessageState :=
  if wasReadySent st then st
  else mkMessageState (wasEchoSent st) true (wasAccepted st) None (readySenders st).

Definition setAccepted (st : MessageState) : MessageState :=
  if wasAccepted st then st
  else mkMessageState (wasEchoSent st) (wasReadySent st) true (echoSenders st) None.

Definition addEcho (senderId : string) (st : MessageState) : MessageState :=
  mkMessageState (wasEchoSent st) (wasReadySent st) (wasAccepted st)
    (SerializedSet.add (JStr senderId) <$> echoSenders st) (readySenders st).

Definition addReady (senderId : string) (st : MessageState) : MessageState :=
  mkMessageState (wasEchoSent st) (wasReadySent st) (wasAccepted st)
    (echoSenders st) (SerializedSet.add (JStr senderId) <$> readySenders st).

Definition toAll (topic : string) (m : json) : list effect :=
  map (λ nodeId, Send nodeId topic m) nodeIDs.

Lemma acts_echoMessage m :
  acts (echoMessage nodeIDs m) m setEchoSent
       (λ st, if wasEchoSent st then [] else toAll "echo" m).
Proof.
  intros σ. unfold echoMessage. rewrite exec_bind, get_eval.
  set (σ1 := exec (getMessageState m) σ).
  assert (H1 : ∀ h, stateOf σ1 h = stateOf σ h) by (intros; apply get_stateOf).
  assert (H2 : effects σ1 = effects σ) by apply get_effects.
  assert (H3 : ∀ h, is_Some (messageStates σ !! h) → is_Some (messageStates σ1 !! h))
    by (intros; by apply get_tracked).
  rewrite exec_when.
  destruct (stateOf σ (hashMessage m)) as [e r a es rs] eqn:Hst. simpl.
  destruct e; simpl.
  - split; [|split]; [|by rewrite H2, app_nil_r|done].
    intros h. rewrite H1. case_decide; [subst h; by rewrite Hst|done].
  - rewrite exec_bind. cbv beta. split; [|split].
    + intros h. rewrite send_stateOf, put_stateOf, H1.
      case_decide; [subst h; by rewrite Hst|done].
    + by rewrite H2.
    + intros h Hh. apply (put_tracked m _ σ1 h), H3, Hh.
Qed.

Lemma acts_readyMessage m :
  acts (readyMessage nodeIDs m) m setReadySent
       (λ st, if wasReadySent st then [] else toAll "ready" m).
Proof.
  intros σ. unfold readyMessage, setReadySent. rewrite exec_bind, get_eval.
  set (σ1 := exec (getMessageState m) σ).
  assert (H1 : ∀ h, stateOf σ1 h = stateOf σ h) by (intros; apply get_stateOf).
  assert (H2 : effects σ1 = effects σ) by apply get_effects.
  assert (H3 : ∀ h, is_Some (messageStates σ !! h) → is_Some (messageStates σ1 !! h))
    by (intros; by apply get_tracked).
  rewrite exec_when.
  destruct (stateOf σ (hashMessage m)) as [e r a es rs] eqn:Hst. simpl.
  destruct r; simpl.
  - split; [|split]; [|by rewrite H2, app_nil_r|done].
    intros h. rewrite H1. case_decide; [subst h; by rewrite Hst|done].
  - rewrite exec_bind. cbv beta. split; [|split].
    + intros h. rewrite send_stateOf, put_stateOf, H1.
      case_decide; [subst h; by rewrite Hst|done].
    + by rewrite H2.
    + intros h Hh. apply (put_tracked m _ σ1 h), H3, Hh.
Qed.

Lemma acts_acceptMessage m :
  acts (acceptMessage m) m setAccepted
       (λ st, if wasAccepted st then []
              else [Deliver (hashMessage m) (getContentOfMessage m)]).
Proof.
  intros σ. unfold acceptMessage, setAccepted. rewrite exec_bind, get_eval.
  set (σ1 := exec (getMessageState m) σ).
  assert (H1 : ∀ h, stateOf σ1 h = stateOf σ h) by (intros; apply get_stateOf).
  assert (H2 : effects σ1 = effects σ) by apply get_effects.
  assert (H3 : ∀ h, is_Some (messageStates σ !! h) → is_Some (messageStates σ1 !! h))
    by (intros; by apply get_tracked).
  rewrite exec_when.
  destruct (stateOf σ (hashMessage m)) as [e r a es rs] eqn:Hst. simpl.
  destruct a; simpl.
  - split; [|split]; [|by rewrite H2, app_nil_r|done].
    intros h. rewrite H1. case_decide; [subst h; by rewrite Hst|done].
  - rewrite exec_bind. cbv beta. split; [|split].
    + intros h. rewrite emit_stateOf, put_stateOf, H1.
      case_decide; [subst h; by rewrite Hst|done].
    + by rewrite H2.
    + intros h Hh. apply (put_tracked m _ σ1 h), H3, Hh.
Qed.

Lemma acts_registerEchoMessage senderId m :
  acts (registerEchoMessage senderId m) m (addEcho senderId) (λ _, []).
Proof.
  intros σ. unfold registerEchoMessage, addEcho. rewrite exec_bind, get_eval.
  set (σ1 := exec (getMessageState m) σ).
  assert (H1 : ∀ h, stateOf σ1 h = stateOf σ h) by (intros; apply get_stateOf).
  assert (H2 : effects σ1 = effects σ) by apply get_effects.
  assert (H3 : ∀ h, is_Some (messageStates σ !! h) → is_Some (messageStates σ1 !! h))
    by (intros; by apply get_tracked).
  destruct (stateOf σ (hashMessage m)) as [e r a es rs] eqn:Hst. simpl.
  destruct es as [senders|]; simpl.
  - split; [|split].
    + intros h. rewrite put_stateOf, H1.
      case_decide; [subst h; by rewrite Hst|done].
    + cbn [effects exec putMessageState snd]. by rewrite H2, app_nil_r.
    + intros h Hh. apply put_tracked, H3, Hh.
  - split; [|split]; [|by rewrite exec_ret, H2, app_nil_r|by rewrite exec_ret].
    intros h. rewrite exec_ret, H1. case_decide; [subst h; by rewrite Hst|done].
Qed.

Lemma acts_registerReadyMessage senderId m :
  acts (registerReadyMessage senderId m) m (addReady senderId) (λ _, []).
Proof.
  intros σ. unfold registerReadyMessage, addReady. rewrite exec_bind, get_eval.
  set (σ1 := exec (getMessageState m) σ).
  assert (H1 : ∀ h, stateOf σ1 h = stateOf σ h) by (intros; apply get_stateOf).
  assert (H2 : effects σ1 = effects σ) by apply get_effects.
  assert (H3 : ∀ h, is_Some (messageStates σ !! h) → is_Some (messageStates σ1 !! h))
    by (intros; by apply get_tracked).
  destruct (stateOf σ (hashMessage m)) as [e r a es rs] eqn:Hst. simpl.
  destruct rs as [senders|]; simpl.
  - split; [|split].
    + intros h. rewrite put_stateOf, H1.
      case_decide; [subst h; by rewrite Hst|done].
    + cbn [effects exec putMessageState snd]. by rewrite H2, app_nil_r.
    + intros h Hh. apply put_tracked, H3, Hh.
  - split; [|split]; [|by rewrite exec_ret, H2, app_nil_r|by rewrite exec_ret].
    intros h. rewrite exec_ret, H1. case_decide; [subst h; by rewrite Hst|done].
Qed.

(** The two checks only read, apart from creating the state object. *)
Lemma isMessageReady_eval m σ :
  eval (isMessageReady nodeIDs m) σ = readyTest nodeIDs (stateOf σ (hashMessage m)).
Proof. unfold isMessageReady. by rewrite eval_bind, get_eval. Qed.

Lemma isMessageAccepted_eval m σ :
  eval (isMessageAccepted nodeIDs m) σ = acceptedTest nodeIDs (stateOf σ (hashMessage m)).
Proof. unfold isMessageAccepted. by rewrite eval_bind, get_eval. Qed.

Lemma isMessageReady_exec m σ :
  exec (isMessageReady nodeIDs m) σ = exec (getMessageState m) σ.
Proof. unfold isMessageReady. by rewrite exec_bind. Qed.

Lemma isMessageAccepted_exec m σ :
  exec (isMessageAccepted nodeIDs m) σ = exec (getMessageState m) σ.
Proof. unfold isMessageAccepted. by rewrite exec_bind. Qed.

(** *** Counting log entries *)

Lemma sentCount_app topic h id l l' :
  sentCount topic h id (l ++ l') = sentCount topic h id l + sentCount topic h id l'.
Proof. unfold sentCount. by rewrite List.filter_app, length_app. Qed.

Lemma deliverCount_app h l l' :
  deliverCount h (l ++ l') = deliverCount h l + deliverCount h l'.
Proof. unfold deliverCount. by rewrite List.filter_app, length_app. Qed.

Lemma deliverCount_toAll h topic m : deliverCount h (toAll topic m) = 0.
Proof. unfold toAll. by induction nodeIDs. Qed.

Lemma sentCount_cons topic h id x topic' m l :
  sentCount topic h id (Send x topic' m :: l) =
    Nat.b2n (String.eqb x id && String.eqb topic' topic && String.eqb (hashMessage m) h)
    + sentCount topic h id l.
Proof. unfold sentCount. simpl. by destruct (_ && _). Qed.

Lemma sentCount_sends topic topic' h id m (l : list string) :
  NoDup l →
  sentCount topic h id (map (λ nodeId, Send nodeId topic' m) l) =
    Nat.b2n (bool_decide (id ∈ l) && String.eqb topic' topic
             && String.eqb (hashMessage m) h).
Proof.
  induction 1 as [|x l Hx Hl IH]; [done|].
  rewrite map_cons, sentCount_cons, IH.
  destruct (String.eqb_spec x id) as [->|Hne].
  - rewrite (bool_decide_eq_true_2 (id ∈ id :: l)) by left.
    rewrite (bool_decide_eq_false_2 (id ∈ l)) by done. simpl. lia.
  - destruct (decide (id ∈ l)) as [Hin|Hout].
    + rewrite (bool_decide_eq_true_2 (id ∈ x :: l)) by (by right).
      by rewrite (bool_decide_eq_true_2 (id ∈ l)).
    + rewrite (bool_decide_eq_false_2 (id ∈ x :: l))
        by (intros [->|?]%elem_of_cons; done).
      by rewrite (bool_decide_eq_false_2 (id ∈ l)).
Qed.

Lemma sentCount_toAll topic topic' h id m :
  NoDup nodeIDs → id ∈ nodeIDs →
  sentCount topic h id (toAll topic' m) =
    Nat.b2n (String.eqb topic' topic && String.eqb (hashMessage m) h).
Proof.
  intros Hnd Hin. unfold toAll. rewrite sentCount_sends by done.
  by rewrite bool_decide_eq_true_2.
Qed.

(** *** The invariant of a node *)

(** What holds of one message state, whatever the log. *)
Definition released (st : MessageState) : Prop :=
  (wasReadySent st = true → echoSenders st = None)
  ∧ (wasAccepted st = true → readySenders st = None).

(** The accepted flag of every message state accounts for the log: a
    delivery has been made for exactly the accepted messages. *)
Definition deliveries (σ : state) : Prop :=
  ∀ h,
    released (stateOf σ h)
    ∧ deliverCount h (effects σ) = Nat.b2n (wasAccepted (stateOf σ h)).

(** The echo and ready flags account for the log: every node has been sent
    one echo (ready) for exactly the messages whose echo (ready) flag is
    set. *)
Definition emissions (σ : state) : Prop :=
  ∀ h id, id ∈ nodeIDs →
    sentCount "echo" h id (effects σ) = Nat.b2n (wasEchoSent (stateOf σ h))
    ∧ sentCount "ready" h id (effects σ) = Nat.b2n (wasReadySent (stateOf σ h)).

(** A method whose new log entries are the ones its flag changes call
    for. *)
Definition deliveryAccounted (m : json) (f : MessageState → MessageState)
    (out : MessageState → list effect) : Prop :=
  ∀ st,
    (released st → released (f st))
    ∧ (wasAccepted st = true → wasAccepted (f st) = true)
    ∧ ∀ h, deliverCount h (out st) =
             if decide (h = hashMessage m)
             then Nat.b2n (wasAccepted (f st)) - Nat.b2n (wasAccepted st) else 0.

Definition emissionAccounted (m : json) (f : MessageState → MessageState)
    (out : MessageState → list effect) : Prop :=
  ∀ st,
    (wasEchoSent st = true → wasEchoSent (f st) = true)
    ∧ (wasReadySent st = true → wasReadySent (f st) = true)
    ∧ ∀ h id, id ∈ nodeIDs →
        sentCount "echo" h id (out st) =
          (if decide (h = hashMessage m)
           then Nat.b2n (wasEchoSent (f st)) - Nat.b2n (wasEchoSent st) else 0)
        ∧ sentCount "ready" h id (out st) =
          (if decide (h = hashMessage m)
           then Nat.b2n (wasReadySent (f st)) - Nat.b2n (wasReadySent st) else 0).

Definition preserves {A} (P : state → Prop) (c : M A) : Prop :=
  ∀ σ, P σ → P (exec c σ).

Lemma preserves_bind {A B} P (c : M A) (k : A → M B) :
  preserves P c → (∀ a, preserves P (k a)) → preserves P (bind c k).
Proof. intros Hc Hk σ Hσ. rewrite exec_bind. by apply Hk, Hc. Qed.

Lemma preserves_when P b (c : M unit) : preserves P c → preserves P (when b c).
Proof. intros Hc σ Hσ. rewrite exec_when. destruct b; [by apply Hc|done]. Qed.

Lemma b2n_step (b b' : bool) :
  (b = true → b' = true) → Nat.b2n b + (Nat.b2n b' - Nat.b2n b) = Nat.b2n b'.
Proof. destruct b, b'; simpl; intros Hb; lia. Qed.

Lemma acts_deliveries c m f out :
  acts c m f out → deliveryAccounted m f out → preserves deliveries c.
Proof.
  intros Hacts Hacc σ Hinv h.
  destruct (Hacts σ) as (Hst & Heff & _).
  destruct (Hinv h) as (Hrel & Hdel).
  destruct (Hacc (stateOf σ (hashMessage m))) as (Hrel' & Ha & Hdel').
  rewrite Hst, Heff, deliverCount_app, Hdel, Hdel'.
  destruct (decide (h = hashMessage m)) as [->|Hne].
  - split; [by apply Hrel'|by apply b2n_step].
  - split; [done|lia].
Qed.

Lemma acts_emissions c m f out :
  acts c m f out → emissionAccounted m f out → preserves emissions c.
Proof.
  intros Hacts Hacc σ Hinv h id Hid.
  destruct (Hacts σ) as (Hst & Heff & _).
  destruct (Hinv h id Hid) as [Hecho Hready].
  destruct (Hacc (stateOf σ (hashMessage m))) as (He & Hr & Hsent').
  destruct (Hsent' h id Hid) as [Hecho' Hready'].
  rewrite Hst, Heff, !sentCount_app, Hecho, Hready, Hecho', Hready'.
  destruct (decide (h = hashMessage m)) as [->|Hne].
  - split; by apply b2n_step.
  - lia.
Qed.

(** The state object is created by a look-up; nothing else changes. *)
Lemma get_deliveries m : preserves deliveries (getMessageState m).
Proof. intros σ Hinv h. rewrite get_stateOf, get_effects. apply Hinv. Qed.

Lemma get_emissions m : preserves emissions (getMessageState m).
Proof. intros σ Hinv h id Hid. rewrite get_stateOf, get_effects. by apply Hinv. Qed.

Lemma sentCount_nil topic h id : sentCount topic h id [] = 0.
Proof. reflexivity. Qed.

Lemma deliverCount_one h h' content :
  deliverCount h [Deliver h' content] = Nat.b2n (String.eqb h' h).
Proof. unfold deliverCount. simpl. by destruct (String.eqb h' h). Qed.

Lemma b2n_eqb_decide (h h' : string) :
  Nat.b2n (String.eqb h' h) = if decide (h = h') then 1 else 0.
Proof.
  destruct (String.eqb_spec h' h) as [->|Hne]; simpl.
  - by rewrite decide_True.
  - by rewrite decide_False.
Qed.

Local Ltac by_flags st :=
  destruct st as [[] [] [] [] []]; unfold released; simpl;
  rewrite ?deliverCount_toAll; intuition (done || congruence || lia).

Lemma echoMessage_deliveries m : preserves deliveries (echoMessage nodeIDs m).
Proof.
  apply (acts_deliveries _ _ _ _ (acts_echoMessage m)). intros st.
  split; [by_flags st|]. split; [by_flags st|]. intros h. cbv beta.
  destruct (decide (h = hashMessage m)); by_flags st.
Qed.

Lemma readyMessage_deliveries m : preserves deliveries (readyMessage nodeIDs m).
Proof.
  apply (acts_deliveries _ _ _ _ (acts_readyMessage m)). intros st.
  unfold setReadySent.
  split; [by_flags st|]. split; [by_flags st|]. intros h. cbv beta.
  destruct (decide (h = hashMessage m)); by_flags st.
Qed.

Lemma acceptMessage_deliveries m : preserves deliveries (acceptMessage m).
Proof.
  apply (acts_deliveries _ _ _ _ (acts_acceptMessage m)). intros st.
  unfold setAccepted.
  split; [by_flags st|]. split; [by_flags st|]. intros h. cbv beta.
  destruct st as [e r [] es rs]; simpl.
  - by destruct (decide (h = hashMessage m)).
  - rewrite deliverCount_one, b2n_eqb_decide.
    by destruct (decide (h = hashMessage m)).
Qed.

Lemma registerEchoMessage_deliveries s m :
  preserves deliveries (registerEchoMessage s m).
Proof.
  apply (acts_deliveries _ _ _ _ (acts_registerEchoMessage s m)). intros st.
  unfold addEcho.
  split; [by_flags st|]. split; [by_flags st|]. intros h. cbv beta.
  destruct (decide (h = hashMessage m)); by_flags st.
Qed.

Lemma registerReadyMessage_deliveries s m :
  preserves deliveries (registerReadyMessage s m).
Proof.
  apply (acts_deliveries _ _ _ _ (acts_registerReadyMessage s m)). intros st.
  unfold addReady.
  split; [by_flags st|]. split; [by_flags st|]. intros h. cbv beta.
  destruct (decide (h = hashMessage m)); by_flags st.
Qed.

Lemma broadcast_deliveries uuid message :
  preserves deliveries (broadcast nodeIDs uuid message).
Proof.
  intros σ Hinv h. unfold broadcast.
  rewrite send_stateOf, send_effects, deliverCount_app.
  destruct (Hinv h) as [Hrel Hdel]. split; [done|].
  fold (toAll "initial" (withId uuid message)). rewrite deliverCount_toAll. lia.
Qed.

Lemma isMessageReady_deliveries m : preserves deliveries (isMessageReady nodeIDs m).
Proof. intros σ Hinv. rewrite isMessageReady_exec. by apply get_deliveries. Qed.

Lemma isMessageAccepted_deliveries m : preserves deliveries (isMessageAccepted nodeIDs m).
Proof. intros σ Hinv. rewrite isMessageAccepted_exec. by apply get_deliveries. Qed.

Lemma handle_deliveries e : preserves deliveries (handle nodeIDs e).
Proof.
  destruct e as [uuid message|s m|s m|s m]; simpl.
  - apply broadcast_deliveries.
  - apply preserves_when, echoMessage_deliveries.
  - apply preserves_when, preserves_bind; [apply registerEchoMessage_deliveries|].
    intros _. apply preserves_bind; [apply isMessageReady_deliveries|].
    intros b. apply preserves_when, preserves_bind;
      [apply echoMessage_deliveries|intros _; apply readyMessage_deliveries].
  - apply preserves_when, preserves_bind; [apply registerReadyMessage_deliveries|].
    intros _. apply preserves_bind; [apply isMessageReady_deliveries|].
    intros b. apply preserves_bind.
    { apply preserves_when, preserves_bind;
        [apply echoMessage_deliveries|intros _; apply readyMessage_deliveries]. }
    intros _. apply preserves_bind; [apply isMessageAccepted_deliveries|].
    intros b'. apply preserves_when, acceptMessage_deliveries.
Qed.

Lemma init_deliveries : deliveries init.
Proof. intros h. unfold stateOf, released. simpl. by rewrite lookup_empty. Qed.

Lemma run_preserves P events :
  (∀ e, preserves P (handle nodeIDs e)) → ∀ σ, P σ → P (run nodeIDs events σ).
Proof.
  intros Hstep. induction events as [|e events IH]; intros σ Hσ; [done|].
  simpl. apply IH, Hstep, Hσ.
Qed.

(** *** Emissions: every member is sent one echo and one ready *)

Section Emissions.
Hypothesis nodeIDs_NoDup : NoDup nodeIDs.

Lemma sentCount_toAll_same topic m id :
  id ∈ nodeIDs → sentCount topic (hashMessage m) id (toAll topic m) = 1.
Proof.
  intros Hid. rewrite sentCount_toAll by done. by rewrite !String.eqb_refl.
Qed.

Lemma sentCount_toAll_other_hash topic topic' m h id :
  id ∈ nodeIDs → h ≠ hashMessage m → sentCount topic h id (toAll topic' m) = 0.
Proof.
  intros Hid Hne. rewrite sentCount_toAll by done.
  destruct (String.eqb_spec (hashMessage m) h) as [<-|]; [done|].
  by rewrite andb_false_r.
Qed.

Lemma sentCount_toAll_other_topic topic topic' m h id :
  id ∈ nodeIDs → topic' ≠ topic → sentCount topic h id (toAll topic' m) = 0.
Proof.
  intros Hid Hne. rewrite sentCount_toAll by done.
  by destruct (String.eqb_spec topic' topic).
Qed.

Local Ltac by_counts st :=
  destruct st as [[] [] [] [] []]; simpl;
  rewrite ?sentCount_nil, ?sentCount_toAll_same, ?sentCount_toAll_other_hash,
    ?sentCount_toAll_other_topic by done;
  intuition (done || congruence || lia).

Lemma echoMessage_emissions m : preserves emissions (echoMessage nodeIDs m).
Proof.
  apply (acts_emissions _ _ _ _ (acts_echoMessage m)). intros st.
  split; [by_counts st|]. split; [by_counts st|]. intros h id Hid. cbv beta.
  destruct (decide (h = hashMessage m)) as [->|Hne]; by_counts st.
Qed.

Lemma readyMessage_emissions m : preserves emissions (readyMessage nodeIDs m).
Proof.
  apply (acts_emissions _ _ _ _ (acts_readyMessage m)). intros st.
  unfold setReadySent.
  split; [by_counts st|]. split; [by_counts st|]. intros h id Hid. cbv beta.
  destruct (decide (h = hashMessage m)) as [->|Hne]; by_counts st.
Qed.

Lemma acceptMessage_emissions m : preserves emissions (acceptMessage m).
Proof.
  apply (acts_emissions _ _ _ _ (acts_acceptMessage m)). intros st.
  unfold setAccepted.
  split; [by_counts st|]. split; [by_counts st|]. intros h id Hid. cbv beta.
  destruct (decide (h = hashMessage m)) as [->|Hne]; by_counts st.
Qed.

Lemma registerEchoMessage_emissions s m :
  preserves emissions (registerEchoMessage s m).
Proof.
  apply (acts_emissions _ _ _ _ (acts_registerEchoMessage s m)). intros st.
  unfold addEcho.
  split; [by_counts st|]. split; [by_counts st|]. intros h id Hid. cbv beta.
  destruct (decide (h = hashMessage m)) as [->|Hne]; by_counts st.
Qed.

Lemma registerReadyMessage_emissions s m :
  preserves emissions (registerReadyMessage s m).
Proof.
  apply (acts_emissions _ _ _ _ (acts_registerReadyMessage s m)). intros st.
  unfold addReady.
  split; [by_counts st|]. split; [by_counts st|]. intros h id Hid. cbv beta.
  destruct (decide (h = hashMessage m)) as [->|Hne]; by_counts st.
Qed.

Lemma broadcast_emissions uuid message :
  preserves emissions (broadcast nodeIDs uuid message).
Proof.
  intros σ Hinv h id Hid. unfold broadcast.
  rewrite send_stateOf, send_effects, !sentCount_app.
  destruct (Hinv h id Hid) as [-> ->].
  fold (toAll "initial" (withId uuid message)).
  rewrite !sentCount_toAll_other_topic by done. lia.
Qed.

Lemma isMessageReady_emissions m : preserves emissions (isMessageReady nodeIDs m).
Proof. intros σ Hinv. rewrite isMessageReady_exec. by apply get_emissions. Qed.

Lemma isMessageAccepted_emissions m : preserves emissions (isMessageAccepted nodeIDs m).
Proof. intros σ Hinv. rewrite isMessageAccepted_exec. by apply get_emissions. Qed.

Lemma handle_emissions e : preserves emissions (handle nodeIDs e).
Proof.
  destruct e as [uuid message|s m|s m|s m]; simpl.
  - apply broadcast_emissions.
  - apply preserves_when, echoMessage_emissions.
  - apply preserves_when, preserves_bind; [apply registerEchoMessage_emissions|].
    intros _. apply preserves_bind; [apply isMessageReady_emissions|].
    intros b. apply preserves_when, preserves_bind;
      [apply echoMessage_emissions|intros _; apply readyMessage_emissions].
  - apply preserves_when, preserves_bind; [apply registerReadyMessage_emissions|].
    intros _. apply preserves_bind; [apply isMessageReady_emissions|].
    intros b. apply preserves_bind.
    { apply preserves_when, preserves_bind;
        [apply echoMessage_emissions|intros _; apply readyMessage_emissions]. }
    intros _. apply preserves_bind; [apply isMessageAccepted_emissions|].
    intros b'. apply preserves_when, acceptMessage_emissions.
Qed.

Lemma init_emissions : emissions init.
Proof. intros h id Hid. unfold stateOf. simpl. by rewrite lookup_empty. Qed.

End Emissions.

(** *** Nothing is taken back *)

(** A sender set may gain members or be released; once released it stays
    released. *)
Definition setGrows (o o' : option SerializedSet.t) : Prop :=
  match o, o' with
  | _, None => True
  | Some senders, Some senders' => senders ⊆ senders'
  | None, Some _ => False
  end.

Definition grows (st st' : MessageState) : Prop :=
  (wasEchoSent st = true → wasEchoSent st' = true)
  ∧ (wasReadySent st = true → wasReadySent st' = true)
  ∧ (wasAccepted st = true → wasAccepted st' = true)
  ∧ setGrows (echoSenders st) (echoSenders st')
  ∧ setGrows (readySenders st) (readySenders st').

Definition extends (σ σ' : state) : Prop :=
  (∀ h, grows (stateOf σ h) (stateOf σ' h))
  ∧ (∀ h, is_Some (messageStates σ !! h) → is_Some (messageStates σ' !! h)).

Lemma setGrows_refl o : setGrows o o.
Proof. destruct o; simpl; [set_solver|done]. Qed.

Lemma setGrows_trans o1 o2 o3 : setGrows o1 o2 → setGrows o2 o3 → setGrows o1 o3.
Proof. destruct o1, o2, o3; simpl; try done. set_solver. Qed.

Lemma grows_refl st : grows st st.
Proof. repeat split; try done; apply setGrows_refl. Qed.

Lemma grows_trans st1 st2 st3 : grows st1 st2 → grows st2 st3 → grows st1 st3.
Proof.
  intros (A1 & B1 & C1 & D1 & E1) (A2 & B2 & C2 & D2 & E2).
  repeat split; eauto using setGrows_trans.
Qed.

Lemma extends_refl σ : extends σ σ.
Proof. split; [intros; apply grows_refl|done]. Qed.

Lemma extends_trans σ1 σ2 σ3 : extends σ1 σ2 → extends σ2 σ3 → extends σ1 σ3.
Proof.
  intros [G1 T1] [G2 T2]. split.
  - intros h. eapply grows_trans; [apply G1|apply G2].
  - intros h Hh. by apply T2, T1.
Qed.

Definition advances {A} (c : M A) : Prop := ∀ σ, extends σ (exec c σ).

Lemma advances_bind {A B} (c : M A) (k : A → M B) :
  advances c → (∀ a, advances (k a)) → advances (bind c k).
Proof.
  intros Hc Hk σ. rewrite exec_bind. eapply extends_trans; [apply Hc|apply Hk].
Qed.

Lemma advances_when b (c : M unit) : advances c → advances (when b c).
Proof. intros Hc σ. rewrite exec_when. destruct b; [apply Hc|apply extends_refl]. Qed.

Lemma acts_advances c m f out :
  acts c m f out → (∀ st, grows st (f st)) → advances c.
Proof.
  intros Hacts Hf σ. destruct (Hacts σ) as (Hst & _ & Htr). split; [|done].
  intros h. rewrite Hst. case_decide; [apply Hf|apply grows_refl].
Qed.

Lemma get_advances m : advances (getMessageState m).
Proof.
  intros σ. split.
  - intros h. rewrite get_stateOf. apply grows_refl.
  - intros h. apply get_tracked.
Qed.

Local Ltac by_grows st :=
  destruct st as [[] [] [] [] []]; unfold grows, SerializedSet.add; simpl;
  repeat split; try done; set_solver.

Lemma handle_advances e : advances (handle nodeIDs e).
Proof.
  assert (He : ∀ m, advances (echoMessage nodeIDs m)).
  { intros m. apply (acts_advances _ _ _ _ (acts_echoMessage m)).
    intros st. by_grows st. }
  assert (Hr : ∀ m, advances (readyMessage nodeIDs m)).
  { intros m. apply (acts_advances _ _ _ _ (acts_readyMessage m)).
    intros st. unfold setReadySent. by_grows st. }
  assert (Ha : ∀ m, advances (acceptMessage m)).
  { intros m. apply (acts_advances _ _ _ _ (acts_acceptMessage m)).
    intros st. unfold setAccepted. by_grows st. }
  assert (Hre : ∀ s m, advances (registerEchoMessage s m)).
  { intros s m. apply (acts_advances _ _ _ _ (acts_registerEchoMessage s m)).
    intros st. unfold addEcho. by_grows st. }
  assert (Hrr : ∀ s m, advances (registerReadyMessage s m)).
  { intros s m. apply (acts_advances _ _ _ _ (acts_registerReadyMessage s m)).
    intros st. unfold addReady. by_grows st. }
  assert (Hir : ∀ m, advances (isMessageReady nodeIDs m)).
  { intros m σ. rewrite isMessageReady_exec. apply get_advances. }
  assert (Hia : ∀ m, advances (isMessageAccepted nodeIDs m)).
  { intros m σ. rewrite isMessageAccepted_exec. apply get_advances. }
  destruct e as [uuid message|s m|s m|s m]; simpl.
  - intros σ. unfold broadcast.
    split; [intros h; rewrite send_stateOf; apply grows_refl|done].
  - apply advances_when, He.
  - apply advances_when, advances_bind; [apply Hre|].
    intros _. apply advances_bind; [apply Hir|].
    intros b. apply advances_when, advances_bind; [apply He|intros _; apply Hr].
  - apply advances_when, advances_bind; [apply Hrr|].
    intros _. apply advances_bind; [apply Hir|].
    intros b. apply advances_bind.
    { apply advances_when, advances_bind; [apply He|intros _; apply Hr]. }
    intros _. apply advances_bind; [apply Hia|].
    intros b'. apply advances_when, Ha.
Qed.

Lemma run_extends events σ : extends σ (run nodeIDs events σ).
Proof.
  revert σ. induction events as [|e events IH]; intros σ; [apply extends_refl|].
  simpl. eapply extends_trans; [apply handle_advances|apply IH].
Qed.

(** *** What a handler adds to the log *)

Lemma elem_of_toAll e topic m : e ∈ toAll topic m → ∃ id, e = Send id topic m.
Proof. unfold toAll. intros (id & -> & _)%list_elem_of_fmap. eauto. Qed.

(** The echo and the ready of [echoMessage; readyMessage]. *)
Definition ownEchoReady (m : json) (st : MessageState) : list effect :=
  (if wasEchoSent st then [] else toAll "echo" m)
  ++ (if wasReadySent st then [] else toAll "ready" m).


Lemma echoReady_acts m :
  acts (bind (echoMessage nodeIDs m) (λ _, readyMessage nodeIDs m)) m
       (λ st, setReadySent (setEchoSent st)) (ownEchoReady m).
Proof.
  intros σ. rewrite exec_bind.
  destruct (acts_echoMessage m σ) as (S1 & E1 & T1).
  destruct (acts_readyMessage m (exec (echoMessage nodeIDs m) σ)) as (S2 & E2 & T2).
  split; [|split].
  - intros h. rewrite S2, S1. by case_decide.
  - rewrite E2, E1, S1, decide_True by done. unfold ownEchoReady.
    by rewrite <- app_assoc.
  - intros h Hh. by apply T2, T1.
Qed.



(** *** Between the awaits

    A handler awaits each method it calls, so handlers of different
    messages may interleave at these points.  The invariants do not depend
    on the handlers running one after the other: they hold after every
    single method, whatever the order in which methods are performed. *)

Inductive method : Type :=
| RegisterEcho (senderId : string) (m : json)
| RegisterReady (senderId : string) (m : json)
| IsReady (m : json)
| IsAccepted (m : json)
| EchoMessage (m : json)
| ReadyMessage (m : json)
| AcceptMessage (m : json)
| SendInitial (uuid : string) (message : json).

Definition perform (c : method) (σ : state) : state :=
  match c with
  | RegisterEcho s m => exec (registerEchoMessage s m) σ
  | RegisterReady s m => exec (registerReadyMessage s m) σ
  | IsReady m => exec (isMessageReady nodeIDs m) σ
  | IsAccepted m => exec (isMessageAccepted nodeIDs m) σ
  | EchoMessage m => exec (echoMessage nodeIDs m) σ
  | ReadyMessage m => exec (readyMessage nodeIDs m) σ
  | AcceptMessage m => exec (acceptMessage m) σ
  | SendInitial uuid message => exec (broadcast nodeIDs uuid message) σ
  end.

Lemma methods_deliveries (cs : list method) :
  deliveries (foldl (λ σ c, perform c σ) init cs).
Proof.
  induction cs as [|c cs IH] using rev_ind; [apply init_deliveries|].
  rewrite foldl_app. simpl. destruct c; simpl.
  - by apply registerEchoMessage_deliveries.
  - by apply registerReadyMessage_deliveries.
  - by apply isMessageReady_deliveries.
  - by apply isMessageAccepted_deliveries.
  - by apply echoMessage_deliveries.
  - by apply readyMessage_deliveries.
  - by apply acceptMessage_deliveries.
  - by apply broadcast_deliveries.
Qed.

Lemma methods_emissions (cs : list method) :
  NoDup nodeIDs → emissions (foldl (λ σ c, perform c σ) init cs).
Proof.
  intros Hnd.
  induction cs as [|c cs IH] using rev_ind; [apply init_emissions|].
  rewrite foldl_app. simpl. destruct c; simpl.
  - by apply registerEchoMessage_emissions.
  - by apply registerReadyMessage_emissions.
  - by apply isMessageReady_emissions.
  - by apply isMessageAccepted_emissions.
  - by apply echoMessage_emissions.
  - by apply readyMessage_emissions.
  - by apply acceptMessage_emissions.
  - by apply broadcast_emissions.
Qed.

(** *** The thresholds *)

Lemma Qltb_lt (x y : Q) : Qltb x y = true ↔ (x < y)%Q.
Proof.
  unfold Qltb. rewrite negb_true_iff. split.
  - intros Hle. apply Qnot_le_lt. intros Hyx.
    apply Qle_bool_iff in Hyx. congruence.
  - intros Hlt. destruct (Qle_bool y x) eqn:Hle; [|done].
    apply Qle_bool_iff in Hle. by apply Qlt_not_le in Hlt.
Qed.

(** [size > a / 2] on the rationals is [a < 2 * size] on the integers. *)
Lemma half_lt (a b : Z) : (inject_Z a / 2 < inject_Z b)%Q ↔ (a < 2 * b)%Z.
Proof.
  unfold Qlt, Qdiv, Qmult, Qinv, inject_Z. simpl. lia.
Qed.


Lemma acceptedTest_spec st :
  acceptedTest nodeIDs st = true ↔
    ∃ senders, readySenders st = Some senders
      ∧ (2 * faultyNodeCount nodeIDs + 1 ≤ Z.of_nat (SerializedSet.size senders))%Z.
Proof.
  unfold acceptedTest. split.
  - destruct (readySenders st) as [senders|]; [|done].
    intros Hr. exists senders. split; [done|]. by apply Z.leb_le.
  - intros (senders & -> & Hr). by apply Z.leb_le.
Qed.


(** C2.  At every state a node reaches by handling events, for every
    tracked message: once [wasReadySent] is set, [echoSenders] is [null];
    once [wasAccepted] is set, [readySenders] is [null] and [deliver] has
    been called exactly once for the message (and not at all before);
    and however the run goes on, the message stays tracked, [wasAccepted]
    stays set, and a sender held by a sender set is still held as long as
    the set exists. *)
Theorem message_state_invariants (events : list event) (h : string) (st : MessageState) :
  let σ := run nodeIDs events init in
  messageStates σ !! h = Some st →
  (wasReadySent st = true → echoSenders st = None)
  ∧ (wasAccepted st = true →
     readySenders st = None ∧ deliverCount h (effects σ) = 1)
  ∧ (wasAccepted st = false → deliverCount h (effects σ) = 0)
  ∧ ∀ more, ∃ st',
      messageStates (run nodeIDs more σ) !! h = Some st'
      ∧ (wasAccepted st = true → wasAccepted st' = true)
      ∧ (∀ senders senders' senderId,
           echoSenders st = Some senders → echoSenders st' = Some senders' →
           SerializedSet.has (JStr senderId) senders = true →
           SerializedSet.has (JStr senderId) senders' = true)
      ∧ (∀ senders senders' senderId,
           readySenders st = Some senders → readySenders st' = Some senders' →
           SerializedSet.has (JStr senderId) senders = true →
           SerializedSet.has (JStr senderId) senders' = true).
Proof.
  intros σ Hst.
  pose proof (run_preserves deliveries events handle_deliveries init init_deliveries h)
    as [[Hecho Hready] Hdel].
  fold σ in Hecho, Hready, Hdel. rewrite (stateOf_tracked _ _ _ Hst) in *.
  split; [done|]. split; [|split].
  - intros Ha. split; [by apply Hready|]. by rewrite Hdel, Ha.
  - intros Ha. by rewrite Hdel, Ha.
  - intros more. destruct (run_extends more σ) as [Hgrows Htracked].
    destruct (Htracked h) as [st' Hst']; [by eexists|].
    exists st'. split; [done|].
    specialize (Hgrows h).
    rewrite (stateOf_tracked _ _ _ Hst), (stateOf_tracked _ _ _ Hst') in Hgrows.
    destruct Hgrows as (_ & _ & Ha & Hes & Hrs).
    split; [done|]. unfold SerializedSet.has.
    split; intros senders senders' senderId E E' Hin;
      rewrite E, E' in *; simpl in *;
      apply bool_decide_eq_true; apply bool_decide_eq_true in Hin; set_solver.
Qed.

(** C3.  The members of the network are the keys of an object, so no id
    occurs twice.  At every state a node reaches by handling events, for
    every tracked message: if [wasEchoSent] is set, every member (the node
    itself included) has been sent exactly one echo of the message, and
    none if it is not set; likewise for [wasReadySent] and ready; and
    calling [echoMessage] or [readyMessage] again adds nothing to the
    log. *)
Theorem emissions_exactly_once (events : list event) (h : string) (st : MessageState) :
  NoDup nodeIDs →
  let σ := run nodeIDs events init in
  messageStates σ !! h = Some st →
  (∀ id, id ∈ nodeIDs →
     sentCount "echo" h id (effects σ) = (if wasEchoSent st then 1 else 0)
     ∧ sentCount "ready" h id (effects σ) = (if wasReadySent st then 1 else 0))
  ∧ (∀ m, hashMessage m = h → wasEchoSent st = true →
       effects (exec (echoMessage nodeIDs m) σ) = effects σ)
  ∧ (∀ m, hashMessage m = h → wasReadySent st = true →
       effects (exec (readyMessage nodeIDs m) σ) = effects σ).
Proof.
  intros Hnd σ Hst.
  pose proof (run_preserves emissions events (handle_emissions Hnd) init
                (init_emissions) h) as Hsent.
  fold σ in Hsent. rewrite (stateOf_tracked _ _ _ Hst) in Hsent.
  split; [|split].
  - intros id Hid. destruct (Hsent id Hid) as [-> ->].
    by destruct (wasEchoSent st), (wasReadySent st).
  - intros m <- He. destruct (acts_echoMessage m σ) as (_ & -> & _).
    by rewrite (stateOf_tracked _ _ _ Hst), He, app_nil_r.
  - intros m <- Hr. destruct (acts_readyMessage m σ) as (_ & -> & _).
    by rewrite (stateOf_tracked _ _ _ Hst), Hr, app_nil_r.
Qed.

End WithDistributor.
(** *** A run of four nodes

    Node [a] of the network [a, b, c, d] ([f = 1]) receives the initial
    message of [a], three echoes and four readies. *)

Definition nodes4 : list string := ["a"; "b"; "c"; "d"]%string.

Definition hello : json := JArr [JStr "u1"; JStr "hello"; JStr "a"].

Definition events4 : list event :=
  [Initial "a" (JArr [JStr "u1"; JStr "hello"]);
   Echo "a" hello; Echo "b" hello; Echo "c" hello;
   Ready "a" hello; Ready "b" hello; Ready "c" hello; Ready "d" hello].

Definition run4 : state := run (H := toyJSON) (H0 := toyHash) nodes4 events4 init.

Definition hello_hash : string := hashMessage (H := toyJSON) (H0 := toyHash) hello.

Example run4_log :
  effects run4 =
    map (λ id, Send id "echo" hello) nodes4
    ++ map (λ id, Send id "ready" hello) nodes4
    ++ [Deliver hello_hash (JStr "hello")].
Proof. vm_compute. reflexivity. Qed.

Example thresholds4 :
  faultyNodeCount nodes4 = 1%Z
  ∧ readyTest nodes4 (mkMessageState false false false (Some {["a"; "b"]}) (Some ∅))
    = false
  ∧ readyTest nodes4 (mkMessageState false false false (Some {["a"; "b"; "c"]}) (Some ∅))
    = true
  ∧ readyTest nodes4 (mkMessageState false false false (Some ∅) (Some {["a"; "b"]}))
    = true
  ∧ acceptedTest nodes4 (mkMessageState false false false None (Some {["a"; "b"]}))
    = false
  ∧ acceptedTest nodes4 (mkMessageState false false false None (Some {["a"; "b"; "c"]}))
    = true.
Proof. vm_compute. repeat split. Qed.

(** A node alone in its network ([n = 1], [f = 0]): its broadcast comes
    back as initial, echo and ready, and is delivered once. *)
Example alone_delivers :
  effects (run (H := toyJSON) (H0 := toyHash) ["a"%string]
             [Broadcast "u1" (JStr "hello");
              Initial "a" (JArr [JStr "u1"; JStr "hello"]);
              Echo "a" hello; Ready "a" hello] init)
  = [Send "a" "initial" (JArr [JStr "u1"; JStr "hello"]);
     Send "a" "echo" hello; Send "a" "ready" hello;
     Deliver hello_hash (JStr "hello")].
Proof. vm_compute. reflexivity. Qed.

Lemma run4_state :
  messageStates run4 !! hello_hash = Some (mkMessageState true true true None None).
Proof. vm_compute. reflexivity. Qed.

Lemma nodes4_NoDup : NoDup nodes4.
Proof. apply (bool_decide_unpack (NoDup nodes4)). vm_compute. exact I. Qed.

Lemma message_state_invariants_witness :
  messageStates run4 !! hello_hash = Some (mkMessageState true true true None None)
  ∧ deliverCount hello_hash (effects run4) = 1.
Proof.
  split; [exact run4_state|].
  destruct (message_state_invariants (H := toyJSON) (H0 := toyHash)
              nodes4 events4 hello_hash _ run4_state) as (_ & Haccepted & _).
  apply Haccepted. reflexivity.
Defined.

Lemma emissions_exactly_once_witness :
  NoDup nodes4
  ∧ messageStates run4 !! hello_hash = Some (mkMessageState true true true None None)
  ∧ sentCount (H := toyJSON) (H0 := toyHash) "echo" hello_hash "d" (effects run4) = 1
  ∧ sentCount (H := toyJSON) (H0 := toyHash) "ready" hello_hash "d" (effects run4) = 1.
Proof.
  split; [exact nodes4_NoDup|]. split; [exact run4_state|].
  destruct (emissions_exactly_once (H := toyJSON) (H0 := toyHash)
              nodes4 events4 hello_hash _ nodes4_NoDup run4_state) as (Hsent & _).
  apply (Hsent "d"%string).
  apply (bool_decide_unpack ("d"%string ∈ nodes4)). vm_compute. exact I.
Defined.

End ReliableFacts.

(** ** Buffering in the encrypted transport *)

Module EncryptedFacts.
Import EncryptedTCPNetwork.

(** The state with more log entries. *)
Definition addLog (es : list io) (σ : state) : state :=
  State (id σ) (publicKeys σ) (connections σ) (connectionKeys σ) (bufferedData σ)
        (receiversByTopic σ) (hasStopped σ) (closures σ) (nextSocket σ) (log σ ++ es).

Lemma addLog_nil σ : addLog [] σ = σ.
Proof. destruct σ. unfold addLog. simpl. by rewrite app_nil_r. Qed.

(** The write that sends one buffered element. *)
Definition aesWrite (socket : nat) (key : connKey) (element : string * json) : io :=
  SocketWrite socket key aes (JArr [JStr element.1; element.2]).

(** A key that the cipher takes passes the test of [sendMessage]. *)
Lemma cipherKey_truthy (key : connKey) : cipherKey key = true → truthy key = true.
Proof.
  unfold cipherKey, truthy. destruct key as [s|b]; [|done].
  destruct s; [done|]. done.
Qed.

(** *** sendMessage *)

Lemma sendMessage_buffers targetId topic message σ :
  targetId ≠ id σ →
  connectionKeys σ !! targetId = None →
  sendMessage targetId topic message σ =
    Returns (setBuffered (<[targetId := buffered σ targetId ++ [(topic, message)]]>
                            (bufferedData σ)) σ).
Proof.
  intros Hid Hkey. unfold sendMessage.
  apply String.eqb_neq in Hid. rewrite Hid, Hkey. simpl.
  by destruct (connections σ !! targetId).
Qed.

Lemma sendMessage_writes targetId topic message σ socket key :
  targetId ≠ id σ →
  connections σ !! targetId = Some socket →
  connectionKeys σ !! targetId = Some key →
  cipherKey key = true →
  sendMessage targetId topic message σ
  = Returns (addLog [aesWrite socket key (topic, message)] σ).
Proof.
  intros Hid Hconn Hkey Hcipher. unfold sendMessage, send.
  apply String.eqb_neq in Hid.
  rewrite Hid, Hconn, Hkey, (cipherKey_truthy key Hcipher), Hcipher. reflexivity.
Qed.

(** Under a key that passes the test of [sendMessage] but that the
    cipher refuses, [sendMessage] throws. *)
Lemma sendMessage_refused targetId topic message σ socket key :
  targetId ≠ id σ →
  connections σ !! targetId = Some socket →
  connectionKeys σ !! targetId = Some key →
  truthy key = true →
  cipherKey key = false →
  sendMessage targetId topic message σ = Throws CryptoError.
Proof.
  intros Hid Hconn Hkey Htruthy Hcipher. unfold sendMessage, send.
  apply String.eqb_neq in Hid. by rewrite Hid, Hconn, Hkey, Htruthy, Hcipher.
Qed.

Lemma buffered_setBuffered σ targetId q p :
  buffered (setBuffered (<[targetId := q]> (bufferedData σ)) σ) p =
    if decide (targetId = p) then q else buffered σ p.
Proof.
  unfold buffered, setBuffered. simpl. case_decide.
  - subst. by rewrite lookup_insert_eq.
  - by rewrite lookup_insert_ne.
Qed.

(** What [sendMessage] leaves alone, and how it moves the queue and the
    log. *)
Lemma sendMessage_frame targetId topic message σ σ' :
  sendMessage targetId topic message σ = Returns σ' →
  id σ' = id σ ∧ connections σ' = connections σ
  ∧ connectionKeys σ' = connectionKeys σ ∧ closures σ' = closures σ
  ∧ (∀ p, buffered σ p `prefix_of` buffered σ' p)
  ∧ log σ `prefix_of` log σ'.
Proof.
  unfold sendMessage, send.
  assert (Hbuf : let σ' := setBuffered
                             (<[targetId := buffered σ targetId ++ [(topic, message)]]>
                                (bufferedData σ)) σ in
    id σ' = id σ ∧ connections σ' = connections σ
    ∧ connectionKeys σ' = connectionKeys σ ∧ closures σ' = closures σ
    ∧ (∀ p, buffered σ p `prefix_of` buffered σ' p)
    ∧ log σ `prefix_of` log σ').
  { cbv zeta. repeat split; try done.
    intros p. rewrite buffered_setBuffered. case_decide; [subst|done].
    by apply prefix_app_r. }
  assert (Hemit : ∀ e, let σ' := emit e σ in
    id σ' = id σ ∧ connections σ' = connections σ
    ∧ connectionKeys σ' = connectionKeys σ ∧ closures σ' = closures σ
    ∧ (∀ p, buffered σ p `prefix_of` buffered σ' p)
    ∧ log σ `prefix_of` log σ').
  { intros e. cbv zeta. repeat split; try done. simpl. by apply prefix_app_r. }
  destruct (negb _).
  - destruct (connections σ !! targetId), (connectionKeys σ !! targetId) as [k|];
      try (intros [= <-]; apply Hbuf).
    destruct (truthy k); [|intros [= <-]; apply Hbuf].
    destruct (cipherKey k); [|done]. intros [= <-]. apply Hemit.
  - intros [= <-]. case_decide; [apply Hemit|]. repeat split; done.
Qed.

(** *** The drain loop *)

Lemma drain_writes (fuel : nat) (p : string) (i : nat) (σ : state) socket key :
  p ≠ id σ →
  connections σ !! p = Some socket →
  connectionKeys σ !! p = Some key →
  cipherKey key = true →
  length (buffered σ p) - i ≤ fuel →
  drain fuel p i σ
  = Returns (addLog (aesWrite socket key <$> drop i (buffered σ p)) σ, None).
Proof.
  revert i σ. induction fuel as [|fuel IH]; intros i σ Hid Hconn Hkey Hcipher Hfuel.
  - simpl. rewrite lookup_ge_None_2 by lia.
    rewrite drop_ge by lia. by rewrite addLog_nil.
  - simpl. destruct (buffered σ p !! i) as [[topic message]|] eqn:Helem.
    + rewrite (sendMessage_writes _ _ _ _ socket key) by done.
      rewrite IH; try done.
      * change (buffered (addLog _ σ) p) with (buffered σ p).
        rewrite (drop_S _ _ _ Helem), fmap_cons.
        do 2 f_equal. unfold addLog. simpl. by rewrite <- app_assoc.
      * change (buffered (addLog _ σ) p) with (buffered σ p). lia.
    + apply lookup_ge_None in Helem. rewrite drop_ge by lia. by rewrite addLog_nil.
Qed.

(** Whatever the key, the loop only appends to the queue and to the log. *)
Lemma drain_frame (fuel : nat) (p : string) (i : nat) (σ σ' : state)
    (e : option error) :
  drain fuel p i σ = Returns (σ', e) →
  id σ' = id σ ∧ connections σ' = connections σ ∧ closures σ' = closures σ
  ∧ (∀ q, buffered σ q `prefix_of` buffered σ' q)
  ∧ log σ `prefix_of` log σ'.
Proof.
  revert i σ. induction fuel as [|fuel IH]; intros i σ; simpl.
  - destruct (buffered σ p !! i) as [[topic message]|]; [done|].
    intros [= <- _]. repeat split; done.
  - destruct (buffered σ p !! i) as [[topic message]|]; [|intros [= <- _]; repeat split; done].
    destruct (sendMessage p topic message σ) as [σ1| |] eqn:Hsend; [| |done].
    + intros Hdrain. apply IH in Hdrain as (I & C & Cl & B & L).
      destruct (sendMessage_frame p topic message σ σ1 Hsend)
        as (I' & C' & _ & Cl' & B' & L').
      rewrite I, C, Cl, I', C', Cl'. repeat split; try done.
      * intros q. etrans; [apply B'|apply B].
      * etrans; [apply L'|apply L].
    + intros [= <- _]. repeat split; done.
Qed.

(** *** Reachable states *)

(** Every receiver installed by [connect] belongs to a peer other than the
    node itself, and that peer has a socket. *)
Definition wellFormed (σ : state) : Prop :=
  ∀ socket c,
    closures σ !! socket = Some c →
    peer c ≠ id σ ∧ is_Some (connections σ !! peer c).

Lemma init_wellFormed ownId : wellFormed (init ownId).
Proof. intros socket c. unfold init. simpl. by rewrite lookup_empty. Qed.

Lemma connect_frame peerId key newNonce σ :
  let σ' := connect peerId key newNonce σ in
  id σ' = id σ
  ∧ (∀ q, buffered σ' q = buffered σ q)
  ∧ log σ `prefix_of` log σ'
  ∧ connectionKeys σ' !! peerId = None
  ∧ (wellFormed σ → peerId ≠ id σ → wellFormed σ').
Proof.
  cbv zeta. unfold connect.
  set (σ1 := setConnectionKeys (delete peerId (connectionKeys σ)) σ).
  set (σ2 := match connections σ1 !! peerId with
             | Some old => emit (SocketEnd old) σ1
             | None => σ1
             end).
  assert (H2 : id σ2 = id σ ∧ bufferedData σ2 = bufferedData σ
               ∧ log σ `prefix_of` log σ2 ∧ closures σ2 = closures σ
               ∧ connections σ2 = connections σ
               ∧ connectionKeys σ2 = delete peerId (connectionKeys σ)).
  { unfold σ2. destruct (connections σ1 !! peerId); simpl; repeat split; try done.
    by apply prefix_app_r. }
  destruct H2 as (I2 & B2 & L2 & Cl2 & C2 & K2).
  simpl. split; [|split; [|split; [|split]]].
  - done.
  - intros q. unfold buffered. simpl. by rewrite B2.
  - etrans; [apply L2|]. by apply prefix_app_r.
  - rewrite K2. apply lookup_delete_eq.
  - intros Hwf Hne socket c. rewrite Cl2, C2, I2. simpl.
    destruct (decide (nextSocket σ2 = socket)) as [<-|Hother].
    + rewrite lookup_insert_eq. intros [= <-]. simpl.
      split; [done|]. rewrite lookup_insert_eq. eauto.
    + rewrite lookup_insert_ne by done. intros Hc.
      destruct (Hwf socket c Hc) as [Hp [s Hs]]. split; [done|].
      destruct (decide (peerId = peer c)) as [->|Hq].
      * rewrite lookup_insert_eq. eauto.
      * rewrite lookup_insert_ne by done. eauto.
Qed.

Lemma stop_frame σ :
  id (stop σ) = id σ ∧ closures (stop σ) = closures σ
  ∧ connections (stop σ) = connections σ
  ∧ bufferedData (stop σ) = bufferedData σ
  ∧ log σ `prefix_of` log (stop σ).
Proof.
  unfold stop. generalize (map_to_list (connections σ)).
  set (σ1 := State _ _ _ _ _ _ true _ _ _).
  assert (H1 : id σ1 = id σ ∧ closures σ1 = closures σ
               ∧ connections σ1 = connections σ
               ∧ bufferedData σ1 = bufferedData σ ∧ log σ `prefix_of` log σ1)
    by done.
  clearbody σ1. revert σ1 H1.
  intros σ1 H1 l. revert σ1 H1.
  induction l as [|kv l IH]; intros σ1 H1; [done|].
  simpl. apply IH. destruct H1 as (I & Cl & C & B & L).
  repeat split; try done. simpl. etrans; [apply L|]. by apply prefix_app_r.
Qed.

(** No operation removes anything from a queue or from the log, and the
    reachable states stay well formed. *)
Lemma frame_refl σ :
  wellFormed σ →
  wellFormed σ ∧ id σ = id σ
  ∧ (∀ q, buffered σ q `prefix_of` buffered σ q) ∧ log σ `prefix_of` log σ.
Proof. intros Hwf. split; [done|]. split; [done|]. split; [intros q|]; done. Qed.

(** The receiver of the handshake reply, whether its promise fulfils or
    rejects. *)
Lemma onHandshakeReply_frame f s r k n (σ σ' : state) (e : option error) :
  wellFormed σ →
  onHandshakeReply f s r k n σ = Returns (σ', e) →
  wellFormed σ'
  ∧ id σ' = id σ
  ∧ (∀ q, buffered σ q `prefix_of` buffered σ' q)
  ∧ log σ `prefix_of` log σ'.
Proof.
  intros Hwf. unfold onHandshakeReply.
  destruct (closures σ !! s) as [c|] eqn:Hc;
    [|intros [= <- _]; by apply frame_refl].
  destruct (Hwf s c Hc) as [Hpeer Hconn].
  destruct (negb (hasKey c)); [|intros [= <- _]; by apply frame_refl].
  destruct (String.eqb r (nonce c)).
  - set (σ1 := setConnectionKeys _ σ).
    set (σ2 := setClosures _ σ1).
    assert (W2 : wellFormed σ2).
    { intros socket c'. simpl.
      destruct (decide (s = socket)) as [<-|Hother].
      - rewrite lookup_insert_eq. by intros [= <-].
      - rewrite lookup_insert_ne by done. apply Hwf. }
    destruct (bufferedData σ2 !! peer c).
    + intros Hdrain. apply drain_frame in Hdrain as (I & C & Cl & B & L).
      split; [|done]. intros socket c'. rewrite Cl, C, I. apply W2.
    + intros [= <- _]. split; [done|]. split; [done|]. split; [intros q|]; done.
  - intros [= <- _].
    destruct (connect_frame (peer c) (peerPublicKey c) n σ) as (I & B & L & _ & W).
    split; [by apply W|]. split; [done|].
    split; [intros q; by rewrite B|done].
Qed.

Lemma step_frame (o : op) (σ σ' : state) :
  wellFormed σ →
  step o σ = Returns σ' →
  wellFormed σ'
  ∧ id σ' = id σ
  ∧ (∀ q, buffered σ q `prefix_of` buffered σ' q)
  ∧ log σ `prefix_of` log σ'.
Proof.
  intros Hwf.
  assert (Hconnect : ∀ p k n σ0,
    wellFormed σ0 → p ≠ id σ0 → id σ0 = id σ →
    (∀ q, buffered σ0 q = buffered σ q) → log σ0 = log σ →
    wellFormed (connect p k n σ0)
    ∧ id (connect p k n σ0) = id σ
    ∧ (∀ q, buffered σ q `prefix_of` buffered (connect p k n σ0) q)
    ∧ log σ `prefix_of` log (connect p k n σ0)).
  { intros p k n σ0 W0 Hp I0 B0 L0.
    destruct (connect_frame p k n σ0) as (I & B & L & _ & W).
    split; [by apply W|]. split; [by rewrite I|].
    split; [intros q; by rewrite B, B0|by rewrite <- L0]. }
  destruct o as [p k n|t|i t m|f s r k n|s n|]; simpl.
  - intros [= <-]. unfold registerNode.
    destruct (negb (String.eqb p (id σ))) eqn:Hp; [|by apply frame_refl].
    apply negb_true_iff, String.eqb_neq in Hp.
    by apply Hconnect.
  - intros [= <-]. split; [done|]. split; [done|]. split; [intros q|]; done.
  - intros Hsend.
    destruct (sendMessage_frame i t m σ σ' Hsend) as (I & C & _ & Cl & B & L).
    split; [|done]. intros socket c. rewrite Cl, C, I. apply Hwf.
  - destruct (onHandshakeReply f s r k n σ) as [[σ1 e]| |] eqn:Hreply; [|done|done].
    intros [= <-]. by apply (onHandshakeReply_frame f s r k n σ σ1 e).
  - intros [= <-]. unfold onSocketDown.
    destruct (closures σ !! s) as [c|] eqn:Hc; [|by apply frame_refl].
    destruct (Hwf s c Hc) as [Hpeer Hconn]. by apply Hconnect.
  - intros [= <-]. destruct (stop_frame σ) as (I & Cl & C & B & L).
    split; [|split; [done|split; [|done]]].
    + intros socket c. rewrite Cl, C, I. apply Hwf.
    + intros q. unfold buffered. by rewrite B.
Qed.

Lemma run_frame (ops : list op) (σ σ' : state) :
  wellFormed σ →
  run ops σ = Returns σ' →
  wellFormed σ'
  ∧ id σ' = id σ
  ∧ (∀ q, buffered σ q `prefix_of` buffered σ' q)
  ∧ log σ `prefix_of` log σ'.
Proof.
  revert σ. induction ops as [|o ops IH]; intros σ Hwf; simpl.
  - intros [= <-]. by apply frame_refl.
  - destruct (step o σ) as [σ1| |] eqn:Hstep; try done.
    destruct (step_frame o σ σ1 Hwf Hstep) as (W1 & I1 & B1 & L1).
    intros Hrun. destruct (IH σ1 W1 Hrun) as (W & I & B & L).
    split; [done|]. split; [by rewrite I|]. split.
    + intros q. etrans; [apply B1|apply B].
    + etrans; [apply L1|apply L].
Qed.

(** *** The handshake reply *)

(** A reply with the right nonce and a key that the cipher takes, on a
    socket that has no key yet: the key is recorded and the whole queue of
    the peer is written, in order; the queue itself stays as it is. *)
Lemma handshake_drains fuel socket c key newNonce σ :
  wellFormed σ →
  closures σ !! socket = Some c →
  hasKey c = false →
  cipherKey (keyOfWire key) = true →
  length (buffered σ (peer c)) ≤ fuel →
  ∃ σ' conn,
    connections σ !! peer c = Some conn
    ∧ onHandshakeReply fuel socket (nonce c) key newNonce σ = Returns (σ', None)
    ∧ connectionKeys σ' !! peer c = Some (keyOfWire key)
    ∧ log σ' = log σ ++ (aesWrite conn (keyOfWire key) <$> buffered σ (peer c))
    ∧ (∀ q, buffered σ' q = buffered σ q).
Proof.
  intros Hwf Hc Hkey Hcipher Hfuel.
  destruct (Hwf socket c Hc) as [Hpeer [conn Hconn]].
  unfold onHandshakeReply. rewrite Hc, Hkey, String.eqb_refl. simpl.
  set (σ1 := setConnectionKeys _ σ). set (σ2 := setClosures _ σ1).
  assert (K2 : connectionKeys σ2 !! peer c = Some (keyOfWire key))
    by (simpl; apply lookup_insert_eq).
  assert (B2 : ∀ q, buffered σ2 q = buffered σ q) by done.
  change (bufferedData σ2) with (bufferedData σ).
  destruct (bufferedData σ !! peer c) as [queue|] eqn:Hqueue.
  - rewrite (drain_writes fuel (peer c) 0 σ2 conn (keyOfWire key)); try done.
    + exists (addLog (aesWrite conn (keyOfWire key) <$> drop 0 (buffered σ2 (peer c))) σ2),
        conn.
      rewrite drop_0, B2.
      split; [done|]. split; [done|]. split; [exact K2|]. split; [done|].
      intros q. apply B2.
    + rewrite B2. lia.
  - exists σ2, conn.
    assert (Hempty : buffered σ (peer c) = []).
    { unfold buffered. by rewrite Hqueue. }
    rewrite Hempty, fmap_nil, app_nil_r.
    split; [done|]. split; [done|]. split; [exact K2|]. split; [done|].
    intros q. apply B2.
Qed.

(** The same reply with a key that passes the test of [sendMessage] but
    that the cipher refuses, when something is queued: the key is
    recorded, the first [sendMessage] of the loop throws, and nothing is
    written. *)
Lemma handshake_refused fuel socket c key newNonce σ :
  wellFormed σ →
  closures σ !! socket = Some c →
  hasKey c = false →
  truthy (keyOfWire key) = true →
  cipherKey (keyOfWire key) = false →
  buffered σ (peer c) ≠ [] →
  ∃ σ',
    onHandshakeReply (S fuel) socket (nonce c) key newNonce σ
    = Returns (σ', Some CryptoError)
    ∧ connectionKeys σ' !! peer c = Some (keyOfWire key)
    ∧ log σ' = log σ.
Proof.
  intros Hwf Hc Hkey Htruthy Hcipher Hqueue.
  destruct (Hwf socket c Hc) as [Hpeer [conn Hconn]].
  unfold onHandshakeReply. rewrite Hc, Hkey, String.eqb_refl. simpl negb. cbv iota.
  set (σ1 := setConnectionKeys _ σ). set (σ2 := setClosures _ σ1).
  assert (K2 : connectionKeys σ2 !! peer c = Some (keyOfWire key))
    by (simpl; apply lookup_insert_eq).
  change (bufferedData σ2) with (bufferedData σ).
  destruct (bufferedData σ !! peer c) as [queue|] eqn:Hq.
  - assert (Hbuf : buffered σ2 (peer c) = queue).
    { unfold buffered. cbn [bufferedData σ2 σ1 setClosures setConnectionKeys].
      by rewrite Hq. }
    assert (Hne : queue ≠ []).
    { intros ->. apply Hqueue. unfold buffered. by rewrite Hq. }
    destruct queue as [|[topic message] queue]; [done|].
    cbn [drain]. rewrite Hbuf. cbn [lookup list_lookup].
    rewrite (sendMessage_refused (peer c) topic message σ2 conn (keyOfWire key));
      try done.
    by exists σ2.
  - exfalso. apply Hqueue. unfold buffered. by rewrite Hq.
Qed.

Lemma reachable_wellFormed ownId ops σ :
  run ops (init ownId) = Returns σ → wellFormed σ.
Proof.
  intros Hrun. by destruct (run_frame ops _ _ (init_wellFormed ownId) Hrun).
Qed.

(** C5.  At every state the network reaches: a [sendMessage] to a remote
    peer whose connection key is not recorded appends [(topic, message)]
    to the queue of that peer and writes nothing; and a handshake reply
    that carries the nonce of its socket and a key of 32 bytes, which the
    cipher takes, on a socket that has no key yet, records the key and
    writes the queue of the peer to the peer's socket, element by element
    in insertion order. *)
Theorem buffer_then_drain (ownId : string) (ops : list op) (σ : state) :
  run ops (init ownId) = Returns σ →
  (∀ targetId topic message,
     targetId ≠ id σ →
     connectionKeys σ !! targetId = None →
     ∃ σ',
       sendMessage targetId topic message σ = Returns σ'
       ∧ buffered σ' targetId = buffered σ targetId ++ [(topic, message)]
       ∧ log σ' = log σ)
  ∧ (∀ fuel socket c key newNonce,
       closures σ !! socket = Some c →
       hasKey c = false →
       cipherKey (keyOfWire key) = true →
       length (buffered σ (peer c)) ≤ fuel →
       ∃ σ' conn,
         connections σ !! peer c = Some conn
         ∧ onHandshakeReply fuel socket (nonce c) key newNonce σ = Returns (σ', None)
         ∧ connectionKeys σ' !! peer c = Some (keyOfWire key)
         ∧ log σ' = log σ ++ (aesWrite conn (keyOfWire key) <$> buffered σ (peer c))).
Proof.
  intros Hrun. pose proof (reachable_wellFormed _ _ _ Hrun) as Hwf. split.
  - intros targetId topic message Hid Hkey.
    eexists. split; [by apply sendMessage_buffers|].
    rewrite buffered_setBuffered, decide_True by done. done.
  - intros fuel socket c key newNonce Hc Hkey Hcipher Hfuel.
    destruct (handshake_drains fuel socket c key newNonce σ Hwf Hc Hkey Hcipher Hfuel)
      as (σ' & conn & H1 & H2 & H3 & H4 & _).
    exists σ', conn. done.
Qed.

(** Two distinct entries of a log that write the same buffered element. *)
Definition writtenTwice (element : string * json) (l : list io) : Prop :=
  ∃ l1 l2 l3 socket1 key1 socket2 key2,
    l = l1 ++ [aesWrite socket1 key1 element] ++ l2
           ++ [aesWrite socket2 key2 element] ++ l3.

Lemma elem_of_fmap_split {A B} (f : A → B) (x : A) (l : list A) :
  x ∈ l → ∃ l1 l2, f <$> l = l1 ++ [f x] ++ l2.
Proof.
  intros (l1 & l2 & ->)%list_elem_of_split.
  exists (f <$> l1), (f <$> l2). by rewrite fmap_app, fmap_cons.
Qed.

(** C6.  At every state the network reaches: no operation removes an
    element from the queue buffered for a peer (the queue before is a
    prefix of the queue after), along any further run; a handshake that
    succeeds, with a key that the cipher takes, writes the whole queue
    and leaves it in place; so when a second handshake with the same peer
    succeeds later, every element that was in the queue at the first one
    has been written twice. *)
Theorem buffer_never_cleared (ownId : string) (ops : list op) (σ : state) :
  run ops (init ownId) = Returns σ →
  (∀ o σ', step o σ = Returns σ' → ∀ q, buffered σ q `prefix_of` buffered σ' q)
  ∧ (∀ more σ', run more σ = Returns σ' → ∀ q, buffered σ q `prefix_of` buffered σ' q)
  ∧ (∀ fuel1 socket1 c1 key1 nonce1 σ1 more σ2 fuel2 socket2 c2 key2 nonce2 σ3 e1 e2,
       closures σ !! socket1 = Some c1 → hasKey c1 = false →
       cipherKey (keyOfWire key1) = true → length (buffered σ (peer c1)) ≤ fuel1 →
       onHandshakeReply fuel1 socket1 (nonce c1) key1 nonce1 σ = Returns (σ1, e1) →
       run more σ1 = Returns σ2 →
       closures σ2 !! socket2 = Some c2 → hasKey c2 = false → peer c2 = peer c1 →
       cipherKey (keyOfWire key2) = true → length (buffered σ2 (peer c2)) ≤ fuel2 →
       onHandshakeReply fuel2 socket2 (nonce c2) key2 nonce2 σ2 = Returns (σ3, e2) →
       buffered σ (peer c1) `prefix_of` buffered σ3 (peer c1)
       ∧ ∀ element, element ∈ buffered σ (peer c1) → writtenTwice element (log σ3)).
Proof.
  intros Hrun. pose proof (reachable_wellFormed _ _ _ Hrun) as Hwf.
  split; [|split].
  - intros o σ' Hstep. by destruct (step_frame o σ σ' Hwf Hstep) as (_ & _ & B & _).
  - intros more σ' Hmore. by destruct (run_frame more σ σ' Hwf Hmore) as (_ & _ & B & _).
  - intros fuel1 socket1 c1 key1 nonce1 σ1 more σ2 fuel2 socket2 c2 key2 nonce2 σ3 e1 e2
      Hc1 Hk1 Ht1 Hf1 Hreply1 Hmore Hc2 Hk2 Hsame Ht2 Hf2 Hreply2.
    destruct (handshake_drains fuel1 socket1 c1 key1 nonce1 σ Hwf Hc1 Hk1 Ht1 Hf1)
      as (σ1' & conn1 & _ & Hreply1' & _ & L1 & B1).
    rewrite Hreply1 in Hreply1'. injection Hreply1' as <- _.
    assert (W1 : wellFormed σ1).
    { by destruct (onHandshakeReply_frame fuel1 socket1 (nonce c1) key1 nonce1
                     σ σ1 e1 Hwf Hreply1). }
    destruct (run_frame more σ1 σ2 W1 Hmore) as (W2 & _ & B2 & [mid L2]).
    destruct (handshake_drains fuel2 socket2 c2 key2 nonce2 σ2 W2 Hc2 Hk2 Ht2 Hf2)
      as (σ3' & conn2 & _ & Hreply2' & _ & L3 & B3).
    rewrite Hreply2 in Hreply2'. injection Hreply2' as <- _.
    assert (Hkept : buffered σ (peer c1) `prefix_of` buffered σ2 (peer c1)).
    { rewrite <- (B1 (peer c1)). apply B2. }
    split; [by rewrite B3|].
    intros element Hin.
    destruct (elem_of_fmap_split (aesWrite conn1 (keyOfWire key1)) element _ Hin)
      as (a & b & Hfirst).
    assert (Hin2 : element ∈ buffered σ2 (peer c2)).
    { rewrite Hsame. destruct Hkept as [rest ->]. apply elem_of_app. by left. }
    destruct (elem_of_fmap_split (aesWrite conn2 (keyOfWire key2)) element _ Hin2)
      as (d & e & Hsecond).
    exists (log σ ++ a), (b ++ mid ++ d), e, conn1, (keyOfWire key1), conn2, (keyOfWire key2).
    rewrite L3, L2, L1, Hfirst, Hsecond. by rewrite <- !app_assoc.
Qed.

(** *** A reconnect

    Node [me] registers [peer], sends it one message before any key is
    known, completes the handshake, sees the socket go down, and completes
    the handshake on the new socket.  The keys are of 32 bytes, as
    [generateSymmetricKey] makes them. *)

Definition ping : string * json := ("t"%string, JStr "ping").

Definition key1 : Buffer.t := replicate 32 x01.

Definition key2 : Buffer.t := replicate 32 x02.

Definition before : list op :=
  [OpRegisterNode "peer" [] "n0"; OpSendMessage "peer" "t" (JStr "ping")].

Definition queued : state :=
  match run before (init "me") with
  | Returns σ => σ
  | _ => init "me"
  end.

Definition afterFirst : state :=
  match onHandshakeReply 1 0 "n0" (WireBuffer key1) "n1" queued with
  | Returns (σ, _) => σ
  | _ => queued
  end.

Definition afterDown : state :=
  match run [OpSocketDown 0 "n2"] afterFirst with
  | Returns σ => σ
  | _ => afterFirst
  end.

Definition afterSecond : state :=
  match onHandshakeReply 1 1 "n2" (WireBuffer key2) "n3" afterDown with
  | Returns (σ, _) => σ
  | _ => afterDown
  end.

Example reconnect_log :
  log afterSecond =
    [SocketWrite 0 (KeyBuffer []) rsa (JArr [JStr "me"; JStr "n0"]);
     SocketWrite 0 (KeyBuffer key1) aes (JArr [JStr "t"; JStr "ping"]);
     SocketEnd 0;
     SocketWrite 1 (KeyBuffer []) rsa (JArr [JStr "me"; JStr "n2"]);
     SocketWrite 1 (KeyBuffer key2) aes (JArr [JStr "t"; JStr "ping"])]
  ∧ buffered afterSecond "peer" = [ping].
Proof. vm_compute. split; reflexivity. Qed.

(** A key of one byte is recorded, and the queue is not written. *)
Example refused_log :
  ∃ σ, onHandshakeReply 1 0 "n0" (WireBuffer [x01]) "n1" queued
       = Returns (σ, Some CryptoError)
       ∧ connectionKeys σ !! "peer"%string = Some (KeyBuffer [x01])
       ∧ log σ = log queued.
Proof. eexists. vm_compute. repeat split; reflexivity. Qed.

Lemma buffer_then_drain_witness :
  run before (init "me") = Returns queued
  ∧ buffered queued "peer" = [ping]
  ∧ cipherKey (KeyBuffer key1) = true
  ∧ ∃ σ' conn,
      connections queued !! "peer"%string = Some conn
      ∧ onHandshakeReply 1 0 "n0" (WireBuffer key1) "n1" queued = Returns (σ', None)
      ∧ connectionKeys σ' !! "peer"%string = Some (KeyBuffer key1)
      ∧ log σ' = log queued ++ [aesWrite conn (KeyBuffer key1) ping].
Proof.
  assert (Hrun : run before (init "me") = Returns queued) by (vm_compute; reflexivity).
  split; [exact Hrun|]. split; [vm_compute; reflexivity|]. split; [reflexivity|].
  destruct (buffer_then_drain "me" before queued Hrun) as [_ Hdrain].
  apply (Hdrain 1 0 (Closure "peer" [] "n0" false) (WireBuffer key1) "n1"%string).
  - vm_compute. reflexivity.
  - reflexivity.
  - reflexivity.
  - vm_compute. lia.
Defined.

Lemma buffer_never_cleared_witness :
  run before (init "me") = Returns queued
  ∧ cipherKey (KeyBuffer key1) = true
  ∧ cipherKey (KeyBuffer key2) = true
  ∧ buffered queued "peer" `prefix_of` buffered afterSecond "peer"
  ∧ writtenTwice ping (log afterSecond).
Proof.
  assert (Hrun : run before (init "me") = Returns queued) by (vm_compute; reflexivity).
  split; [exact Hrun|]. split; [reflexivity|]. split; [reflexivity|].
  destruct (buffer_never_cleared "me" before queued Hrun) as (_ & _ & Htwice).
  destruct (Htwice 1 0 (Closure "peer" [] "n0" false) (WireBuffer key1) "n1"%string
              afterFirst [OpSocketDown 0 "n2"] afterDown
              1 1 (Closure "peer" [] "n2" false) (WireBuffer key2) "n3"%string
              afterSecond None None) as [Hprefix Hall];
    try (vm_compute; reflexivity); try (vm_compute; lia).
  split; [exact Hprefix|]. apply Hall.
  change (ping ∈ [ping]). apply list_elem_of_here.
Defined.

End EncryptedFacts.

(** ** The readiness barrier *)

Module BarrierFacts.
Import Barrier.

Lemma filter_all {A} (P : A → Prop) `{∀ x, Decision (P x)} (l : list A) :
  (∀ x, x ∈ l → P x) → filter P l = l.
Proof.
  induction l as [|x l IH]; intros Hall; [done|].
  rewrite filter_cons_True by (apply Hall; left).
  f_equal. apply IH. intros y Hy. apply Hall. by right.
Qed.


Lemma of_list_NoDup (l : list string) : NoDup l → JSSet.of_list l = l.
Proof.
  unfold JSSet.of_list. intros Hnd.
  assert (Hgen : ∀ acc, NoDup (acc ++ l) → foldl (λ s x, JSSet.add x s) acc l = acc ++ l).
  { clear Hnd. induction l as [|x l IH]; intros acc Hacc; simpl.
    - by rewrite app_nil_r.
    - unfold JSSet.add at 2, JSSet.has.
      apply NoDup_app in Hacc as Hparts. destruct Hparts as (_ & Hdisj & _).
      rewrite bool_decide_eq_false_2.
      + rewrite IH; rewrite <- app_assoc; done.
      + intros Hin. apply (Hdisj x Hin). left. }
  by apply (Hgen []).
Qed.

(** At the start one greeting goes to every other node, and nothing has
    resolved. *)
Lemma start_greets setupTopic otherIDs :
  sends (waitForEveryone setupTopic otherIDs)
  = map (λ otherId, Sent otherId setupTopic JNull) otherIDs
  ∧ resolveCalls (waitForEveryone setupTopic otherIDs) = 0.
Proof. done. Qed.

(** A greeting from a node that is still missing removes it and is answered
    with one reply; any other greeting changes nothing. *)
Lemma onGreeting_missing setupTopic greeterId σ :
  greeterId ∈ missingNodes σ →
  missingNodes (onGreeting setupTopic greeterId σ)
  = JSSet.delete greeterId (missingNodes σ)
  ∧ sends (onGreeting setupTopic greeterId σ)
    = sends σ ++ [Sent greeterId setupTopic JNull].
Proof.
  intros Hin. unfold onGreeting, JSSet.has. rewrite bool_decide_eq_true_2 by done.
  by destruct (JSSet.size _ =? 0).
Qed.

Lemma onGreeting_seen setupTopic greeterId σ :
  greeterId ∉ missingNodes σ → onGreeting setupTopic greeterId σ = σ.
Proof.
  intros Hout. unfold onGreeting, JSSet.has. by rewrite bool_decide_eq_false_2.
Qed.

(** What the barrier has done after any sequence of greetings: the missing
    nodes are the ones not heard from, and [resolve] has been called iff
    there was a node to wait for and none is missing. *)
Lemma after_spec setupTopic otherIDs greeters :
  NoDup otherIDs →
  let σ := after setupTopic otherIDs greeters in
  missingNodes σ = filter (λ x, x ∉ greeters) otherIDs
  ∧ (resolved σ = true ↔ otherIDs ≠ [] ∧ missingNodes σ = []).
Proof.
  intros Hnd. cbv zeta. unfold after.
  induction greeters as [|g greeters IH] using rev_ind.
  - simpl. rewrite of_list_NoDup by done. split.
    + symmetry. apply filter_all. intros x _. apply not_elem_of_nil.
    + unfold resolved. simpl. split; [done|]. by intros [? ?].
  - rewrite foldl_app. simpl.
    set (σ := foldl (λ σ g, onGreeting setupTopic g σ)
                (waitForEveryone setupTopic otherIDs) greeters) in *.
    destruct IH as [Hmissing Hresolved].
    assert (Hfilter : filter (λ x, x ∉ greeters ++ [g]) otherIDs
                      = JSSet.delete g (filter (λ x, x ∉ greeters) otherIDs)).
    { unfold JSSet.delete. rewrite list_filter_filter. apply list_filter_iff.
      intros x. rewrite elem_of_app, list_elem_of_singleton. tauto. }
    destruct (decide (g ∈ missingNodes σ)) as [Hin|Hout].
    + destruct (onGreeting_missing setupTopic g σ Hin) as [Hm _].
      split; [by rewrite Hm, Hmissing, Hfilter|].
      unfold resolved, onGreeting, JSSet.has in *.
      rewrite bool_decide_eq_true_2 by done.
      assert (Hne : otherIDs ≠ []).
      { intros ->. rewrite Hmissing in Hin. by apply elem_of_nil in Hin. }
      destruct (JSSet.size (JSSet.delete g (missingNodes σ)) =? 0) eqn:Hsize; simpl.
      * apply Nat.eqb_eq, nil_length_inv in Hsize. split; [done|]. intros _. done.
      * apply Nat.eqb_neq in Hsize. rewrite Nat.ltb_lt. split.
        -- intros Hpos. apply Nat.ltb_lt, Hresolved in Hpos as [_ Hnil].
           rewrite Hnil in Hin. by apply elem_of_nil in Hin.
        -- intros [_ Hnil]. rewrite Hnil in Hsize. done.
    + rewrite (onGreeting_seen _ _ _ Hout). split.
      * rewrite Hfilter, <- Hmissing. unfold JSSet.delete. symmetry.
        apply filter_all. intros x Hx ->. done.
      * done.
Qed.

(** C8 fails on the empty set.  With no other node to wait for,
    [waitForEveryone] never calls [resolve], whatever arrives: the promise
    of a node that is alone in its network stays pending, although every
    id in [otherIDs] (there is none) has been heard from. *)
Theorem barrier_without_peers_never_resolves (setupTopic : string)
    (greeters : list string) :
  resolved (after setupTopic [] greeters) = false
  ∧ sends (after setupTopic [] greeters) = [].
Proof.
  unfold after.
  assert (Hfix : ∀ σ, missingNodes σ = [] →
            foldl (λ σ g, onGreeting setupTopic g σ) σ greeters = σ).
  { induction greeters as [|g greeters IH]; intros σ Hσ; [done|].
    simpl. rewrite onGreeting_seen; [by apply IH|].
    rewrite Hσ. apply not_elem_of_nil. }
  by rewrite Hfix.
Qed.


End BarrierFacts.

(** ** The fan-out of GeneralMessageDistributor *)

Module FanoutFacts.
Import GeneralMessageDistributor.

(** The calls of a delivery in which every promise fulfils. *)
Definition inTurn (receivers : list nat) (message : json) : list call :=
  flat_map (λ r, [Invoked r message; Completed r message]) receivers.

(** C10, as the specification states it, fails twice over.  The receivers
    are held in a [Set], so adding a receiver that is already held appends
    nothing; and a receiver whose promise rejects, or never settles, ends
    the loop of [deliver], so the receivers after it are not called. *)
Lemma addReceiver_twice :
  ¬ (∀ (receiveMessage : nat) (receivers : JSSet.t nat),
       addReceiver receiveMessage receivers = receivers ++ [receiveMessage])
  ∧ ¬ (∀ (settles : nat → json → settlement) (receivers : JSSet.t nat) (message : json),
         fst (deliver settles receivers message) = inTurn receivers message).
Proof.
  split.
  - intros Happend. specialize (Happend 7 [7]). vm_compute in Happend. discriminate.
  - intros Hall. specialize (Hall (λ _ _, Pending) [7; 9] JNull).
    vm_compute in Hall. discriminate.
Qed.

Lemma add_NoDup (r : nat) (receivers : JSSet.t nat) :
  NoDup receivers → NoDup (JSSet.add r receivers).
Proof.
  intros Hnd. unfold JSSet.add, JSSet.has. case_bool_decide as Hin; [done|].
  apply NoDup_app. split; [done|]. split; [|apply NoDup_singleton].
  intros x Hx ->%list_elem_of_singleton. done.
Qed.

Lemma add_elem_of (r x : nat) (receivers : JSSet.t nat) :
  x ∈ JSSet.add r receivers ↔ x = r ∨ x ∈ receivers.
Proof.
  unfold JSSet.add, JSSet.has. case_bool_decide as Hin.
  - split; [by right|]. by intros [->|?].
  - rewrite elem_of_app, list_elem_of_singleton. tauto.
Qed.

Lemma of_list_spec (added : list nat) :
  NoDup (JSSet.of_list added) ∧ ∀ x, x ∈ JSSet.of_list added ↔ x ∈ added.
Proof.
  unfold JSSet.of_list.
  induction added as [|r added IH] using rev_ind.
  - split; [apply NoDup_nil_2|done].
  - rewrite foldl_app. simpl. destruct IH as [Hnd Hmem]. split.
    + by apply add_NoDup.
    + intros x. rewrite add_elem_of, Hmem, elem_of_app, list_elem_of_singleton. tauto.
Qed.

Lemma deliver_inTurn (settles : nat → json → settlement) (receivers : JSSet.t nat)
    (message : json) :
  (∀ r, r ∈ receivers → settles r message = Fulfils) →
  deliver settles receivers message = (inTurn receivers message, Fulfils).
Proof.
  induction receivers as [|r receivers IH]; intros Hok; [done|].
  simpl. rewrite Hok by left. rewrite IH; [done|].
  intros x Hx. apply Hok. by right.
Qed.

(** The loop stops at the first receiver whose promise does not fulfil:
    the receivers after it are not called, and the promise of [deliver]
    ends as that one. *)
Lemma deliver_stops (settles : nat → json → settlement) (before after : list nat)
    (r : nat) (message : json) :
  (∀ x, x ∈ before → settles x message = Fulfils) →
  settles r message ≠ Fulfils →
  deliver settles (before ++ r :: after) message
  = (inTurn before message ++ [Invoked r message], settles r message).
Proof.
  induction before as [|x before IH]; intros Hok Hr; simpl.
  - by destruct (settles r message).
  - rewrite Hok by left. rewrite IH; [done| |done].
    intros y Hy. apply Hok. by right.
Qed.

(** A rejection ends the loop: the receivers after the first one that
    rejects are not called. *)
Lemma deliver_rejected (settles : nat → json → settlement) (before after : list nat)
    (r : nat) (message : json) :
  (∀ x, x ∈ before → settles x message = Fulfils) →
  settles r message = Rejects →
  deliver settles (before ++ r :: after) message
  = (inTurn before message ++ [Invoked r message], Rejects).
Proof.
  intros Hok Hr. rewrite (deliver_stops settles before after r message Hok).
  - by rewrite Hr.
  - by rewrite Hr.
Qed.

(** C10 (amended).  The receivers are held in a set kept in insertion
    order: [addReceiver] appends a receiver that is not yet held and
    leaves the set as it is otherwise, so after any sequence of additions
    the set holds each added receiver once.  When the promise of every
    held receiver fulfils for the message, [deliver] calls every held
    receiver once, in insertion order, each call made after the previous
    receiver has completed, and its own promise fulfils. *)
Theorem deliver_in_insertion_order (settles : nat → json → settlement)
    (added : list nat) (message : json) :
  let receivers := foldl (λ s r, addReceiver r s) [] added in
  (∀ r, r ∈ added → settles r message = Fulfils) →
  (∀ r held, addReceiver r held = if decide (r ∈ held) then held else held ++ [r])
  ∧ NoDup receivers
  ∧ (∀ r, r ∈ receivers ↔ r ∈ added)
  ∧ deliver settles receivers message = (inTurn receivers message, Fulfils).
Proof.
  intros receivers Hok.
  destruct (of_list_spec added) as [Hnd Hmem].
  split; [|split; [done|split; [done|]]].
  - intros r held. unfold addReceiver, JSSet.add, JSSet.has.
    case_bool_decide; by case_decide.
  - apply deliver_inTurn. intros r Hr. by apply Hok, Hmem.
Qed.

(** Receiver 7 is added twice, around receiver 9. *)
Lemma deliver_in_insertion_order_witness :
  foldl (λ s r, addReceiver r s) [] [7; 9; 7] = [7; 9]
  ∧ deliver (λ _ _, Fulfils) [7; 9] (JStr "m")
    = ([Invoked 7 (JStr "m"); Completed 7 (JStr "m");
        Invoked 9 (JStr "m"); Completed 9 (JStr "m")], Fulfils).
Proof.
  split; [reflexivity|].
  apply (deliver_in_insertion_order (λ _ _, Fulfils) [7; 9; 7] (JStr "m")).
  reflexivity.
Defined.

End FanoutFacts.

(** ** The router *)

Module RouterFacts.
Import CachedMessageHandler.

Section WithFactory.
Context `{!JSON}.
Variable createFromReference : json → state → outcome unit * state.

(** The state after [handleMessage(message)] has been called. *)
Definition handled (handleMessage : nat) (message : json) (σ : state) : state :=
  State (messageReceiverByTarget σ) (effects σ ++ [Handle handleMessage message]).

(** The state after the receiver has been registered. *)
Definition registered (target : json) (handleMessage : nat) (σ : state) : state :=
  State (<[serializeKey target := handleMessage]> (messageReceiverByTarget σ))
        (effects σ).

Lemma has_true target σ :
  has target σ = true ↔ is_Some (messageReceiverByTarget σ !! serializeKey target).
Proof. unfold has. apply bool_decide_eq_true. Qed.

Lemma has_get target σ : has target σ = true ↔ is_Some (get target σ).
Proof. apply has_true. Qed.

(** C9.  [addReceiverFor(target, fn)] throws the duplicate error exactly
    when the map holds a receiver under the serialized form of [target]
    (so also after a registration for another target with the same
    serialized form), and then leaves the map as it is; otherwise it
    registers [fn].  [deliverMessage(target, message)] calls the
    registered receiver when there is one; when there is none it first
    calls [createFromReference], and once that has returned it throws the
    receiver-missing error if the receiver is still absent and calls the
    receiver that is now registered otherwise. *)
Theorem router_errors (target message : json) (handleMessage : nat) (σ : state) :
  (fst (addReceiverFor target handleMessage σ) = Throws ReceiverExists
   ↔ is_Some (messageReceiverByTarget σ !! serializeKey target))
  ∧ (fst (addReceiverFor target handleMessage σ) = Throws ReceiverExists →
     snd (addReceiverFor target handleMessage σ) = σ)
  ∧ (fst (addReceiverFor target handleMessage σ) ≠ Throws ReceiverExists →
     addReceiverFor target handleMessage σ
     = (Returns tt, registered target handleMessage σ))
  ∧ (∀ other otherHandler σ0,
       serializeKey other = serializeKey target →
       addReceiverFor other otherHandler σ0 = (Returns tt, σ) →
       addReceiverFor target handleMessage σ = (Throws ReceiverExists, σ))
  ∧ (∀ receiver,
       get target σ = Some receiver →
       deliverMessage createFromReference target message σ
       = (Returns tt, handled receiver message σ))
  ∧ (get target σ = None →
     ∀ σ1,
       createFromReference target σ = (Returns tt, σ1) →
       (get target σ1 = None →
        deliverMessage createFromReference target message σ
        = (Throws ReceiverMissing, σ1))
       ∧ (∀ receiver,
            get target σ1 = Some receiver →
            deliverMessage createFromReference target message σ
            = (Returns tt, handled receiver message σ1)))
  ∧ (get target σ = None →
     ∀ e σ1,
       createFromReference target σ = (Throws e, σ1) →
       deliverMessage createFromReference target message σ = (Throws e, σ1)).
Proof.
  assert (Hadd : ∀ t f s,
    (has t s = true → addReceiverFor t f s = (Throws ReceiverExists, s))
    ∧ (has t s = false → addReceiverFor t f s = (Returns tt, registered t f s))).
  { intros t f s. unfold addReceiverFor. by destruct (has t s). }
  destruct (Hadd target handleMessage σ) as [Hdup Hnew].
  split; [|split; [|split; [|split; [|split; [|split]]]]].
  - rewrite <- has_true. destruct (has target σ).
    + by rewrite Hdup.
    + rewrite Hnew by done. simpl. split; [done|discriminate].
  - destruct (has target σ); [by rewrite Hdup|by rewrite Hnew].
  - destruct (has target σ); [by rewrite Hdup|by rewrite Hnew].
  - intros other otherHandler σ0 Hkey Hother. apply Hdup, has_true.
    destruct (Hadd other otherHandler σ0) as [Hdup0 Hnew0].
    destruct (has other σ0).
    + rewrite Hdup0 in Hother by done. discriminate.
    + rewrite Hnew0 in Hother by done. injection Hother as <-.
      simpl. rewrite Hkey, lookup_insert_eq. eauto.
  - intros receiver Hget. unfold deliverMessage.
    assert (Hhas : has target σ = true) by (apply has_get; eauto).
    rewrite Hhas. simpl. by rewrite Hget.
  - intros Hget σ1 Hcreate.
    assert (Hhas : has target σ = false).
    { destruct (has target σ) eqn:E; [|done].
      apply has_get in E as [r Hr]. congruence. }
    unfold deliverMessage. rewrite Hhas. simpl. rewrite Hcreate. split.
    + by intros ->.
    + by intros receiver ->.
  - intros Hget e σ1 Hcreate.
    assert (Hhas : has target σ = false).
    { destruct (has target σ) eqn:E; [|done].
      apply has_get in E as [r Hr]. congruence. }
    unfold deliverMessage. rewrite Hhas. simpl. by rewrite Hcreate.
Qed.

End WithFactory.

(** Lazy materialization: no receiver is registered for target [T]; the
    factory registers receiver 5 for the target it is given; the message
    is then handed to receiver 5.  With a factory that registers nothing
    the delivery fails. *)
Example lazy_materialization :
  let target := JStr "T" in
  let factory := λ t σ, addReceiverFor (H := toyJSON) t 5 σ in
  let idle := λ (t : json) (σ : state), (Returns tt, σ) in
  deliverMessage (H := toyJSON) factory target (JStr "42") (State ∅ [])
  = (Returns tt, State {["T"%string := 5]} [Handle 5 (JStr "42")])
  ∧ fst (deliverMessage (H := toyJSON) idle target (JStr "42") (State ∅ []))
    = Throws ReceiverMissing.
Proof. vm_compute. split; reflexivity. Qed.

End RouterFacts.
(** * Further properties *)

(** ** The reader between frames *)

Module ReaderFacts.
Import Buffer Reader FramingFacts HandlerFacts TCPNetworkFacts.

Lemma scanAll_no_zero (buf : t) :
  Forall (λ b, b ≠ x00) buf → scanAll buf = ([], buf).
Proof.
  intros Hbuf. by rewrite scanAll_step, (frameAt_no_zero buf Hbuf).
Qed.

(** A frame of which the last byte has not arrived yet is kept whole. *)
Lemma scanAll_partial (body : t) (k : nat) :
  k < length (frame body) →
  scanAll (take k (frame body)) = ([], take k (frame body)).
Proof.
  unfold frame. intros Hk.
  pose proof (of_nat_length (length body)) as Hpos.
  pose proof (of_nat_no_zero (length body)) as Hdigits.
  set (pre := of_nat (length body)) in *.
  rewrite length_app in Hk. simpl in Hk.
  destruct (decide (k ≤ length pre)) as [Hin|Hout].
  - rewrite take_app_le by done. apply scanAll_no_zero.
    by apply Forall_take.
  - rewrite take_app_ge by lia.
    destruct (k - length pre) as [|j] eqn:Hj; [lia|]. simpl take.
    set (part := take j body).
    assert (Hpart : length part = j).
    { unfold part. rewrite length_take. lia. }
    unfold scanAll.
    assert (Hlen : length (pre ++ x00 :: part) = S (length pre + j)).
    { rewrite length_app. simpl. lia. }
    rewrite Hlen. simpl scan. rewrite Hlen.
    replace (0 <? S (length pre + j)) with true by done.
    rewrite findIndex_zero_app by done.
    replace (0 <? length pre) with true by (symmetry; apply Nat.ltb_lt; lia).
    assert (Hpre : subarray 0 (length pre) (pre ++ x00 :: part) = pre).
    { unfold subarray. rewrite Nat.sub_0_r, drop_0. by rewrite take_app_length. }
    rewrite Hpre. unfold pre at 1. rewrite to_number_of_nat. fold pre.
    replace (length pre + 1 + length body <=? S (length pre + j)) with false
      by (symmetry; apply Nat.leb_gt; lia).
    done.
Qed.

Lemma scanAll_stream_app (bodies : list t) (rest : t) :
  scanAll (stream bodies ++ rest) =
    let '(received, last) := scanAll rest in
    (List.filter nonEmpty bodies ++ received, last).
Proof.
  induction bodies as [|body bodies IH].
  - simpl. by destruct (scanAll rest).
  - unfold stream in *. simpl. rewrite <- app_assoc, scanAll_frame, IH.
    destruct (scanAll rest) as [received last].
    unfold nonEmpty. by destruct (0 <? length body).
Qed.

Lemma scanAll_zero (rest : t) : scanAll (x00 :: rest) = ([], x00 :: rest).
Proof. reflexivity. Qed.

Section Handler.
Context {St V : Type}.
Variable decode : St → t → option V.
Variable receive : V → St → St.

(** The frames that have arrived in full have been handed on, whatever
    else has arrived.  On a connection where no chunk arrives while a
    run of the handler waits for [receive], and where no run is waiting
    any more: when the bytes received so far (in any chunking) are the
    frames of [bodies] followed by the first [k] bytes of a further frame
    that is not yet complete, the [try] block has been entered on the
    non-empty bodies, one after the other in their order, and
    [lastBuffer] holds exactly the incomplete frame. *)
Theorem frames_received_on_arrival (initial : St) (bodies : list Buffer.t)
    (body : Buffer.t) (k : nat) (events : list event) :
  k < length (frame body) →
  concat (chunks events) = stream bodies ++ take k (frame body) →
  undisturbed decode receive events (fresh initial) = true →
  waiting (run decode receive events (fresh initial)) = [] →
  run decode receive events (fresh initial)
  = State (handOverAll decode receive initial (List.filter nonEmpty bodies))
          (take k (frame body)) [].
Proof.
  intros Hk Hcut Hquiet Hidle.
  destruct (undisturbed_run decode receive initial events Hquiet Hidle) as [Hv Hlast].
  rewrite Hcut, scanAll_stream_app, (scanAll_partial body k Hk) in Hv, Hlast.
  rewrite app_nil_r in Hv. cbn [fst snd] in *.
  destruct (run decode receive events (fresh initial)). cbn in *. by subst.
Qed.

(** A zero byte where a length is expected stops the reader for good.
    When the frames of [bodies] and then a zero byte have arrived, on a
    connection where no chunk arrived while a run of the handler was
    waiting and where no run is waiting any more, the frames before the
    zero byte have been handed on; and from then on, whatever arrives
    and whenever, every byte is only appended to [lastBuffer]: [receive]
    is never called again on that connection. *)
Theorem zero_length_prefix_blocks (initial : St) (bodies : list Buffer.t)
    (rest : Buffer.t) (events more : list event) :
  concat (chunks events) = stream bodies ++ x00 :: rest →
  undisturbed decode receive events (fresh initial) = true →
  waiting (run decode receive events (fresh initial)) = [] →
  run decode receive (events ++ more) (fresh initial)
  = State (handOverAll decode receive initial (List.filter nonEmpty bodies))
          (x00 :: rest ++ concat (chunks more)) [].
Proof.
  intros Hcut Hquiet Hidle.
  destruct (undisturbed_run decode receive initial events Hquiet Hidle) as [Hv Hlast].
  rewrite Hcut, scanAll_stream_app, scanAll_zero in Hv, Hlast.
  rewrite app_nil_r in Hv. cbn [fst snd] in *.
  unfold run. rewrite foldl_app.
  fold (run decode receive events (fresh initial)).
  fold (run decode receive more (run decode receive events (fresh initial))).
  rewrite (stuck_run decode receive more _ rest Hidle Hlast). by rewrite Hv.
Qed.

End Handler.

(** Two frames and the first three bytes of the frame of ["hello"]
    (["5"; 0; "h"]), on a connection of [TCPNetwork] with the stand-in
    codec. *)
Lemma frames_received_on_arrival_witness :
  let bodies := [[x68; x69]; [x21]] in
  let body := [x68; x65; x6c; x6c; x6f] in
  let events := byteByByte (stream bodies ++ take 3 (frame body)) in
  3 < length (frame body)
  ∧ TCPNetwork.on (H := toyJSON) events (TCPNetwork.setReceiver)
    = State [JStr "hi"; JStr "!"] [x35; x00; x68] [].
Proof.
  split; [vm_compute; lia|].
  apply (frames_received_on_arrival (λ _ : list json, TCPNetwork.parse (H := toyJSON))
           (λ data calls, calls ++ [data]) []
           [[x68; x69]; [x21]] [x68; x65; x6c; x6c; x6f] 3).
  - vm_compute. lia.
  - reflexivity.
  - reflexivity.
  - reflexivity.
Defined.

(** A frame and a zero byte; then a well-formed frame arrives, which is
    never read. *)
Lemma zero_length_prefix_blocks_witness :
  let events := byteByByte (frame [x68; x69] ++ [x00]) in
  let more := byteByByte (frame [x21]) in
  TCPNetwork.on (H := toyJSON) (events ++ more) (TCPNetwork.setReceiver)
  = State [JStr "hi"] (x00 :: frame [x21]) [].
Proof.
  apply (zero_length_prefix_blocks (λ _ : list json, TCPNetwork.parse (H := toyJSON))
           (λ data calls, calls ++ [data]) [] [[x68; x69]] []
           (byteByByte (frame [x68; x69] ++ [x00])) (byteByByte (frame [x21])));
    reflexivity.
Defined.

End ReaderFacts.

(** ** What a node has counted *)

Module VoteFacts.
Import ReliableMessageDistributor ReliableFacts.

Section WithDistributor.
Context `{!JSON} `{!Hash}.
Variable nodeIDs : list string.

(** The echo handler and the ready handler, as functions on the state of
    the message they are about. *)
Definition stepEcho (senderId : string) (st : MessageState) : MessageState :=
  let st1 := addEcho senderId st in
  if readyTest nodeIDs st1 then setReadySent (setEchoSent st1) else st1.

Definition stepReady (senderId : string) (st : MessageState) : MessageState :=
  let st1 := addReady senderId st in
  let st2 := if readyTest nodeIDs st1 then setReadySent (setEchoSent st1) else st1 in
  if acceptedTest nodeIDs st2 then setAccepted st2 else st2.

(** The message state an event is about, and what the handler does to it. *)
Definition transition (e : event) : option (string * (MessageState → MessageState)) :=
  match e with
  | Broadcast _ _ => None
  | Initial senderId m =>
      if isMessageWithId m then Some (hashMessage (annotate m senderId), setEchoSent)
      else None
  | Echo senderId m =>
      if isAnnotatedMessage m then Some (hashMessage m, stepEcho senderId) else None
  | Ready senderId m =>
      if isAnnotatedMessage m then Some (hashMessage m, stepReady senderId) else None
  end.

Lemma echoReady_when_stateOf (b : bool) m σ h :
  stateOf (exec (when b (bind (echoMessage nodeIDs m)
                              (λ _, readyMessage nodeIDs m))) σ) h
  = if decide (h = hashMessage m)
    then (if b then setReadySent (setEchoSent (stateOf σ h)) else stateOf σ h)
    else stateOf σ h.
Proof.
  rewrite exec_when. destruct b.
  - destruct (echoReady_acts nodeIDs m σ) as (S & _ & _). apply S.
  - by case_decide.
Qed.

Lemma onEcho_stateOf senderId m σ h :
  isAnnotatedMessage m = true →
  stateOf (exec (onEcho nodeIDs senderId m) σ) h
  = if decide (h = hashMessage m) then stepEcho senderId (stateOf σ h)
    else stateOf σ h.
Proof.
  intros Hm. unfold onEcho. rewrite exec_when, Hm, exec_bind. cbv beta.
  destruct (acts_registerEchoMessage senderId m σ) as (S1 & _ & _).
  set (σ1 := exec (registerEchoMessage senderId m) σ) in *.
  rewrite exec_bind, isMessageReady_exec, isMessageReady_eval. cbv beta.
  rewrite echoReady_when_stateOf, get_stateOf, !S1. unfold stepEcho.
  destruct (decide (h = hashMessage m)) as [->|]; [|done].
  by rewrite !decide_True by done.
Qed.

Lemma onReady_stateOf senderId m σ h :
  isAnnotatedMessage m = true →
  stateOf (exec (onReady nodeIDs senderId m) σ) h
  = if decide (h = hashMessage m) then stepReady senderId (stateOf σ h)
    else stateOf σ h.
Proof.
  intros Hm. unfold onReady. rewrite exec_when, Hm, exec_bind. cbv beta.
  destruct (acts_registerReadyMessage senderId m σ) as (S1 & _ & _).
  set (σ1 := exec (registerReadyMessage senderId m) σ) in *.
  rewrite exec_bind, isMessageReady_exec, isMessageReady_eval. cbv beta.
  rewrite exec_bind. cbv beta.
  set (σ3 := exec (when (readyTest nodeIDs (stateOf σ1 (hashMessage m)))
                     (bind (echoMessage nodeIDs m) (λ _, readyMessage nodeIDs m)))
                  (exec (getMessageState m) σ1)).
  assert (S3 : ∀ h, stateOf σ3 h =
            if decide (h = hashMessage m)
            then (if readyTest nodeIDs (stateOf σ1 (hashMessage m))
                  then setReadySent (setEchoSent (stateOf σ1 h)) else stateOf σ1 h)
            else stateOf σ1 h).
  { intros h'. unfold σ3. rewrite echoReady_when_stateOf, get_stateOf. done. }
  rewrite exec_bind, isMessageAccepted_exec, isMessageAccepted_eval, exec_when.
  cbv beta.
  assert (Hlast : ∀ (b : bool) (σ' : state),
            stateOf (if b then exec (acceptMessage m) (exec (getMessageState m) σ')
                     else exec (getMessageState m) σ') h
            = if decide (h = hashMessage m)
              then (if b then setAccepted (stateOf σ' h) else stateOf σ' h)
              else stateOf σ' h).
  { intros b σ'. destruct b.
    - destruct (acts_acceptMessage m (exec (getMessageState m) σ')) as (S & _ & _).
      rewrite S, get_stateOf. done.
    - rewrite get_stateOf. by case_decide. }
  rewrite Hlast, !S3, !S1. unfold stepReady.
  destruct (decide (h = hashMessage m)) as [->|]; [|done].
  by rewrite !decide_True by done.
Qed.

Lemma onInitial_stateOf senderId m σ h :
  isMessageWithId m = true →
  stateOf (exec (onInitial nodeIDs senderId m) σ) h
  = if decide (h = hashMessage (annotate m senderId)) then setEchoSent (stateOf σ h)
    else stateOf σ h.
Proof.
  intros Hm. unfold onInitial. rewrite exec_when, Hm.
  destruct (acts_echoMessage nodeIDs (annotate m senderId) σ) as (S & _ & _).
  apply S.
Qed.

(** Every handler changes at most the one message state its argument is
    about, and changes it by the function of [transition]. *)
Lemma handle_stateOf e σ h :
  stateOf (exec (handle nodeIDs e) σ) h
  = match transition e with
    | Some (h', g) => if decide (h = h') then g (stateOf σ h) else stateOf σ h
    | None => stateOf σ h
    end.
Proof.
  destruct e as [uuid m|s m|s m|s m]; simpl.
  - reflexivity.
  - destruct (isMessageWithId m) eqn:Hm; [by apply onInitial_stateOf|].
    unfold onInitial. by rewrite Hm.
  - destruct (isAnnotatedMessage m) eqn:Hm; [by apply onEcho_stateOf|].
    unfold onEcho. by rewrite Hm.
  - destruct (isAnnotatedMessage m) eqn:Hm; [by apply onReady_stateOf|].
    unfold onReady. by rewrite Hm.
Qed.

Lemma run_snoc events e σ :
  run nodeIDs (events ++ [e]) σ = exec (handle nodeIDs e) (run nodeIDs events σ).
Proof. unfold run. by rewrite foldl_app. Qed.

(** *** The phases come in order *)

Definition ordered (st : MessageState) : Prop :=
  (wasAccepted st = true → wasReadySent st = true)
  ∧ (wasReadySent st = true → wasEchoSent st = true).

Lemma setEchoSent_ordered st : ordered st → ordered (setEchoSent st).
Proof. destruct st as [[] [] [] ? ?]; unfold ordered; simpl; tauto. Qed.

Lemma echoReady_ordered (b : bool) st :
  ordered st → ordered (if b then setReadySent (setEchoSent st) else st).
Proof. destruct b, st as [[] [] [] ? ?]; unfold ordered; simpl; tauto. Qed.

Lemma stepEcho_ordered s st : ordered st → ordered (stepEcho s st).
Proof.
  intros Hst. unfold stepEcho. apply echoReady_ordered.
  destruct st as [[] [] [] ? ?]; unfold ordered in *; simpl in *; tauto.
Qed.

Lemma stepReady_ordered s st : ordered st → ordered (stepReady s st).
Proof.
  intros Hst. unfold stepReady.
  set (st1 := addReady s st).
  assert (H1 : ordered st1).
  { destruct st as [[] [] [] ? ?]; unfold ordered in *; simpl in *; tauto. }
  destruct (readyTest nodeIDs st1) eqn:Hready.
  - pose proof (echoReady_ordered true st1 H1) as H2. simpl in H2.
    destruct (acceptedTest nodeIDs _); [|done].
    destruct st1 as [[] [] [] ? ?]; unfold ordered in *; simpl in *; tauto.
  - destruct (acceptedTest nodeIDs st1) eqn:Hacc; [|done].
    exfalso. apply acceptedTest_spec in Hacc as (senders & Hsenders & Hsize).
    unfold readyTest in Hready. rewrite Hsenders in Hready.
    apply orb_false_iff in Hready as [Hready _].
    apply Z.leb_gt in Hready. lia.
Qed.

Lemma run_ordered events h : ordered (stateOf (run nodeIDs events init) h).
Proof.
  induction events as [|e events IH] using rev_ind; [done|].
  rewrite run_snoc, handle_stateOf.
  destruct e as [uuid m|s m|s m|s m]; simpl; try done.
  - destruct (isMessageWithId m); [|done].
    case_decide; [|done]. by apply setEchoSent_ordered.
  - destruct (isAnnotatedMessage m); [|done].
    case_decide; [|done]. by apply stepEcho_ordered.
  - destruct (isAnnotatedMessage m); [|done].
    case_decide; [|done]. by apply stepReady_ordered.
Qed.

(** Whatever has arrived, in whatever order and for any member list: a
    message that was accepted has had its ready sent, and a message whose
    ready was sent has had its echo sent; a delivery in the log is of a
    message whose echo and ready flags are both set. *)
Theorem phases_in_order (events : list event) (h : string) :
  let σ := run nodeIDs events init in
  (wasAccepted (stateOf σ h) = true → wasReadySent (stateOf σ h) = true)
  ∧ (wasReadySent (stateOf σ h) = true → wasEchoSent (stateOf σ h) = true)
  ∧ (0 < deliverCount h (effects σ) →
     wasReadySent (stateOf σ h) = true ∧ wasEchoSent (stateOf σ h) = true).
Proof.
  intros σ. destruct (run_ordered events h) as [Har Hre]. fold σ in Har, Hre.
  split; [done|]. split; [done|].
  intros Hdelivered.
  destruct (run_preserves nodeIDs deliveries events (handle_deliveries nodeIDs)
              init init_deliveries h) as [_ Hcount].
  fold σ in Hcount. rewrite Hcount in Hdelivered.
  destruct (wasAccepted (stateOf σ h)); [|simpl in Hdelivered; lia].
  split; [by apply Har|]. by apply Hre, Har.
Qed.

(** *** The state is the count of the votes *)

(** The senders whose echo (ready) for the message with key [h] has
    arrived, by the serialised form under which the sets hold them. *)
Definition echoVoters (events : list event) (h : string) : SerializedSet.t :=
  foldl (λ voters e,
           match e with
           | Echo senderId m =>
               if isAnnotatedMessage m && bool_decide (hashMessage m = h)
               then SerializedSet.add (JStr senderId) voters else voters
           | _ => voters
           end) ∅ events.

Definition readyVoters (events : list event) (h : string) : SerializedSet.t :=
  foldl (λ voters e,
           match e with
           | Ready senderId m =>
               if isAnnotatedMessage m && bool_decide (hashMessage m = h)
               then SerializedSet.add (JStr senderId) voters else voters
           | _ => voters
           end) ∅ events.

(** Whether an initial message has arrived whose annotated form has key
    [h]. *)
Definition initialSeen (events : list event) (h : string) : bool :=
  existsb (λ e, match e with
                | Initial senderId m =>
                    isMessageWithId m
                    && bool_decide (hashMessage (annotate m senderId) = h)
                | _ => false
                end) events.

Definition readyReached (echoes readies : SerializedSet.t) : bool :=
  (faultyNodeCount nodeIDs + 1 <=? Z.of_nat (SerializedSet.size readies))%Z
  || Qltb (inject_Z (nodeCount nodeIDs + faultyNodeCount nodeIDs) / 2)
          (inject_Z (Z.of_nat (SerializedSet.size echoes))).

Definition acceptReached (readies : SerializedSet.t) : bool :=
  (2 * faultyNodeCount nodeIDs + 1 <=? Z.of_nat (SerializedSet.size readies))%Z.

(** The message state that the votes call for. *)
Definition counted (initial : bool) (echoes readies : SerializedSet.t) : MessageState :=
  let ready := readyReached echoes readies in
  let accepted := acceptReached readies in
  mkMessageState (initial || ready) ready accepted
    (if ready then None else Some echoes)
    (if accepted then None else Some readies).

Lemma Qltb_half (a b : Z) : Qltb (inject_Z a / 2) (inject_Z b) = (a <? 2 * b)%Z.
Proof.
  destruct (Z.ltb_spec a (2 * b)) as [Hlt|Hge].
  - by apply Qltb_lt, half_lt.
  - destruct (Qltb _ _) eqn:E; [|done].
    apply Qltb_lt, half_lt in E. lia.
Qed.

Lemma faultyNodeCount_nonneg : nodeIDs ≠ [] → (0 ≤ faultyNodeCount nodeIDs)%Z.
Proof.
  intros Hnodes. unfold faultyNodeCount, nodeCount.
  destruct nodeIDs; [done|]. simpl length. apply Z.div_pos; lia.
Qed.

Lemma add_size (value : json) (s : SerializedSet.t) :
  SerializedSet.size s ≤ SerializedSet.size (SerializedSet.add value s).
Proof.
  unfold SerializedSet.size, SerializedSet.add. apply subseteq_size. set_solver.
Qed.

Local Ltac by_thresholds :=
  repeat first
    [ progress cbn [wasEchoSent wasReadySent wasAccepted echoSenders readySenders
                    fmap option_fmap option_map orb andb negb]
    | rewrite Qltb_half
    | match goal with
      | |- context [Z.leb ?a ?b] => destruct (Z.leb_spec a b)
      | |- context [Z.ltb ?a ?b] => destruct (Z.ltb_spec a b)
      end ];
  first [reflexivity | lia].

Section Counting.
Hypothesis nodeIDs_nonempty : nodeIDs ≠ [].

Lemma counted_fresh : counted false ∅ ∅ = freshMessageState.
Proof.
  pose proof (faultyNodeCount_nonneg nodeIDs_nonempty) as Hf.
  assert (Hn : (0 < nodeCount nodeIDs)%Z).
  { unfold nodeCount. destruct nodeIDs; [done|]. simpl length. lia. }
  unfold counted, readyReached, acceptReached, freshMessageState.
  rewrite Qltb_half. unfold SerializedSet.size. rewrite size_empty.
  by_thresholds.
Qed.

Lemma counted_initial i echoes readies :
  setEchoSent (counted i echoes readies) = counted true echoes readies.
Proof. reflexivity. Qed.

Lemma counted_echo s i echoes readies :
  stepEcho s (counted i echoes readies)
  = counted i (SerializedSet.add (JStr s) echoes) readies.
Proof.
  pose proof (faultyNodeCount_nonneg nodeIDs_nonempty) as Hf.
  pose proof (add_size (JStr s) echoes) as Hle.
  unfold stepEcho, addEcho, counted, readyTest, readyReached, acceptReached,
    setReadySent, setEchoSent.
  destruct i; by_thresholds.
Qed.

Lemma counted_ready s i echoes readies :
  stepReady s (counted i echoes readies)
  = counted i echoes (SerializedSet.add (JStr s) readies).
Proof.
  pose proof (faultyNodeCount_nonneg nodeIDs_nonempty) as Hf.
  pose proof (add_size (JStr s) readies) as Hle.
  unfold stepReady, addReady, counted, readyTest, acceptedTest, readyReached,
    acceptReached, setReadySent, setEchoSent, setAccepted.
  destruct i; by_thresholds.
Qed.

Lemma echoVoters_snoc events e h :
  echoVoters (events ++ [e]) h
  = match e with
    | Echo senderId m =>
        if isAnnotatedMessage m && bool_decide (hashMessage m = h)
        then SerializedSet.add (JStr senderId) (echoVoters events h)
        else echoVoters events h
    | _ => echoVoters events h
    end.
Proof. unfold echoVoters. by rewrite foldl_app. Qed.

Lemma readyVoters_snoc events e h :
  readyVoters (events ++ [e]) h
  = match e with
    | Ready senderId m =>
        if isAnnotatedMessage m && bool_decide (hashMessage m = h)
        then SerializedSet.add (JStr senderId) (readyVoters events h)
        else readyVoters events h
    | _ => readyVoters events h
    end.
Proof. unfold readyVoters. by rewrite foldl_app. Qed.

Lemma initialSeen_snoc events e h :
  initialSeen (events ++ [e]) h
  = initialSeen events h
    || match e with
       | Initial senderId m =>
           isMessageWithId m && bool_decide (hashMessage (annotate m senderId) = h)
       | _ => false
       end.
Proof. unfold initialSeen. rewrite existsb_app. simpl. by rewrite orb_false_r. Qed.

Lemma run_counted events h :
  stateOf (run nodeIDs events init) h
  = counted (initialSeen events h) (echoVoters events h) (readyVoters events h).
Proof.
  induction events as [|e events IH] using rev_ind.
  - symmetry. apply counted_fresh.
  - rewrite run_snoc, handle_stateOf, IH.
    rewrite initialSeen_snoc, echoVoters_snoc, readyVoters_snoc.
    destruct e as [uuid m|s m|s m|s m]; simpl.
    + by rewrite orb_false_r.
    + destruct (isMessageWithId m); simpl; [|by rewrite orb_false_r].
      destruct (decide (h = hashMessage (annotate m s))) as [->|Hne].
      * rewrite bool_decide_eq_true_2 by done.
        by rewrite counted_initial, orb_true_r.
      * rewrite bool_decide_eq_false_2 by done. by rewrite orb_false_r.
    + rewrite orb_false_r. destruct (isAnnotatedMessage m); simpl; [|done].
      destruct (decide (h = hashMessage m)) as [->|Hne].
      * rewrite bool_decide_eq_true_2 by done. apply counted_echo.
      * by rewrite bool_decide_eq_false_2.
    + rewrite orb_false_r. destruct (isAnnotatedMessage m); simpl; [|done].
      destruct (decide (h = hashMessage m)) as [->|Hne].
      * rewrite bool_decide_eq_true_2 by done. apply counted_ready.
      * by rewrite bool_decide_eq_false_2.
Qed.

End Counting.

(** For a non-empty member list, the state a node keeps for a message is
    a function of the votes that have arrived for it, whatever else has
    arrived and in whatever order: with [E] and [R] the serialised senders
    of the well-formed echoes and readies for the message, the ready flag
    is set exactly when [f+1 ≤ |R|] or [(n+f)/2 < |E|], the accepted flag
    exactly when [2f+1 ≤ |R|], the echo flag exactly when the ready flag
    is set or the initial message has arrived; the echo-sender set is [E]
    until the ready flag is set and [null] from then on, the ready-sender
    set is [R] until the accepted flag is set and [null] from then on; and
    [deliver] has been called once if the accepted flag is set and not at
    all otherwise.  Senders are not checked against the member list. *)
Theorem state_is_vote_count (events : list event) (h : string) :
  nodeIDs ≠ [] →
  stateOf (run nodeIDs events init) h
  = counted (initialSeen events h) (echoVoters events h) (readyVoters events h)
  ∧ deliverCount h (effects (run nodeIDs events init))
    = Nat.b2n (acceptReached (readyVoters events h)).
Proof.
  intros Hnodes. pose proof (run_counted Hnodes events h) as Hstate.
  split; [done|].
  destruct (run_preserves nodeIDs deliveries events (handle_deliveries nodeIDs)
              init init_deliveries h) as [_ Hcount].
  by rewrite Hcount, Hstate.
Qed.

(** *** Order and repetition do not matter *)

Lemma elem_of_echoVoters events h x :
  x ∈ echoVoters events h ↔
    ∃ s m, Echo s m ∈ events ∧ isAnnotatedMessage m = true
           ∧ hashMessage m = h ∧ x = SerializedSet.serializeValue (JStr s).
Proof.
  induction events as [|e events IH] using rev_ind.
  - split; [set_solver|]. intros (s & m & Hin & _). by apply elem_of_nil in Hin.
  - rewrite echoVoters_snoc.
    assert (Hold : x ∈ echoVoters events h →
              ∃ s m, Echo s m ∈ events ++ [e] ∧ isAnnotatedMessage m = true
                     ∧ hashMessage m = h ∧ x = SerializedSet.serializeValue (JStr s)).
    { intros (s & m & Hin & Hrest)%IH. exists s, m. split; [|done].
      apply elem_of_app. by left. }
    assert (Hnew : (∃ s m, Echo s m ∈ events ++ [e] ∧ isAnnotatedMessage m = true
                     ∧ hashMessage m = h ∧ x = SerializedSet.serializeValue (JStr s)) →
              x ∈ echoVoters events h
              ∨ ∃ s m, e = Echo s m ∧ isAnnotatedMessage m = true
                       ∧ hashMessage m = h ∧ x = SerializedSet.serializeValue (JStr s)).
    { intros (s & m & Hin & Hrest). apply elem_of_app in Hin as [Hin|Hin].
      - left. apply IH. by exists s, m.
      - right. apply list_elem_of_singleton in Hin. by exists s, m. }
    destruct e as [uuid m|s m|s m|s m].
    1,2,4: split; [done|]; intros [?|(? & ? & ? & _)]%Hnew; [done|discriminate].
    destruct (isAnnotatedMessage m) eqn:Hm; simpl.
    2:{ split; [done|]. intros [?|(s' & m' & [= <- <-] & Hm' & _)]%Hnew; [done|].
        congruence. }
    case_bool_decide as Hh.
    2:{ split; [done|]. intros [?|(s' & m' & [= <- <-] & _ & Hh' & _)]%Hnew; [done|].
        congruence. }
    unfold SerializedSet.add. rewrite elem_of_union, elem_of_singleton. split.
    + intros [->|Hx]; [|by apply Hold].
      exists s, m. split; [|done]. apply elem_of_app. right. apply list_elem_of_here.
    + intros [?|(s' & m' & [= <- <-] & _ & _ & ->)]%Hnew; [by right|by left].
Qed.

Lemma elem_of_readyVoters events h x :
  x ∈ readyVoters events h ↔
    ∃ s m, Ready s m ∈ events ∧ isAnnotatedMessage m = true
           ∧ hashMessage m = h ∧ x = SerializedSet.serializeValue (JStr s).
Proof.
  induction events as [|e events IH] using rev_ind.
  - split; [set_solver|]. intros (s & m & Hin & _). by apply elem_of_nil in Hin.
  - rewrite readyVoters_snoc.
    assert (Hold : x ∈ readyVoters events h →
              ∃ s m, Ready s m ∈ events ++ [e] ∧ isAnnotatedMessage m = true
                     ∧ hashMessage m = h ∧ x = SerializedSet.serializeValue (JStr s)).
    { intros (s & m & Hin & Hrest)%IH. exists s, m. split; [|done].
      apply elem_of_app. by left. }
    assert (Hnew : (∃ s m, Ready s m ∈ events ++ [e] ∧ isAnnotatedMessage m = true
                     ∧ hashMessage m = h ∧ x = SerializedSet.serializeValue (JStr s)) →
              x ∈ readyVoters events h
              ∨ ∃ s m, e = Ready s m ∧ isAnnotatedMessage m = true
                       ∧ hashMessage m = h ∧ x = SerializedSet.serializeValue (JStr s)).
    { intros (s & m & Hin & Hrest). apply elem_of_app in Hin as [Hin|Hin].
      - left. apply IH. by exists s, m.
      - right. apply list_elem_of_singleton in Hin. by exists s, m. }
    destruct e as [uuid m|s m|s m|s m].
    1,2,3: split; [done|]; intros [?|(? & ? & ? & _)]%Hnew; [done|discriminate].
    destruct (isAnnotatedMessage m) eqn:Hm; simpl.
    2:{ split; [done|]. intros [?|(s' & m' & [= <- <-] & Hm' & _)]%Hnew; [done|].
        congruence. }
    case_bool_decide as Hh.
    2:{ split; [done|]. intros [?|(s' & m' & [= <- <-] & _ & Hh' & _)]%Hnew; [done|].
        congruence. }
    unfold SerializedSet.add. rewrite elem_of_union, elem_of_singleton. split.
    + intros [->|Hx]; [|by apply Hold].
      exists s, m. split; [|done]. apply elem_of_app. right. apply list_elem_of_here.
    + intros [?|(s' & m' & [= <- <-] & _ & _ & ->)]%Hnew; [by right|by left].
Qed.

Lemma initialSeen_spec events h :
  initialSeen events h = true ↔
    ∃ s m, Initial s m ∈ events ∧ isMessageWithId m = true
           ∧ hashMessage (annotate m s) = h.
Proof.
  unfold initialSeen. rewrite existsb_exists. split.
  - intros (e & Hin & He). destruct e as [uuid m|s m|s m|s m]; try done.
    apply andb_true_iff in He as [Hm Hh]. apply bool_decide_eq_true in Hh.
    exists s, m. split; [by apply list_elem_of_In|done].
  - intros (s & m & Hin & Hm & Hh). exists (Initial s m).
    split; [by apply list_elem_of_In|].
    by rewrite Hm, bool_decide_eq_true_2.
Qed.

(** What a node holds for a message depends only on which events have
    arrived, not on their order and not on how often each arrived: two
    runs over the same set of events end with the same message states and
    the same number of deliveries of every message. *)
Theorem arrival_order_irrelevant (events events' : list event) (h : string) :
  nodeIDs ≠ [] →
  (∀ e, e ∈ events ↔ e ∈ events') →
  stateOf (run nodeIDs events init) h = stateOf (run nodeIDs events' init) h
  ∧ deliverCount h (effects (run nodeIDs events init))
    = deliverCount h (effects (run nodeIDs events' init)).
Proof.
  intros Hnodes Hsame.
  assert (HE : echoVoters events h = echoVoters events' h).
  { apply set_eq. intros x. rewrite !elem_of_echoVoters.
    split; intros (s & m & Hin & Hrest); exists s, m; (split; [by apply Hsame|done]). }
  assert (HR : readyVoters events h = readyVoters events' h).
  { apply set_eq. intros x. rewrite !elem_of_readyVoters.
    split; intros (s & m & Hin & Hrest); exists s, m; (split; [by apply Hsame|done]). }
  assert (HI : initialSeen events h = initialSeen events' h).
  { apply eq_true_iff_eq. rewrite !initialSeen_spec.
    split; intros (s & m & Hin & Hrest); exists s, m; (split; [by apply Hsame|done]). }
  destruct (run_preserves nodeIDs deliveries events (handle_deliveries nodeIDs)
              init init_deliveries h) as [_ ->].
  destruct (run_preserves nodeIDs deliveries events' (handle_deliveries nodeIDs)
              init init_deliveries h) as [_ ->].
  rewrite !(run_counted Hnodes), HE, HR, HI. done.
Qed.

(** *** From [broadcast] to the echo handler *)


(** *** Handlers that interleave *)

(** A handler awaits the methods it calls, so the handlers of different
    messages can interleave between them.  The accounting of the log does
    not depend on handlers running one after the other: after any
    sequence of the methods of the class, in any order, every message
    state has released its sender sets as its flags say, [deliver] has
    been called once for exactly the accepted messages, and every member
    has been sent one echo (ready) for exactly the messages whose echo
    (ready) flag is set. *)
Theorem invariants_between_awaits (cs : list method) (h id : string) :
  NoDup nodeIDs →
  id ∈ nodeIDs →
  let σ := foldl (λ σ c, perform nodeIDs c σ) init cs in
  (wasReadySent (stateOf σ h) = true → echoSenders (stateOf σ h) = None)
  ∧ (wasAccepted (stateOf σ h) = true → readySenders (stateOf σ h) = None)
  ∧ deliverCount h (effects σ) = Nat.b2n (wasAccepted (stateOf σ h))
  ∧ sentCount "echo" h id (effects σ) = Nat.b2n (wasEchoSent (stateOf σ h))
  ∧ sentCount "ready" h id (effects σ) = Nat.b2n (wasReadySent (stateOf σ h)).
Proof.
  intros Hnd Hid. cbv zeta.
  destruct (methods_deliveries nodeIDs cs h) as [[Hecho Hready] Hcount].
  destruct (methods_emissions nodeIDs cs Hnd h id Hid) as [Hechoes Hreadies].
  done.
Qed.

End WithDistributor.

(** The accept of a message performed before its echo and its ready. *)
Lemma invariants_between_awaits_witness :
  let cs := [AcceptMessage hello; RegisterEcho "b" hello; EchoMessage hello;
             ReadyMessage hello; AcceptMessage hello] in
  let σ := foldl (λ σ c, perform (H := toyJSON) (H0 := toyHash) nodes4 c σ) init cs in
  NoDup nodes4
  ∧ "d"%string ∈ nodes4
  ∧ deliverCount hello_hash (effects σ) = 1
  ∧ sentCount (H := toyJSON) (H0 := toyHash) "echo" hello_hash "d" (effects σ) = 1.
Proof.
  assert (Hd : "d"%string ∈ nodes4) by (repeat constructor).
  split; [exact nodes4_NoDup|]. split; [exact Hd|].
  destruct (invariants_between_awaits (H := toyJSON) (H0 := toyHash) nodes4
              [AcceptMessage hello; RegisterEcho "b" hello; EchoMessage hello;
               ReadyMessage hello; AcceptMessage hello] hello_hash "d"
              nodes4_NoDup Hd) as (_ & _ & -> & -> & _).
  split; reflexivity.
Defined.

Lemma state_is_vote_count_witness :
  nodes4 ≠ []
  ∧ stateOf run4 hello_hash
    = counted nodes4
        (initialSeen (H := toyJSON) (H0 := toyHash) events4 hello_hash)
        (echoVoters (H := toyJSON) (H0 := toyHash) events4 hello_hash)
        (readyVoters (H := toyJSON) (H0 := toyHash) events4 hello_hash).
Proof.
  split; [done|].
  apply (state_is_vote_count (H := toyJSON) (H0 := toyHash) nodes4 events4 hello_hash).
  done.
Defined.

(** Two echoes that arrive in the other order, one of them twice. *)
Lemma arrival_order_irrelevant_witness :
  let events := [Echo "a" hello; Echo "b" hello] in
  let events' := [Echo "b" hello; Echo "a" hello; Echo "b" hello] in
  nodes4 ≠ []
  ∧ (∀ e, e ∈ events ↔ e ∈ events')
  ∧ stateOf (run (H := toyJSON) (H0 := toyHash) nodes4 events init) hello_hash
    = stateOf (run (H := toyJSON) (H0 := toyHash) nodes4 events' init) hello_hash.
Proof.
  assert (Hsame : ∀ e, e ∈ [Echo "a" hello; Echo "b" hello]
                     ↔ e ∈ [Echo "b" hello; Echo "a" hello; Echo "b" hello]).
  { intros e. rewrite !elem_of_cons, !elem_of_nil. tauto. }
  split; [done|]. split; [done|].
  apply (arrival_order_irrelevant (H := toyJSON) (H0 := toyHash) nodes4 _ _ hello_hash);
    done.
Defined.


End VoteFacts.

(** ** The messages of the barrier *)

Module GreetingFacts.
Import Barrier BarrierFacts.

(** How many messages the barrier has sent to a node. *)
Definition sentTo (id : string) (l : list sent) : nat :=
  length (filter (λ s, targetId s = id) l).

Lemma sentTo_app id l l' : sentTo id (l ++ l') = sentTo id l + sentTo id l'.
Proof. unfold sentTo. by rewrite filter_app, length_app. Qed.

Lemma sentTo_greetings setupTopic id (otherIDs : list string) :
  NoDup otherIDs →
  sentTo id (map (λ otherId, Sent otherId setupTopic JNull) otherIDs)
  = if decide (id ∈ otherIDs) then 1 else 0.
Proof.
  induction 1 as [|x l Hx Hnd IH]; [done|].
  cbn [map]. unfold sentTo in *. destruct (decide (x = id)) as [->|Hne].
  - rewrite filter_cons_True by done. cbn [length]. rewrite IH.
    rewrite decide_False by done. rewrite decide_True by left. done.
  - rewrite filter_cons_False by done. rewrite IH.
    destruct (decide (id ∈ l)) as [Hin|Hout].
    + rewrite decide_True by (by right). done.
    + rewrite decide_False; [done|].
      intros [->|?]%elem_of_cons; done.
Qed.

(** Every other node is sent the greeting, and one more message once it
    has been heard from; nobody is sent anything else, however often and
    in whatever order greetings arrive, and whoever they are from. *)
Theorem barrier_message_count (setupTopic : string) (otherIDs greeters : list string)
    (id : string) :
  NoDup otherIDs →
  let σ := after setupTopic otherIDs greeters in
  sentTo id (sends σ)
  = (if decide (id ∈ otherIDs) then (if decide (id ∈ greeters) then 2 else 1) else 0)
  ∧ ∀ s, s ∈ sends σ → topic s = setupTopic ∧ message s = JNull.
Proof.
  intros Hnd. cbv zeta.
  induction greeters as [|g greeters IH] using rev_ind.
  - unfold after. simpl. split.
    + rewrite sentTo_greetings by done.
      by destruct (decide (id ∈ otherIDs)).
    + intros s (x & -> & _)%list_elem_of_fmap. done.
  - destruct IH as [Hcount Hshape].
    destruct (after_spec setupTopic otherIDs greeters Hnd) as [Hmissing _].
    unfold after in *. rewrite foldl_app. simpl.
    set (σ := foldl (λ σ g, onGreeting setupTopic g σ)
                (waitForEveryone setupTopic otherIDs) greeters) in *.
    destruct (decide (g ∈ missingNodes σ)) as [Hin|Hout].
    + destruct (onGreeting_missing setupTopic g σ Hin) as [_ ->].
      rewrite Hmissing in Hin. apply list_elem_of_filter in Hin as [Hnew Hother].
      split.
      * rewrite sentTo_app, Hcount. unfold sentTo at 1.
        destruct (decide (g = id)) as [->|Hne].
        -- rewrite filter_cons_True by done. simpl.
           rewrite !(decide_True (P := id ∈ otherIDs)) by done.
           rewrite (decide_False (P := id ∈ greeters)) by done.
           rewrite (decide_True (P := id ∈ greeters ++ [id]))
             by (apply elem_of_app; right; apply list_elem_of_here).
           done.
        -- rewrite filter_cons_False by done. simpl. rewrite Nat.add_0_r.
           destruct (decide (id ∈ otherIDs)); [|done].
           destruct (decide (id ∈ greeters)) as [Hid|Hid].
           ++ by rewrite decide_True by (apply elem_of_app; by left).
           ++ rewrite decide_False; [done|].
              intros [Hx|Hx%list_elem_of_singleton]%elem_of_app; done.
      * intros s [Hs|Hs%list_elem_of_singleton]%elem_of_app;
          [by apply Hshape|by subst s].
    + rewrite (onGreeting_seen _ _ _ Hout). split; [|done].
      rewrite Hcount. destruct (decide (id ∈ otherIDs)) as [Hother|]; [|done].
      destruct (decide (id ∈ greeters)) as [Hid|Hid].
      * by rewrite decide_True by (apply elem_of_app; by left).
      * destruct (decide (g = id)) as [->|Hne].
        -- exfalso. apply Hout. rewrite Hmissing.
           by apply list_elem_of_filter.
        -- rewrite decide_False; [done|].
           intros [Hx|Hx%list_elem_of_singleton]%elem_of_app; done.
Qed.

(** Three peers; ["b"] greets twice, a stranger once, ["c"] not at all. *)
Lemma barrier_message_count_witness :
  let σ := after "setup" ["a"; "b"; "c"] ["b"; "x"; "b"; "a"] in
  NoDup ["a"; "b"; "c"]
  ∧ sentTo "b" (sends σ) = 2 ∧ sentTo "c" (sends σ) = 1 ∧ sentTo "x" (sends σ) = 0.
Proof.
  assert (Hnd : NoDup ["a"; "b"; "c"]).
  { apply (bool_decide_unpack (NoDup ["a"; "b"; "c"])). vm_compute. exact I. }
  split; [done|].
  split; [|split].
  - by destruct (barrier_message_count "setup" ["a"; "b"; "c"] ["b"; "x"; "b"; "a"]
                   "b" Hnd) as [-> _].
  - by destruct (barrier_message_count "setup" ["a"; "b"; "c"] ["b"; "x"; "b"; "a"]
                   "c" Hnd) as [-> _].
  - by destruct (barrier_message_count "setup" ["a"; "b"; "c"] ["b"; "x"; "b"; "a"]
                   "x" Hnd) as [-> _].
Defined.


(** *** [init] *)

Import NetworkMessageDistributor.





End GreetingFacts.

(** ** A receiver that rejects *)

Module RejectionFacts.
Import GeneralMessageDistributor FanoutFacts.

(** Receiver 9 rejects between the receivers 7 and 11. *)
Lemma deliver_rejected_witness :
  let settles := λ (r : nat) (_ : json), if r =? 9 then Rejects else Fulfils in
  (∀ x, x ∈ [7] → settles x (JStr "m") = Fulfils)
  ∧ settles 9 (JStr "m") = Rejects
  ∧ deliver settles ([7] ++ 9 :: [11]) (JStr "m")
    = ([Invoked 7 (JStr "m"); Completed 7 (JStr "m"); Invoked 9 (JStr "m")], Rejects).
Proof.
  assert (Hbefore : ∀ x, x ∈ [7] → (if x =? 9 then Rejects else Fulfils) = Fulfils).
  { intros x Hx. apply list_elem_of_singleton in Hx. by subst. }
  split; [exact Hbefore|]. split; [reflexivity|].
  by apply (deliver_rejected (λ r _, if r =? 9 then Rejects else Fulfils)
              [7] [11] 9 (JStr "m")).
Defined.

End RejectionFacts.

(** ** The plain transport from end to end *)

Module TCPInstanceFacts.
Import Buffer Reader FramingFacts HandlerFacts TCPNetworkFacts TCPNetworkInstance.

(** *** Topics on the wire *)

Lemma endsWith_length (s : string) :
  endsWith s "senderId" = true → 8 ≤ String.length s.
Proof.
  unfold endsWith. intros [Hlen _]%andb_true_iff. by apply Nat.leb_le in Hlen.
Qed.

Lemma endsWith_cons (c : ascii) (s : string) :
  endsWith s "senderId" = true → endsWith (String c s) "senderId" = true.
Proof.
  intros Hs. pose proof (endsWith_length s Hs) as Hlen.
  unfold endsWith in *. apply andb_true_iff in Hs as [_ Hs].
  apply andb_true_iff. split; [apply Nat.leb_le; simpl in *; lia|].
  change (String.length (String c s)) with (S (String.length s)).
  change (String.length "senderId") with 8 in *.
  replace (S (String.length s) - 8) with (S (String.length s - 8)) by lia.
  exact Hs.
Qed.

Lemma not_endsWith_neq (s : string) :
  endsWith s "senderId" = false → String.eqb s "senderId" = false.
Proof.
  intros Hs. destruct (String.eqb s "senderId") eqn:E; [|done].
  apply String.eqb_eq in E. subst s. vm_compute in Hs. discriminate.
Qed.

(** The topic [sendMessage] writes is never taken for the announcement
    of a sender, and the server callback finds the topic it was sent on. *)
Lemma wireTopic_roundtrip (topic : string) :
  looseEqSenderId (JStr (wireTopic topic)) = false
  ∧ (if endsWith (wireTopic topic) "senderId" then substring1 (wireTopic topic)
     else Some (wireTopic topic)) = Some topic.
Proof.
  unfold wireTopic. destruct (endsWith topic "senderId") eqn:Hends.
  - split; [done|]. by rewrite (endsWith_cons _ _ Hends).
  - split; [by apply not_endsWith_neq|]. by rewrite Hends.
Qed.

(** The server callback hands a message to the receiver of the topic it
    was sent on, whatever the topic: the topic ["senderId"] itself and
    the topics that end with it included.  No message of [sendMessage] is
    taken for the announcement of a sender. *)
Theorem topic_escape_roundtrip (receiversByTopic : gmap string nat)
    (senderId : jsval) (topic : string) (message : json) :
  onMessage receiversByTopic senderId (JArr [JStr (wireTopic topic); message])
  = (senderId,
     match receiversByTopic !! topic with
     | Some receive => [Called receive senderId (Value message)]
     | None => []
     end).
Proof.
  destruct (wireTopic_roundtrip topic) as [Hloose Hback].
  unfold onMessage. cbn [destructure lookup list_lookup from_option].
  rewrite Hloose, Hback. cbn [mbind option_bind].
  by destruct (receiversByTopic !! topic).
Qed.

(** *** Who a message is attributed to *)

(** Whether the callback takes [data] for an announcement, and the sender
    id it then records. *)
Definition announcement (data : json) : option jsval :=
  match destructure data with
  | Some (Value topic, message) => if looseEqSenderId topic then Some message else None
  | _ => None
  end.

Definition callSender (c : call) : jsval :=
  match c with Called _ senderId _ => senderId end.

Lemma onMessage_sender receiversByTopic senderId data :
  (onMessage receiversByTopic senderId data).1
  = default senderId (announcement data)
  ∧ Forall (λ c, callSender c = senderId) (onMessage receiversByTopic senderId data).2.
Proof.
  unfold onMessage, announcement.
  destruct (destructure data) as [[topic message]|]; [|done].
  destruct topic as [|topic]; [done|].
  destruct (looseEqSenderId topic); [done|].
  destruct topic; try done.
  destruct (_ ≫= _); [|done].
  split; [done|]. by apply Forall_singleton.
Qed.

Lemma onMessages_snoc receiversByTopic senderId datas data :
  onMessages receiversByTopic senderId (datas ++ [data])
  = let '(senderId1, calls1) := onMessages receiversByTopic senderId datas in
    let '(senderId2, calls2) := onMessage receiversByTopic senderId1 data in
    (senderId2, calls1 ++ calls2).
Proof.
  unfold onMessages. rewrite foldl_app. simpl.
  by destruct (foldl _ _ datas) as [s1 c1].
Qed.

Lemma onMessages_app receiversByTopic senderId datas datas' :
  onMessages receiversByTopic senderId (datas ++ datas')
  = let '(senderId1, calls1) := onMessages receiversByTopic senderId datas in
    let '(senderId2, calls2) := onMessages receiversByTopic senderId1 datas' in
    (senderId2, calls1 ++ calls2).
Proof.
  induction datas' as [|data datas' IH] using rev_ind.
  - rewrite app_nil_r. destruct (onMessages _ _ datas) as [s c].
    unfold onMessages at 1. simpl. by rewrite app_nil_r.
  - rewrite app_assoc, onMessages_snoc, IH.
    destruct (onMessages _ _ datas) as [s1 c1]. rewrite onMessages_snoc.
    destruct (onMessages _ s1 datas') as [s2 c2].
    destruct (onMessage _ s2 data) as [s3 c3]. by rewrite app_assoc.
Qed.

Lemma onMessages_cons receiversByTopic senderId data datas :
  onMessages receiversByTopic senderId (data :: datas)
  = let '(senderId1, calls1) := onMessage receiversByTopic senderId data in
    let '(senderId2, calls2) := onMessages receiversByTopic senderId1 datas in
    (senderId2, calls1 ++ calls2).
Proof.
  rewrite (onMessages_app _ _ [data] datas).
  unfold onMessages at 1. simpl.
  by destruct (onMessage _ senderId data) as [s1 c1].
Qed.

(** Receivers are told the sender that the connection announced last.  On
    a frame [["senderId", v]] the callback records [v], whatever was
    recorded before and without any check, and the receiver of every
    message that follows, up to the next announcement, is called with
    [v]. *)
Theorem sender_is_last_announcement (receiversByTopic : gmap string nat)
    (senderId : jsval) (before after : list json) (v : json) :
  Forall (λ data, announcement data = None) after →
  onMessages receiversByTopic senderId (before ++ JArr [JStr "senderId"; v] :: after)
  = (Value v,
     (onMessages receiversByTopic senderId before).2
     ++ (onMessages receiversByTopic (Value v) after).2)
  ∧ Forall (λ c, callSender c = Value v)
      (onMessages receiversByTopic (Value v) after).2.
Proof.
  intros Hafter.
  rewrite onMessages_app.
  destruct (onMessages receiversByTopic senderId before) as [s1 c1].
  rewrite onMessages_cons. cbn [onMessage destructure lookup list_lookup from_option
    looseEqSenderId].
  change (String.eqb "senderId" "senderId") with true. cbv iota.
  assert (Hrest : ∀ s, (onMessages receiversByTopic s after).1 = s
                     ∧ Forall (λ c, callSender c = s)
                         (onMessages receiversByTopic s after).2).
  { intros s. revert Hafter.
    induction after as [|data after IH] using rev_ind; intros Hafter.
    - done.
    - apply Forall_app in Hafter as [Hafter Hdata].
      apply Forall_cons in Hdata as [Hdata _]. specialize (IH Hafter).
      rewrite onMessages_snoc.
      destruct (onMessages receiversByTopic s after) as [s2 c2].
      destruct IH as [IH1 IH2]. simpl in IH1. subst s2.
      destruct (onMessage_sender receiversByTopic s data) as [Hs Hc].
      rewrite Hdata in Hs. simpl in Hs.
      destruct (onMessage receiversByTopic s data) as [s3 c3]. simpl in *.
      split; [done|]. apply Forall_app. by split. }
  destruct (Hrest (Value v)) as [Hs Hc].
  destruct (onMessages receiversByTopic (Value v) after) as [s2 c2]. simpl in *.
  by subst s2.
Qed.

(** A connection that announces ["a"], sends a message, announces ["b"]
    and sends another. *)
Lemma sender_is_last_announcement_witness :
  let receiversByTopic : gmap string nat := {["t" := 7]} in
  let before := [JArr [JStr "senderId"; JStr "a"]; JArr [JStr "t"; JNum 1]] in
  let after := [JArr [JStr "t"; JNum 2]] in
  Forall (λ data, announcement data = None) after
  ∧ (onMessages receiversByTopic (Value JNull)
       (before ++ JArr [JStr "senderId"; JStr "b"] :: after)).2
    = [Called 7 (Value (JStr "a")) (Value (JNum 1));
       Called 7 (Value (JStr "b")) (Value (JNum 2))].
Proof.
  assert (Hafter : Forall (λ data, announcement data = None) [JArr [JStr "t"; JNum 2]]).
  { by apply Forall_singleton. }
  split; [done|].
  by destruct (sender_is_last_announcement {["t" := 7]} (Value JNull)
                 [JArr [JStr "senderId"; JStr "a"]; JArr [JStr "t"; JNum 1]]
                 [JArr [JStr "t"; JNum 2]] (JStr "b") Hafter) as [-> _].
Defined.

(** *** From [sendMessage] to the receiver of the peer *)

Section WithJSON.
Context `{!JSON}.

(** What the server callback has done when the contents of a stream
    are handed over in turn. *)
Lemma handOverAll_serve receiversByTopic (c : jsval * list call)
    (contents : list Buffer.t) :
  handOverAll (λ _ : jsval * list call, TCPNetwork.parse) (receive receiversByTopic)
    c contents
  = let '(senderId', new) :=
      onMessages receiversByTopic c.1 (omap TCPNetwork.parse contents) in
    (senderId', c.2 ++ new).
Proof.
  revert c. induction contents as [|content contents IH]; intros [senderId calls].
  - cbn. by rewrite app_nil_r.
  - change (handOverAll ?d ?r (senderId, calls) (content :: contents))
      with (handOverAll d r (handOver d r (senderId, calls) content) contents).
    rewrite IH. unfold handOver. cbn [omap list_omap].
    destruct (TCPNetwork.parse content) as [data|]; [|done].
    rewrite onMessages_cons. unfold receive. cbn [fst snd].
    destruct (onMessage receiversByTopic senderId data) as [s1 c1]. cbn [fst snd].
    destruct (onMessages receiversByTopic s1 _) as [s2 c2]. by rewrite app_assoc.
Qed.

(** [sendMessage] for each of a list of messages, in order. *)
Fixpoint sendAll (targetId : string) (messages : list (string * json)) (σ : state)
  : result :=
  match messages with
  | [] => Done σ
  | (topic, message) :: rest =>
      match sendMessage targetId topic message σ with
      | Done σ' => sendAll targetId rest σ'
      | TypeError => TypeError
      end
  end.

Definition wire (message : string * json) : json :=
  JArr [JStr (wireTopic message.1); message.2].

Definition announce (ownId : string) : json := JArr [JStr "senderId"; JStr ownId].

Lemma written_app socket l l' :
  written socket (l ++ l')
  = foldl (λ bytes e,
             match e with
             | SocketConnect s => if decide (s = socket) then [] else bytes
             | SocketWrite s data => if decide (s = socket) then bytes ++ data else bytes
             | _ => bytes
             end) (written socket l) l'.
Proof. unfold written. by rewrite foldl_app. Qed.

Lemma sendAll_log targetId targetNode messages σ :
  targetId ≠ id σ →
  connections σ !! targetId = Some targetNode →
  ∃ σ', sendAll targetId messages σ = Done σ'
        ∧ id σ' = id σ
        ∧ written targetNode (log σ')
          = written targetNode (log σ) ++ concat (map (λ m, TCPNetwork.send (wire m)) messages).
Proof.
  revert σ. induction messages as [|[topic message] messages IH]; intros σ Hid Hconn.
  - exists σ. simpl. by rewrite app_nil_r.
  - simpl. unfold sendMessage. rewrite decide_False by done. rewrite Hconn.
    set (σ1 := emit _ σ).
    destruct (IH σ1) as (σ' & Hsend & Hid' & Hwritten); [done|done|].
    exists σ'. split; [done|]. split; [done|].
    rewrite Hwritten. unfold σ1. cbn [log emit]. rewrite written_app. cbn [foldl].
    rewrite decide_True by done. by rewrite <- app_assoc.
Qed.

(** What a node sends is what the receivers of its peer are called with.
    A node [a] that registers [b] and sends it messages has written, on
    the connection to [b], the announcement of its id and the messages.
    When these bytes have arrived at the server of the peer, cut into
    chunks in any way, without a chunk arriving while a run of the
    ['data'] handler was waiting for a receiver, and no run is waiting
    any more, the server has called, for every message whose topic has a
    receiver and in the order of sending, that receiver with the sender
    [a] and the message, and has called nothing else. *)
Theorem plain_end_to_end (a b : string) (messages : list (string * json))
    (receiversByTopic : gmap string nat) :
  a ≠ b →
  inherited b = false →
  faithful (announce a) →
  Forall (λ m, faithful (wire m)) messages →
  ∃ σ1 σ2,
    registerNode b (init a) = Done σ1
    ∧ sendAll b messages σ1 = Done σ2
    ∧ connections σ2 !! b = Some 0
    ∧ ∀ events,
        concat (chunks events) = written 0 (log σ2) →
        undisturbed (λ _, TCPNetwork.parse) (receive receiversByTopic) events accepted
        = true →
        waiting (serve receiversByTopic events) = [] →
        serve receiversByTopic events
        = Reader.State
            (Value (JStr a),
             omap (λ m, (λ receive, Called receive (Value (JStr a)) (Value m.2))
                          <$> receiversByTopic !! m.1) messages)
            [] [].
Proof.
  intros Hab Hb Hannounce Hmessages.
  unfold registerNode. cbn [init id connections]. rewrite decide_False by done.
  rewrite lookup_empty, Hb. eexists.
  set (σ1 := State _ _ _ _ _ _).
  assert (Hid1 : id σ1 = a) by done.
  assert (Hconn1 : connections σ1 !! b = Some 0) by apply lookup_insert_eq.
  destruct (sendAll_log b 0 messages σ1) as (σ2 & Hsend & Hid2 & Hwritten);
    [by rewrite Hid1|done|].
  exists σ2. split; [done|]. split; [done|].
  assert (Hconn2 : connections σ2 !! b = Some 0).
  { clear Hwritten. revert Hsend Hconn1. generalize σ1. clear.
    induction messages as [|[topic message] messages IH]; intros σ Hsend Hconn.
    - by injection Hsend as <-.
    - simpl in Hsend. unfold sendMessage in Hsend.
      destruct (decide (b = id σ)).
      + destruct (receiversByTopic σ !! topic); by apply IH in Hsend.
      + rewrite Hconn in Hsend. by apply IH in Hsend. }
  split; [done|].
  intros events Hcut Hquiet Hidle. rewrite Hwritten in Hcut.
  change (written 0 (log σ1)) with ([] ++ TCPNetwork.send (announce a)) in Hcut.
  assert (Hstream : concat (chunks events)
            = concat (map TCPNetwork.send (announce a :: map wire messages))).
  { rewrite Hcut. simpl. by rewrite map_map. }
  assert (Hfaithful : Forall faithful (announce a :: map wire messages)).
  { apply Forall_cons. split; [done|]. by apply Forall_fmap. }
  destruct (undisturbed_run _ _ (Value JNull, []) events Hquiet Hidle) as [Hv Hlast].
  rewrite Hstream, stream_send, scanAll_stream in Hv, Hlast. cbn [fst snd] in Hv, Hlast.
  rewrite handOverAll_serve, (omap_parse_stream _ Hfaithful) in Hv. cbn [fst snd] in Hv.
  unfold serve, accepted in *.
  destruct (run _ _ events _) as [v last w].
  cbn [Reader.variables Reader.lastBuffer Reader.waiting] in Hv, Hlast, Hidle.
  rewrite Hv, Hlast, Hidle. f_equal. clear.
  rewrite onMessages_cons.
  cbn [announce onMessage destructure lookup list_lookup from_option looseEqSenderId].
  change (String.eqb "senderId" "senderId") with true. cbv iota.
  assert (Hrest : ∀ s, onMessages receiversByTopic s (map wire messages)
            = (s, omap (λ m, (λ receive, Called receive s (Value m.2))
                               <$> receiversByTopic !! m.1) messages)).
  { intros s. induction messages as [|[topic message] messages IH]; [done|].
    rewrite map_cons, onMessages_cons. unfold wire at 1. cbn [fst snd].
    rewrite topic_escape_roundtrip, IH. cbn [omap list_omap fst snd].
    by destruct (receiversByTopic !! topic). }
  by rewrite Hrest.
Qed.

(** *** Any history of the object *)

(** What can happen to the object: calls of its methods, and the
    ['error'] or ['end'] event of a socket it has created.  A method that
    throws has not changed the object. *)
Inductive op : Type :=
| RegisterNode (nodeId : string)
| RegisterReceiver (topic : string) (receiver : nat)
| SendMessage (targetId topic : string) (message : json)
| SocketDown (socket : nat)
| Stop.

Definition step (o : op) (σ : state) : state :=
  match o with
  | RegisterNode nodeId =>
      match registerNode nodeId σ with Done σ' => σ' | TypeError => σ end
  | RegisterReceiver topic receiver => registerReceiver topic receiver σ
  | SendMessage targetId topic message =>
      match sendMessage targetId topic message σ with Done σ' => σ' | TypeError => σ end
  | SocketDown socket => if socket <? nextSocket σ then onSocketDown socket σ else σ
  | Stop => stop σ
  end.

Definition run (ops : list op) (σ : state) : state := foldl (λ σ o, step o σ) σ ops.

Lemma history_snoc ops o σ : run (ops ++ [o]) σ = step o (run ops σ).
Proof. unfold run. by rewrite foldl_app. Qed.

(** The bytes on a connection: the announcement, then the messages. *)
Definition opened (ownId : string) (messages : list (string * json)) : Buffer.t :=
  TCPNetwork.send (announce ownId)
  ++ concat (map (λ m, TCPNetwork.send (wire m)) messages).

Definition connected (ownId : string) (ops : list op) (σ : state) : Prop :=
  id σ = ownId
  ∧ (∀ nodeId socket, connections σ !! nodeId = Some socket → socket < nextSocket σ)
  ∧ (∀ nodeId nodeId' socket,
       connections σ !! nodeId = Some socket → connections σ !! nodeId' = Some socket →
       nodeId = nodeId')
  ∧ (hasStopped σ = false →
     ∀ nodeId socket, connections σ !! nodeId = Some socket →
       ∃ messages,
         written socket (log σ) = opened ownId messages
         ∧ Forall (λ m, SendMessage nodeId m.1 m.2 ∈ ops) messages).

Lemma written_other socket l new :
  Forall (λ e, match e with
               | SocketConnect s | SocketWrite s _ => s ≠ socket
               | _ => True
               end) new →
  written socket (l ++ new) = written socket l.
Proof.
  intros Hnew. rewrite written_app. generalize (written socket l).
  induction Hnew as [|e new He _ IH]; intros bytes; [done|].
  cbn [foldl]. destruct e; try apply IH; by rewrite decide_False.
Qed.

Lemma written_connect socket l ownId :
  written socket (l ++ [SocketConnect socket;
                        SocketWrite socket (TCPNetwork.send (announce ownId))])
  = opened ownId [].
Proof.
  rewrite written_app. cbn [foldl]. rewrite !decide_True by done.
  unfold opened. simpl. by rewrite app_nil_r.
Qed.

Lemma written_message socket l message :
  written socket (l ++ [SocketWrite socket (TCPNetwork.send (wire message))])
  = written socket l ++ TCPNetwork.send (wire message).
Proof. rewrite written_app. cbn [foldl]. by rewrite decide_True. Qed.

Lemma opened_snoc ownId messages message :
  opened ownId (messages ++ [message])
  = opened ownId messages ++ TCPNetwork.send (wire message).
Proof.
  unfold opened. rewrite map_app, concat_app. simpl.
  by rewrite app_nil_r, app_assoc.
Qed.

Lemma connected_weaken ownId ops o σ :
  connected ownId ops σ → connected ownId (ops ++ [o]) σ.
Proof.
  intros (Hid & Hfresh & Hinj & Hopen). split; [done|]. split; [done|].
  split; [done|]. intros Hrun nodeId socket Hsocket.
  destruct (Hopen Hrun nodeId socket Hsocket) as (messages & Hwritten & Hsent).
  exists messages. split; [done|].
  eapply Forall_impl; [exact Hsent|]. intros m Hm. apply elem_of_app. by left.
Qed.

Lemma connected_create ownId ops o nodeId σ :
  nodeId ≠ id σ →
  connected ownId ops σ →
  connected ownId (ops ++ [o])
    (let connection := nextSocket σ in
     let σ1 := connect connection
                 (State (id σ) (connections σ) (receiversByTopic σ) (hasStopped σ)
                        (S connection) (log σ)) in
     State (id σ1) (<[nodeId := connection]> (connections σ1)) (receiversByTopic σ1)
           (hasStopped σ1) (nextSocket σ1) (log σ1)).
Proof.
  intros Hnode Hσ. apply (connected_weaken _ _ o) in Hσ.
  destruct Hσ as (Hid & Hfresh & Hinj & Hopen).
  unfold connected. cbv zeta. unfold connect. cbn [hasStopped].
  destruct (hasStopped σ) eqn:Hstopped;
    cbn [id connections hasStopped nextSocket log emit].
  - split; [done|]. split; [|split; [|done]].
    + intros n s [[_ <-]|[_ Hs]]%lookup_insert_Some; [lia|].
      apply Hfresh in Hs. lia.
    + intros n n' s [[<- <-]|[Hn Hs]]%lookup_insert_Some
                    [[<- Hs']|[Hn' Hs']]%lookup_insert_Some; try done.
      * apply Hfresh in Hs'. lia.
      * apply Hfresh in Hs. lia.
      * by apply (Hinj n n' s).
  - split; [done|]. split; [|split].
    + intros n s [[_ <-]|[_ Hs]]%lookup_insert_Some; [lia|].
      apply Hfresh in Hs. lia.
    + intros n n' s [[<- <-]|[Hn Hs]]%lookup_insert_Some
                    [[<- Hs']|[Hn' Hs']]%lookup_insert_Some; try done.
      * apply Hfresh in Hs'. lia.
      * apply Hfresh in Hs. lia.
      * by apply (Hinj n n' s).
    + intros _ n s [[<- <-]|[Hn Hs]]%lookup_insert_Some.
      * exists []. split; [|done]. rewrite Hid. apply written_connect.
      * destruct (Hopen eq_refl n s Hs) as (messages & Hwritten & Hsent).
        exists messages. split; [|done]. rewrite <- Hwritten.
        apply written_other. apply Hfresh in Hs.
        repeat (apply Forall_cons; split; [lia|]). done.
Qed.

Lemma step_connected ownId ops o σ :
  connected ownId ops σ → connected ownId (ops ++ [o]) (step o σ).
Proof.
  intros Hσ. destruct o as [nodeId|topic receiver|targetId topic message|socket|];
    cbn [step].
  - unfold registerNode. destruct (decide (nodeId = id σ)) as [Hself|Hother].
    { by apply connected_weaken. }
    destruct (connections σ !! nodeId) as [old|] eqn:Hold.
    + assert (Hended : connected ownId ops (emit [SocketEnd old] σ)).
      { destruct Hσ as (Hid & Hfresh & Hinj & Hopen).
        split; [done|]. split; [done|]. split; [done|].
        intros Hrun n s Hs.
        destruct (Hopen Hrun n s Hs) as (messages & Hwritten & Hsent).
        exists messages. split; [|done]. rewrite <- Hwritten.
        apply written_other. by apply Forall_singleton. }
      by apply (connected_create ownId ops _ nodeId (emit [SocketEnd old] σ)).
    + destruct (inherited nodeId); [by apply connected_weaken|].
      by apply connected_create.
  - apply (connected_weaken _ _ (RegisterReceiver topic receiver)) in Hσ.
    exact Hσ.
  - unfold sendMessage. destruct (decide (targetId = id σ)) as [Hself|Hother].
    + apply (connected_weaken _ _ (SendMessage targetId topic message)) in Hσ.
      destruct (receiversByTopic σ !! topic) as [receive|]; [|done].
      destruct Hσ as (Hid & Hfresh & Hinj & Hopen).
      split; [done|]. split; [done|]. split; [done|].
      intros Hrun n s Hs.
      destruct (Hopen Hrun n s Hs) as (messages & Hwritten & Hsent).
      exists messages. split; [|done]. rewrite <- Hwritten.
      apply written_other. by apply Forall_singleton.
    + destruct (connections σ !! targetId) as [targetNode|] eqn:Htarget;
        [|by apply connected_weaken].
      destruct Hσ as (Hid & Hfresh & Hinj & Hopen).
      split; [done|]. split; [done|]. split; [done|].
      intros Hrun n s Hs. cbn [connections emit log] in *.
      destruct (Hopen Hrun n s Hs) as (messages & Hwritten & Hsent).
      destruct (decide (s = targetNode)) as [->|Hs'].
      * assert (n = targetId) as -> by (by apply (Hinj n targetId targetNode)).
        exists (messages ++ [(topic, message)]). split.
        -- change (JArr [JStr (wireTopic topic); message]) with (wire (topic, message)).
           by rewrite written_message, opened_snoc, Hwritten.
        -- apply Forall_app. split.
           ++ eapply Forall_impl; [exact Hsent|]. intros m Hm.
              apply elem_of_app. by left.
           ++ apply Forall_singleton, elem_of_app. right. apply list_elem_of_here.
      * exists messages. split.
        -- rewrite <- Hwritten. apply written_other. by apply Forall_singleton.
        -- eapply Forall_impl; [exact Hsent|]. intros m Hm.
           apply elem_of_app. by left.
  - apply (connected_weaken _ _ (SocketDown socket)) in Hσ.
    destruct (socket <? nextSocket σ); [|done].
    unfold onSocketDown, connect. destruct (hasStopped σ) eqn:Hstopped; [done|].
    destruct Hσ as (Hid & Hfresh & Hinj & Hopen).
    split; [done|]. split; [done|]. split; [done|].
    intros _ n s Hs. cbn [connections emit log] in *.
    destruct (Hopen Hstopped n s Hs) as (messages & Hwritten & Hsent).
    destruct (decide (s = socket)) as [->|Hs'].
    + exists []. split; [|done]. rewrite Hid. apply written_connect.
    + exists messages. split; [|done]. rewrite <- Hwritten.
      apply written_other. repeat (apply Forall_cons; split; [done|]). done.
  - apply (connected_weaken _ _ Stop) in Hσ.
    destruct Hσ as (Hid & Hfresh & Hinj & Hopen).
    split; [done|]. split; [done|]. split; [done|]. intros Hrun. done.
Qed.

(** Whatever has happened to a node that has not been stopped, the bytes
    written on its present connection to a peer, since that connection
    was last opened, are the announcement of the node's own id followed
    by messages that were sent to that peer, each on its wire topic; the
    sockets of different peers are different. *)
Theorem connection_opens_with_announcement (ownId : string) (ops : list op)
    (nodeId : string) (socket : nat) :
  let σ := run ops (init ownId) in
  hasStopped σ = false →
  connections σ !! nodeId = Some socket →
  ∃ messages,
    written socket (log σ) = opened ownId messages
    ∧ Forall (λ m, SendMessage nodeId m.1 m.2 ∈ ops) messages.
Proof.
  cbv zeta.
  assert (Hrun : connected ownId ops (run ops (init ownId))).
  { induction ops as [|o ops IH] using rev_ind.
    - split; [done|]. split; [done|]. split; [done|]. intros _ n s Hs. done.
    - rewrite history_snoc. by apply step_connected. }
  destruct Hrun as (_ & _ & _ & Hopen). intros Hstopped Hsocket.
  by apply Hopen.
Qed.

(** *** After [stop] *)

Definition quiet (e : io) : Prop :=
  match e with SocketConnect _ => False | _ => True end.

Lemma step_stopped o σ :
  hasStopped σ = true →
  hasStopped (step o σ) = true
  ∧ ∃ new, log (step o σ) = log σ ++ new ∧ Forall quiet new.
Proof.
  intros Hstopped.
  assert (Hsame : hasStopped σ = true ∧ ∃ new, log σ = log σ ++ new ∧ Forall quiet new).
  { split; [done|]. exists []. by rewrite app_nil_r. }
  destruct o as [nodeId|topic receiver|targetId topic message|socket|]; cbn [step].
  - unfold registerNode. destruct (decide (nodeId = id σ)); [done|].
    destruct (connections σ !! nodeId) as [old|].
    + unfold connect. cbn [hasStopped emit]. rewrite Hstopped.
      cbn [hasStopped log]. split; [done|]. exists [SocketEnd old]. split; [done|].
      by apply Forall_singleton.
    + destruct (inherited nodeId); [done|].
      unfold connect. cbn [hasStopped]. rewrite Hstopped.
      cbn [hasStopped log]. split; [done|]. apply Hsame.
  - done.
  - unfold sendMessage. destruct (decide (targetId = id σ)).
    + destruct (receiversByTopic σ !! topic) as [receive|]; [|done].
      split; [done|]. eexists. split; [done|]. by apply Forall_singleton.
    + destruct (connections σ !! targetId) as [targetNode|]; [|done].
      split; [done|]. eexists. split; [done|]. by apply Forall_singleton.
  - destruct (socket <? nextSocket σ); [|done].
    unfold onSocketDown, connect. by rewrite Hstopped.
  - split; [done|]. eexists. split; [done|].
    apply Forall_cons. split; [done|].
    apply Forall_fmap, Forall_true. done.
Qed.

(** [stop] is final: once the object has been stopped, no socket is
    connected again, whatever is called and whichever sockets fail
    afterwards; a node registered after [stop] is given a socket that is
    never connected. *)
Theorem stop_is_final (ops : list op) (σ : state) :
  hasStopped (run ops (stop σ)) = true
  ∧ ∃ new, log (run ops (stop σ)) = log (stop σ) ++ new ∧ Forall quiet new.
Proof.
  induction ops as [|o ops IH] using rev_ind.
  - split; [done|]. exists []. by rewrite app_nil_r.
  - rewrite history_snoc. destruct IH as (Hstopped & new & Hlog & Hquiet).
    destruct (step_stopped o _ Hstopped) as (Hstopped' & new' & Hlog' & Hquiet').
    split; [done|]. exists (new ++ new'). split.
    + by rewrite Hlog', Hlog, app_assoc.
    + apply Forall_app. by split.
Qed.

End WithJSON.

(** A stand-in codec for pairs of strings, used where an example needs
    arrays that come back from their text: [[t, m]] is written [t|m]. *)
Fixpoint splitAtBar (s : string) : option (string * string) :=
  match s with
  | EmptyString => None
  | String c rest =>
      if Ascii.eqb c "|" then Some (EmptyString, rest)
      else match splitAtBar rest with
           | Some (l, r) => Some (String c l, r)
           | None => None
           end
  end.

Definition pairJSON : JSON := {|
  JSON_stringify := λ j,
    match j with
    | JArr [JStr t; JStr m] => (t ++ "|" ++ m)%string
    | _ => "?"%string
    end;
  JSON_parse := λ s,
    match splitAtBar s with
    | Some (t, m) => Some (JArr [JStr t; JStr m])
    | None => None
    end
|}.

(** Node ["a"] sends ["b"] a message on the topic ["t"] and one on the
    topic ["senderId"]; the bytes arrive one at a time, and each run of
    the handler goes on before the next byte arrives. *)
Lemma plain_end_to_end_witness :
  let messages := [("t"%string, JStr "x"); ("senderId"%string, JStr "y")] in
  let receiversByTopic : gmap string nat := {["t"%string := 1; "senderId"%string := 2]} in
  let events := byteByByte (opened (H := pairJSON) "a" messages) in
  "a"%string ≠ "b"%string
  ∧ inherited "b" = false
  ∧ faithful (H := pairJSON) (announce "a")
  ∧ Forall (λ m, faithful (H := pairJSON) (wire m)) messages
  ∧ serve (H := pairJSON) receiversByTopic events
    = Reader.State
        (Value (JStr "a"),
         [Called 1 (Value (JStr "a")) (Value (JStr "x"));
          Called 2 (Value (JStr "a")) (Value (JStr "y"))])
        [] [].
Proof.
  assert (Hab : "a"%string ≠ "b"%string) by done.
  assert (Hb : inherited "b" = false) by reflexivity.
  assert (Ha : faithful (H := pairJSON) (announce "a")) by (by split).
  assert (Hm : Forall (λ m, faithful (H := pairJSON) (wire m))
                 [("t"%string, JStr "x"); ("senderId"%string, JStr "y")]).
  { repeat (apply Forall_cons; split; [by split|]). done. }
  split; [done|]. split; [done|]. split; [done|]. split; [done|].
  destruct (plain_end_to_end (H := pairJSON) "a" "b"
              [("t"%string, JStr "x"); ("senderId"%string, JStr "y")]
              {["t"%string := 1; "senderId"%string := 2]} Hab Hb Ha Hm)
    as (σ1 & σ2 & H1 & H2 & _ & Hserve).
  vm_compute in H1. injection H1 as <-.
  vm_compute in H2. injection H2 as <-.
  rewrite (Hserve (byteByByte (opened (H := pairJSON) "a"
                                 [("t"%string, JStr "x"); ("senderId"%string, JStr "y")])));
    [| vm_compute; reflexivity ..].
  vm_compute. reflexivity.
Defined.

(** A node that registers ["b"], sends it a message, sees the socket
    fail and sends another message. *)
Lemma connection_opens_with_announcement_witness :
  let ops := [RegisterNode "b"; SendMessage "b" "t" JNull; SocketDown 0;
              SendMessage "b" "u" JNull] in
  let σ := run (H := toyJSON) ops (init "a") in
  hasStopped σ = false
  ∧ connections σ !! "b"%string = Some 0
  ∧ ∃ messages,
      written 0 (log σ) = opened (H := toyJSON) "a" messages
      ∧ Forall (λ m, SendMessage "b" m.1 m.2 ∈ ops) messages.
Proof.
  split; [reflexivity|]. split; [reflexivity|].
  apply (connection_opens_with_announcement (H := toyJSON) "a"
           [RegisterNode "b"; SendMessage "b" "t" JNull; SocketDown 0;
            SendMessage "b" "u" JNull] "b" 0); reflexivity.
Defined.

End TCPInstanceFacts.

(** ** Encrypted frames on the wire *)

Module EncryptedFramesFacts.
Import Buffer Reader FramingFacts HandlerFacts TCPNetworkFacts EncryptedTCPNetwork
  EncryptedRSA EncryptedRSAFacts EncryptedFrames.

(** A stand-in for the symmetric cipher, used where an example needs
    one: under a key of 32 bytes the ciphertext is the text, and any
    other key is refused. *)
Definition toyAES : AES := {|
  cipher := λ key _ text,
    if cipherKey key then Some (list_byte_of_string text) else None;
  decipher := λ key _ encrypted, if cipherKey key then Some encrypted else None
|}.

Section WithCrypto.
Context `{!JSON} `{!RSA} `{!AES}.

(** The frames of a sequence of values: each the result of a [send]
    with some randomness. *)
Definition sent (key : connKey) (type : encryptionType) (ivLength : nat)
    (datas : list json) (frames : list Buffer.t) : Prop :=
  Forall2 (λ data bytes, ∃ seeds iv, length iv = ivLength
                                     ∧ send key type data seeds iv = Returns bytes)
          datas frames.

Lemma rsa_frame (publicKey privateKey : Buffer.t) (data : json)
    (seeds : nat → Buffer.t) :
  keyPair publicKey privateKey rsaPortionSize →
  JSON_parse (JSON_stringify data) = Some data →
  JSON_stringify data ≠ ""%string →
  ∃ encrypted,
    encryptRSA publicKey rsaPortionSize data seeds = Returns encrypted
    ∧ nonEmpty encrypted = true
    ∧ decryptRSA privateKey encrypted = Returns data.
Proof.
  intros Hkeys Hjson Htext. unfold encryptRSA, decryptRSA.
  set (buffer := list_byte_of_string (JSON_stringify data)).
  assert (Hsize : 0 < rsaPortionSize) by (vm_compute; lia).
  destruct (roundtrip_from publicKey privateKey rsaPortionSize buffer seeds
              (length buffer) 0 0 Hsize Hkeys) as (encrypted & ps & -> & Hloop & Hcat);
    [lia|].
  exists (concat encrypted). split; [done|]. split.
  - unfold nonEmpty. destruct (concat encrypted) as [|b bs] eqn:Hempty; [|done].
    exfalso. simpl in Hloop. injection Hloop as <-. simpl in Hcat.
    rewrite drop_0 in Hcat. apply Htext.
    rewrite <- (string_of_list_byte_of_string (JSON_stringify data)).
    fold buffer. by rewrite <- Hcat.
  - rewrite Hloop, Hcat, drop_0. unfold buffer.
    by rewrite string_of_list_byte_of_string, Hjson.
Qed.

(** The values of a sequence of contents that decrypt. *)
Lemma omap_decode (type : encryptionType) (key : connKey) (datas : list json)
    (bodies : list Buffer.t) :
  Forall2 (λ data body, nonEmpty body = true ∧ decrypt type key body = Returns data)
          datas bodies →
  omap (decode type key) (List.filter nonEmpty bodies) = datas.
Proof.
  induction 1 as [|data body datas bodies [Hne Hdec] _ IH]; [done|].
  cbn [List.filter]. rewrite Hne. cbn [omap list_omap].
  unfold decode at 1. by rewrite Hdec, IH.
Qed.

(** On a connection where no chunk arrives while a run of the handler
    waits, and where no run is waiting any more, the frames of a stream
    have been decrypted and handed to [receive] in turn. *)
Lemma receiveCalls_stream (type : encryptionType) (key : connKey) (datas : list json)
    (bodies : list Buffer.t) (events : list event) :
  Forall2 (λ data body, nonEmpty body = true ∧ decrypt type key body = Returns data)
          datas bodies →
  concat (chunks events) = stream bodies →
  undisturbed (λ _, decode type key) (λ data calls, calls ++ [data]) events (fresh [])
  = true →
  waiting (on type key events) = [] →
  receiveCalls type key events = datas.
Proof.
  intros Hbodies Hcut Hquiet Hidle.
  destruct (undisturbed_run _ _ [] events Hquiet Hidle) as [Hcalls _].
  unfold receiveCalls, on. rewrite Hcalls, Hcut, scanAll_stream. cbn [fst].
  rewrite handOverAll_watched. by apply omap_decode.
Qed.

(** The handshake survives the wire.  Values sent under a public key,
    with any paddings, arrive at the holder of the private key as they
    were sent and in order, however the bytes are cut into chunks on the
    way, when no chunk arrives while a run of the ['data'] handler waits
    for [receive] and no run is waiting any more: the frame around the
    ciphertext is found by its length although the ciphertext is itself
    a sequence of length-prefixed portions. *)
Theorem rsa_over_the_wire (publicKey privateKey : Buffer.t) (datas : list json)
    (frames : list Buffer.t) (events : list event) :
  keyPair publicKey privateKey rsaPortionSize →
  Forall (λ data, JSON_parse (JSON_stringify data) = Some data
                  ∧ JSON_stringify data ≠ ""%string) datas →
  sent (KeyBuffer publicKey) rsa 16 datas frames →
  concat (chunks events) = concat frames →
  undisturbed (λ _, decode rsa (KeyBuffer privateKey)) (λ data calls, calls ++ [data])
    events (fresh []) = true →
  waiting (on rsa (KeyBuffer privateKey) events) = [] →
  receiveCalls rsa (KeyBuffer privateKey) events = datas.
Proof.
  intros Hkeys Hdatas Hsent Hcut Hquiet Hidle.
  assert (Hbodies : ∃ bodies,
            frames = map frame bodies
            ∧ Forall2 (λ data body, nonEmpty body = true
                                    ∧ decryptRSA privateKey body = Returns data)
                      datas bodies).
  { clear Hcut. induction Hsent as [|data bytes datas frames Hsend _ IH].
    - by exists [].
    - apply Forall_cons in Hdatas as [[Hjson Htext] Hdatas].
      destruct (IH Hdatas) as (bodies & -> & Hbodies).
      destruct Hsend as (seeds & iv & _ & Hsend). unfold send in Hsend.
      destruct (rsa_frame publicKey privateKey data seeds Hkeys Hjson Htext)
        as (encrypted & Henc & Hne & Hdec).
      cbn [keyBytes] in Hsend. rewrite Henc in Hsend. injection Hsend as <-.
      exists (encrypted :: bodies). split; [done|]. by constructor. }
  destruct Hbodies as (bodies & -> & Hbodies).
  by apply (receiveCalls_stream rsa (KeyBuffer privateKey) datas bodies events).
Qed.

(** [key] encrypts every text under every initialisation vector of 16
    bytes, to a ciphertext that it decrypts to the text. *)
Definition symmetric (key : connKey) : Prop :=
  ∀ (iv : Buffer.t) (text : string),
    length iv = 16 →
    ∃ encrypted,
      cipher key iv text = Some encrypted
      ∧ decipher key iv encrypted = Some (list_byte_of_string text).

(** Messages survive the wire.  Values sent under a symmetric key, each
    with its own initialisation vector of 16 bytes, arrive at the holder
    of the key as they were sent and in order, however the bytes are cut
    into chunks on the way, when no chunk arrives while a run of the
    ['data'] handler waits for [receive] and no run is waiting any
    more. *)
Theorem aes_over_the_wire (key : connKey) (datas : list json)
    (frames : list Buffer.t) (events : list event) :
  symmetric key →
  Forall (λ data, JSON_parse (JSON_stringify data) = Some data) datas →
  sent key aes 16 datas frames →
  concat (chunks events) = concat frames →
  undisturbed (λ _, decode aes key) (λ data calls, calls ++ [data]) events (fresh [])
  = true →
  waiting (on aes key events) = [] →
  receiveCalls aes key events = datas.
Proof.
  intros Hkey Hdatas Hsent Hcut Hquiet Hidle.
  assert (Hbodies : ∃ bodies,
            frames = map frame bodies
            ∧ Forall2 (λ data body, nonEmpty body = true
                                    ∧ decryptAES key body = Returns data)
                      datas bodies).
  { clear Hcut. induction Hsent as [|data bytes datas frames Hsend _ IH].
    - by exists [].
    - apply Forall_cons in Hdatas as [Hjson Hdatas].
      destruct (IH Hdatas) as (bodies & -> & Hbodies).
      destruct Hsend as (seeds & iv & Hiv & Hsend). unfold send, encryptAES in Hsend.
      destruct (Hkey iv (JSON_stringify data) Hiv) as (encrypted & Henc & Hdec).
      rewrite Henc in Hsend. injection Hsend as <-.
      exists ((iv ++ encrypted) :: bodies). split; [done|]. constructor; [|done].
      split.
      + unfold nonEmpty. rewrite length_app, Hiv. done.
      + unfold decryptAES, subarray, subarray_from.
        rewrite Nat.sub_0_r, drop_0, <- Hiv, take_app_length, drop_app_length.
        by rewrite Hdec, string_of_list_byte_of_string, Hjson. }
  destruct Hbodies as (bodies & -> & Hbodies).
  by apply (receiveCalls_stream aes key datas bodies events).
Qed.

End WithCrypto.

Definition iv16 : Buffer.t := replicate 16 x2a.

(** A key of 32 bytes. *)
Definition key32 : connKey := KeyBuffer (replicate 32 x6b).

(** The text ["hello"] under the stand-in codec and ciphers, delivered
    one byte at a time, each run of the handler going on before the next
    byte arrives. *)
Lemma rsa_over_the_wire_witness :
  let frames := [frame (x36 :: x00 :: x01 :: list_byte_of_string "hello")] in
  let events := byteByByte (concat frames) in
  keyPair (H0 := toyRSA) [] [] rsaPortionSize
  ∧ sent (H := toyJSON) (H0 := toyRSA) (H1 := toyAES) (KeyBuffer []) rsa 16
      [JStr "hello"] frames
  ∧ receiveCalls (H := toyJSON) (H0 := toyRSA) (H1 := toyAES) rsa (KeyBuffer []) events
    = [JStr "hello"].
Proof.
  assert (Hkeys : keyPair (H0 := toyRSA) [] [] rsaPortionSize).
  { intros seed portion Hlen. exists (x01 :: portion). repeat split. simpl. lia. }
  assert (Hsent : sent (H := toyJSON) (H0 := toyRSA) (H1 := toyAES) (KeyBuffer []) rsa 16
                    [JStr "hello"]
                    [frame (x36 :: x00 :: x01 :: list_byte_of_string "hello")]).
  { constructor; [|constructor]. exists (λ _, []), iv16. by split. }
  split; [done|]. split; [done|].
  eapply (rsa_over_the_wire (H := toyJSON) (H0 := toyRSA) (H1 := toyAES) [] []
            [JStr "hello"]); [exact Hkeys| |exact Hsent|done|reflexivity|reflexivity].
  apply Forall_singleton. by split.
Defined.

Lemma aes_over_the_wire_witness :
  let frames := [frame (iv16 ++ list_byte_of_string "hello")] in
  let events := byteByByte (concat frames) in
  symmetric (H1 := toyAES) key32
  ∧ sent (H := toyJSON) (H0 := toyRSA) (H1 := toyAES) key32 aes 16
      [JStr "hello"] frames
  ∧ receiveCalls (H := toyJSON) (H0 := toyRSA) (H1 := toyAES) aes key32 events
    = [JStr "hello"].
Proof.
  assert (Hkey : symmetric (H1 := toyAES) key32).
  { intros iv text _. by eexists. }
  assert (Hsent : sent (H := toyJSON) (H0 := toyRSA) (H1 := toyAES) key32 aes 16
                    [JStr "hello"] [frame (iv16 ++ list_byte_of_string "hello")]).
  { constructor; [|constructor]. exists (λ _, []), iv16. by split. }
  split; [done|]. split; [done|].
  eapply (aes_over_the_wire (H := toyJSON) (H0 := toyRSA) (H1 := toyAES) key32
            [JStr "hello"]); [exact Hkey| |exact Hsent|done|reflexivity|reflexivity].
  by apply Forall_singleton.
Defined.

End EncryptedFramesFacts.

(** ** What the encrypted transport writes *)

Module KeyedWriteFacts.
Import EncryptedTCPNetwork EncryptedFacts.

Section Histories.
Variable ownId : string.

(** The key arrived in a handshake reply that echoed the nonce of the
    socket it came in on, a socket to the peer [p]. *)
Definition accepted (done : list op) (cl : gmap nat closure) (p : string)
    (k : connKey) : Prop :=
  ∃ f s r wk n c,
    OpHandshakeReply f s r wk n ∈ done ∧ keyOfWire wk = k
    ∧ cl !! s = Some c ∧ peer c = p ∧ nonce c = r.

(** The public key of the socket is one the peer was registered with. *)
Definition registered (done : list op) (c : closure) : Prop :=
  ∃ n0, OpRegisterNode (peer c) (peerPublicKey c) n0 ∈ done.

(** What may be written to a socket: its handshake, or a message for its
    peer under an accepted key. *)
Definition justified (done : list op) (cl : gmap nat closure) (e : io) : Prop :=
  match e with
  | SocketWrite s key rsa data =>
      ∃ c, cl !! s = Some c ∧ key = KeyBuffer (peerPublicKey c)
           ∧ data = JArr [JStr ownId; JStr (nonce c)]
  | SocketWrite s key aes data =>
      ∃ c t m, cl !! s = Some c ∧ data = JArr [JStr t; m]
               ∧ OpSendMessage (peer c) t m ∈ done
               ∧ truthy key = true ∧ accepted done cl (peer c) key
  | _ => True
  end.

Definition grows (cl cl' : gmap nat closure) : Prop :=
  ∀ s c, cl !! s = Some c →
    ∃ c', cl' !! s = Some c' ∧ peer c' = peer c ∧ nonce c' = nonce c
          ∧ peerPublicKey c' = peerPublicKey c.

Record inv (done : list op) (σ : state) : Prop := Inv {
  inv_id : id σ = ownId;
  inv_closures : ∀ s c, closures σ !! s = Some c →
    s < nextSocket σ ∧ peer c ≠ ownId ∧ registered done c;
  inv_connections : ∀ p s, connections σ !! p = Some s →
    ∃ c, closures σ !! s = Some c ∧ peer c = p;
  inv_keys : ∀ p k, connectionKeys σ !! p = Some k → accepted done (closures σ) p k;
  inv_queue : ∀ p t m, (t, m) ∈ buffered σ p → OpSendMessage p t m ∈ done;
  inv_log : Forall (justified done (closures σ)) (log σ)
}.

Lemma closures_grow_refl cl : grows cl cl.
Proof. intros s c Hc. by exists c. Qed.

Lemma accepted_mono done done' cl cl' p k :
  done ⊆ done' → grows cl cl' → accepted done cl p k → accepted done' cl' p k.
Proof.
  intros Hdone Hcl (f & s & r & wk & n & c & Hop & Hk & Hc & Hp & Hn).
  destruct (Hcl s c Hc) as (c' & Hc' & Hp' & Hn' & _).
  exists f, s, r, wk, n, c'. split; [by apply Hdone|]. split; [done|].
  split; [done|]. split; congruence.
Qed.

Lemma justified_mono done done' cl cl' e :
  done ⊆ done' → grows cl cl' → justified done cl e → justified done' cl' e.
Proof.
  intros Hdone Hcl. destruct e as [s key [] data| | |]; simpl; try done.
  - intros (c & Hc & -> & ->). destruct (Hcl s c Hc) as (c' & Hc' & _ & Hn & Hk).
    exists c'. by rewrite Hn, Hk.
  - intros (c & t & m & Hc & -> & Hsent & Htruthy & Hkey).
    destruct (Hcl s c Hc) as (c' & Hc' & Hp & _).
    exists c', t, m. rewrite Hp. split; [done|]. split; [done|].
    split; [by apply Hdone|]. split; [done|]. by apply (accepted_mono done _ cl).
Qed.

Lemma inv_weaken done more σ : inv done σ → inv (done ++ more) σ.
Proof.
  intros [I C N K Q L].
  assert (Hsub : done ⊆ done ++ more) by (intros x Hx; apply elem_of_app; by left).
  split; try done.
  - intros s c Hc. destruct (C s c Hc) as (Hs & Hp & n0 & Hreg).
    split; [done|]. split; [done|]. exists n0. by apply Hsub.
  - intros p k Hk. apply (accepted_mono done _ (closures σ)); [done|apply closures_grow_refl|].
    by apply K.
  - intros p t m Hin. by apply Hsub, (Q p t m).
  - eapply Forall_impl; [exact L|]. intros e.
    apply justified_mono; [done|apply closures_grow_refl].
Qed.

Lemma emit_inv done e σ :
  inv done σ → justified done (closures σ) e → inv done (emit e σ).
Proof.
  intros [I C N K Q L] He. split; try done.
  cbn [log emit]. apply Forall_app. split; [done|]. by apply Forall_singleton.
Qed.

Lemma queue_inv done p t m σ :
  inv done σ → OpSendMessage p t m ∈ done →
  inv done (setBuffered (<[p := buffered σ p ++ [(t, m)]]> (bufferedData σ)) σ).
Proof.
  intros [I C N K Q L] Hsent. split; try done.
  intros q t' m'. rewrite buffered_setBuffered. case_decide as Hq.
  - subst q. intros [Hold|Hnew%list_elem_of_singleton]%elem_of_app.
    + by apply Q.
    + by injection Hnew as -> ->.
  - apply Q.
Qed.

Lemma sendMessage_inv done p t m σ σ' :
  inv done σ → OpSendMessage p t m ∈ done →
  sendMessage p t m σ = Returns σ' → inv done σ'.
Proof.
  intros Hσ Hsent. pose proof Hσ as [I C N K Q L]. unfold sendMessage, send.
  destruct (negb (String.eqb p (id σ))).
  - destruct (connections σ !! p) as [targetNode|] eqn:Hconn;
      [|destruct (connectionKeys σ !! p); intros [= <-]; by apply queue_inv].
    destruct (connectionKeys σ !! p) as [key|] eqn:Hkey;
      [|intros [= <-]; by apply queue_inv].
    destruct (truthy key) eqn:Htruthy; [|intros [= <-]; by apply queue_inv].
    destruct (cipherKey key); [|done]. intros [= <-].
    apply emit_inv; [done|]. simpl.
    destruct (N p targetNode Hconn) as (c & Hc & Hp).
    exists c, t, m. rewrite Hp. split; [done|]. split; [done|]. split; [done|].
    split; [done|]. by apply K.
  - intros [= <-]. case_decide; [|done]. by apply emit_inv.
Qed.

Lemma drain_inv done p fuel i σ σ' e :
  inv done σ → drain fuel p i σ = Returns (σ', e) → inv done σ'.
Proof.
  revert i σ. induction fuel as [|fuel IH]; intros i σ Hσ; simpl.
  - destruct (buffered σ p !! i) as [[t m]|]; [done|]. by intros [= <- _].
  - destruct (buffered σ p !! i) as [[t m]|] eqn:Hi; [|by intros [= <- _]].
    destruct (sendMessage p t m σ) as [σ1| |] eqn:Hsend; [| |done].
    + apply IH. apply (sendMessage_inv done p t m σ σ1); [done| |done].
      apply (inv_queue _ _ Hσ). by apply list_elem_of_lookup_2 in Hi.
    + by intros [= <- _].
Qed.

Lemma connect_inv done p k n σ :
  inv done σ → p ≠ ownId → (∃ n0, OpRegisterNode p k n0 ∈ done) →
  inv done (connect p k n σ).
Proof.
  intros [I C N K Q L] Hp Hreg. unfold connect.
  set (σ1 := setConnectionKeys (delete p (connectionKeys σ)) σ).
  set (σ2 := match connections σ1 !! p with
             | Some old => emit (SocketEnd old) σ1
             | None => σ1
             end).
  assert (H2 : id σ2 = id σ ∧ bufferedData σ2 = bufferedData σ
               ∧ closures σ2 = closures σ ∧ connections σ2 = connections σ
               ∧ connectionKeys σ2 = delete p (connectionKeys σ)
               ∧ nextSocket σ2 = nextSocket σ
               ∧ Forall (justified done (closures σ)) (log σ2)).
  { unfold σ2. destruct (connections σ1 !! p); simpl; repeat split; try done.
    apply Forall_app. split; [done|]. by apply Forall_singleton. }
  destruct H2 as (I2 & B2 & Cl2 & C2 & K2 & S2 & L2). clearbody σ2. clear σ1.
  set (new := Closure p k n false).
  assert (Hgrows : grows (closures σ) (<[nextSocket σ := new]> (closures σ))).
  { intros s c Hc. exists c. split; [|done].
    rewrite lookup_insert_ne; [done|]. apply C in Hc. lia. }
  apply emit_inv.
  - split; cbn [id closures connections connectionKeys nextSocket log];
      rewrite ?I2, ?Cl2, ?C2, ?K2, ?S2.
    + done.
    + intros s c [[<- <-]|[Hs Hc]]%lookup_insert_Some.
      * split; [lia|]. split; [done|]. exact Hreg.
      * destruct (C s c Hc) as (Hlt & Hpeer & Hr). split; [lia|]. done.
    + intros q s [[<- <-]|[Hq Hs]]%lookup_insert_Some.
      * exists new. split; [apply lookup_insert_eq|done].
      * destruct (N q s Hs) as (c & Hc & Hpeer). exists c. split; [|done].
        rewrite lookup_insert_ne; [done|]. apply C in Hc. lia.
    + intros q key [Hq Hkey]%lookup_delete_Some.
      apply (accepted_mono done done (closures σ)); [done|done|]. by apply K.
    + intros q t m. unfold buffered. cbn [bufferedData]. rewrite B2. apply Q.
    + eapply Forall_impl; [exact L2|]. intros e.
      by apply justified_mono.
  - cbn [id closures justified]. rewrite I2, Cl2, S2, I.
    exists new. split; [apply lookup_insert_eq|done].
Qed.

Lemma stop_inv done σ : inv done σ → inv done (stop σ).
Proof.
  intros Hσ. unfold stop. generalize (map_to_list (connections σ)).
  set (σ1 := State _ _ _ _ _ _ true _ _ _).
  assert (H1 : inv done σ1) by (by destruct Hσ).
  clearbody σ1. intros l. revert σ1 H1.
  induction l as [|kv l IH]; intros σ1 H1; [done|].
  simpl. apply IH. by apply emit_inv.
Qed.

Lemma step_inv done o σ σ' :
  inv done σ → step o σ = Returns σ' → inv (done ++ [o]) σ'.
Proof.
  intros Hσ. pose proof (inv_weaken done [o] σ Hσ) as Hw.
  assert (Hop : o ∈ done ++ [o]) by (apply elem_of_app; right; apply list_elem_of_here).
  destruct o as [p k n|t|i t m|f s r wk n|s n|]; simpl.
  - intros [= <-]. unfold registerNode.
    destruct (negb (String.eqb p (id σ))) eqn:Hp; [|done].
    apply negb_true_iff, String.eqb_neq in Hp. rewrite (inv_id _ _ Hσ) in Hp.
    apply connect_inv; [by destruct Hw|done|by exists n].
  - intros [= <-]. by destruct Hw.
  - by apply sendMessage_inv.
  - destruct (onHandshakeReply f s r wk n σ) as [[σ0 rejected]| |] eqn:Hreply;
      [|done|done].
    intros [= <-]. revert Hreply. unfold onHandshakeReply.
    destruct (closures σ !! s) as [c|] eqn:Hc; [|by intros [= <- _]].
    destruct (inv_closures _ _ Hw s c Hc) as (Hs & Hpeer & Hreg).
    destruct (negb (hasKey c)); [|by intros [= <- _]].
    destruct (String.eqb r (nonce c)) eqn:Hr.
    + apply String.eqb_eq in Hr.
      set (σ1 := setConnectionKeys _ σ). set (σ2 := setClosures _ σ1).
      assert (Hgrows : grows (closures σ) (closures σ2)).
      { intros s' c' Hc'. cbn [closures σ2 σ1 setClosures setConnectionKeys].
        destruct (decide (s = s')) as [<-|Hother].
        - rewrite lookup_insert_eq. eexists. split; [done|].
          rewrite Hc in Hc'. by injection Hc' as <-.
        - rewrite lookup_insert_ne by done. by exists c'. }
      assert (H2 : inv (done ++ [OpHandshakeReply f s r wk n]) σ2).
      { destruct Hw as [I C N K Q L]. split.
        - done.
        - intros s' c'. cbn [closures σ2 σ1 setClosures setConnectionKeys nextSocket].
          intros [[<- <-]|[Hother Hc']]%lookup_insert_Some; [|by apply C].
          done.
        - intros q s' Hq. destruct (N q s' Hq) as (c' & Hc' & Hq').
          destruct (Hgrows s' c' Hc') as (c'' & Hc'' & Hp'' & _).
          exists c''. split; [done|]. congruence.
        - intros q key. cbn [connectionKeys σ2 σ1 setClosures setConnectionKeys].
          intros [[<- <-]|[Hq Hkey]]%lookup_insert_Some.
          + exists f, s, r, wk, n, (Closure (peer c) (peerPublicKey c) (nonce c) true).
            split; [done|]. split; [done|].
            split; [apply lookup_insert_eq|done].
          + eapply accepted_mono; [| |by apply K]; [done|exact Hgrows].
        - done.
        - eapply Forall_impl; [exact L|]. intros e. by apply justified_mono. }
      destruct (bufferedData σ2 !! peer c); [|by intros [= <- _]].
      by apply drain_inv.
    + intros [= <- _]. by apply connect_inv.
  - intros [= <-]. unfold onSocketDown.
    destruct (closures σ !! s) as [c|] eqn:Hc; [|done].
    destruct (inv_closures _ _ Hw s c Hc) as (Hs & Hpeer & Hreg).
    by apply connect_inv.
  - intros [= <-]. by apply stop_inv.
Qed.

Lemma run_inv ops done σ σ' :
  inv done σ → run ops σ = Returns σ' → inv (done ++ ops) σ'.
Proof.
  revert done σ. induction ops as [|o ops IH]; intros done σ Hσ; simpl.
  - intros [= <-]. by rewrite app_nil_r.
  - destruct (step o σ) as [σ1| |] eqn:Hstep; try done.
    intros Hrun. replace (done ++ o :: ops) with ((done ++ [o]) ++ ops)
      by (by rewrite <- app_assoc).
    apply (IH _ σ1); [|done]. by apply (step_inv done o σ).
Qed.

Lemma init_inv : inv [] (init ownId).
Proof.
  split; try done.
  intros p t m. unfold buffered, init. simpl. rewrite lookup_empty.
  simpl. intros Hin. by apply elem_of_nil in Hin.
Qed.

(** Whatever has happened to the object, every write to a socket is
    either the handshake of that socket (the node's id and the socket's
    nonce, under the public key that the socket's peer was registered
    with) or a message that [sendMessage] was called with for the peer of
    that socket, under a key that the test of [sendMessage] accepts and
    that arrived in a handshake reply echoing the nonce of a socket to
    that same peer.  No message is written without a key or under a
    public key, and none goes to a socket of another peer. *)
Theorem writes_are_keyed (ops : list op) (σ : state)
    (socket : nat) (key : connKey) (type : encryptionType) (data : json) :
  run ops (init ownId) = Returns σ →
  SocketWrite socket key type data ∈ log σ →
  ∃ c,
    closures σ !! socket = Some c ∧ peer c ≠ ownId
    ∧ match type with
      | rsa =>
          key = KeyBuffer (peerPublicKey c)
          ∧ data = JArr [JStr ownId; JStr (nonce c)]
          ∧ ∃ n0, OpRegisterNode (peer c) (peerPublicKey c) n0 ∈ ops
      | aes =>
          truthy key = true
          ∧ (∃ topic message,
               data = JArr [JStr topic; message]
               ∧ OpSendMessage (peer c) topic message ∈ ops)
          ∧ ∃ fuel socket' returnedNonce connectionKey newNonce c',
              OpHandshakeReply fuel socket' returnedNonce connectionKey newNonce ∈ ops
              ∧ keyOfWire connectionKey = key
              ∧ closures σ !! socket' = Some c'
              ∧ peer c' = peer c ∧ nonce c' = returnedNonce
      end.
Proof.
  intros Hrun Hin.
  pose proof (run_inv ops [] _ σ init_inv Hrun) as [I C N K Q L]. simpl in *.
  rewrite Forall_forall in L. specialize (L _ Hin).
  destruct type; simpl in L.
  - destruct L as (c & Hc & -> & ->). destruct (C socket c Hc) as (_ & Hpeer & Hreg).
    exists c. done.
  - destruct L as (c & t & m & Hc & -> & Hsent & Htruthy & Hkey).
    destruct (C socket c Hc) as (_ & Hpeer & _).
    exists c. split; [done|]. split; [done|]. split; [done|]. split; [by exists t, m|].
    exact Hkey.
Qed.

End Histories.

(** The reconnect of the example above: the message ["ping"] written on
    the second socket under the key of the second handshake. *)
Lemma writes_are_keyed_witness :
  let ops := before ++ [OpHandshakeReply 1 0 "n0" (WireBuffer key1) "n1";
                        OpSocketDown 0 "n2";
                        OpHandshakeReply 1 1 "n2" (WireBuffer key2) "n3"] in
  run ops (init "me") = Returns afterSecond
  ∧ SocketWrite 1 (KeyBuffer key2) aes (JArr [JStr "t"; JStr "ping"]) ∈ log afterSecond
  ∧ ∃ c, closures afterSecond !! 1 = Some c ∧ peer c = "peer"%string.
Proof.
  assert (Hrun : run (before ++ [OpHandshakeReply 1 0 "n0" (WireBuffer key1) "n1";
                                 OpSocketDown 0 "n2";
                                 OpHandshakeReply 1 1 "n2" (WireBuffer key2) "n3"])
                   (init "me") = Returns afterSecond) by (vm_compute; reflexivity).
  assert (Hin : SocketWrite 1 (KeyBuffer key2) aes (JArr [JStr "t"; JStr "ping"])
                ∈ log afterSecond).
  { destruct reconnect_log as [-> _]. do 4 apply list_elem_of_further.
    apply list_elem_of_here. }
  split; [exact Hrun|]. split; [exact Hin|].
  destruct (writes_are_keyed "me" _ afterSecond 1 (KeyBuffer key2) aes
              (JArr [JStr "t"; JStr "ping"]) Hrun Hin)
    as (c & Hc & _ & _ & (t & m & Hdata & Hsent) & _).
  exists c. split; [done|].
  (* the only message ever sent went to ["peer"] *)
  apply elem_of_app in Hsent as [Hsent|Hsent].
  - unfold before in Hsent. apply elem_of_cons in Hsent as [Hsent|Hsent]; [done|].
    apply list_elem_of_singleton in Hsent. by injection Hsent as -> _ _.
  - repeat (apply elem_of_cons in Hsent as [Hsent|Hsent]; [done|]).
    by apply elem_of_nil in Hsent.
Defined.

End KeyedWriteFacts.

(** ** [stop] and the encrypted transport *)

Module StopFacts.
Import EncryptedTCPNetwork EncryptedFacts.

(** The object with another value of [hasStopped]. *)
Definition withStopped (b : bool) (σ : state) : state :=
  State (id σ) (publicKeys σ) (connections σ) (connectionKeys σ) (bufferedData σ)
        (receiversByTopic σ) b (closures σ) (nextSocket σ) (log σ).

Definition mapOutcome {A B} (g : A → B) (o : outcome A) : outcome B :=
  match o with
  | Returns a => Returns (g a)
  | Throws e => Throws e
  | Diverges => Diverges
  end.

Lemma sendMessage_withStopped b p t m σ :
  sendMessage p t m (withStopped b σ)
  = mapOutcome (withStopped b) (sendMessage p t m σ).
Proof.
  unfold sendMessage, send.
  cbn [id connections connectionKeys receiversByTopic withStopped].
  destruct (negb _).
  - destruct (connections σ !! p), (connectionKeys σ !! p) as [k|]; try done.
    destruct (truthy k); [|done]. by destruct (cipherKey k).
  - by case_decide.
Qed.

(** The same for a call that also tells how its promise ends. *)
Definition withStopped' (b : bool) (r : state * option error) : state * option error :=
  (withStopped b r.1, r.2).

Lemma drain_withStopped b fuel p i σ :
  drain fuel p i (withStopped b σ) = mapOutcome (withStopped' b) (drain fuel p i σ).
Proof.
  revert i σ. induction fuel as [|fuel IH]; intros i σ; simpl.
  - change (buffered (withStopped b σ) p) with (buffered σ p).
    by destruct (buffered σ p !! i) as [[t m]|].
  - change (buffered (withStopped b σ) p) with (buffered σ p).
    destruct (buffered σ p !! i) as [[t m]|]; [|done].
    rewrite sendMessage_withStopped.
    destruct (sendMessage p t m σ) as [σ1| |]; simpl; [|done|done].
    apply IH.
Qed.

Lemma connect_withStopped b p k n σ :
  connect p k n (withStopped b σ) = withStopped b (connect p k n σ).
Proof.
  unfold connect. cbn [connections connectionKeys withStopped setConnectionKeys].
  by destruct (connections σ !! p).
Qed.

Lemma stop_withStopped b σ : stop (withStopped b σ) = stop σ.
Proof. reflexivity. Qed.

Lemma stop_stopped σ : hasStopped (stop σ) = true ∧ withStopped true (stop σ) = stop σ.
Proof.
  assert (Hflag : hasStopped (stop σ) = true).
  { unfold stop. generalize (map_to_list (connections σ)).
    set (σ1 := State _ _ _ _ _ _ true _ _ _).
    assert (H1 : hasStopped σ1 = true) by done.
    clearbody σ1. intros l. revert σ1 H1.
    induction l as [|kv l IH]; intros σ1 H1; [done|]. simpl. by apply IH. }
  split; [done|]. destruct (stop σ). simpl in Hflag. by subst.
Qed.

(** What the flag is after an operation, given what it was before. *)
Definition stoppedAfter (o : op) (b : bool) : bool :=
  match o with OpStop => true | _ => b end.

Lemma step_withStopped o b σ :
  step o (withStopped b σ)
  = mapOutcome (withStopped (stoppedAfter o b)) (step o σ).
Proof.
  destruct o as [p k n|t|i t m|f s r wk n|s n|]; simpl.
  - unfold registerNode. cbn [id withStopped]. destruct (negb _); [|done].
    by rewrite <- connect_withStopped.
  - done.
  - by rewrite sendMessage_withStopped.
  - assert (Hreply : onHandshakeReply f s r wk n (withStopped b σ)
                     = mapOutcome (withStopped' b) (onHandshakeReply f s r wk n σ)).
    { unfold onHandshakeReply. cbn [closures withStopped].
      destruct (closures σ !! s) as [c|]; [|done].
      destruct (negb (hasKey c)); [|done].
      destruct (String.eqb r (nonce c)).
      - cbn [bufferedData setClosures setConnectionKeys withStopped].
        destruct (bufferedData σ !! peer c); [|done].
        by rewrite <- drain_withStopped.
      - simpl. unfold withStopped'. cbn [fst snd]. by rewrite <- connect_withStopped. }
    rewrite Hreply. by destruct (onHandshakeReply f s r wk n σ) as [[σ1 e]| |].
  - unfold onSocketDown. cbn [closures withStopped].
    destruct (closures σ !! s) as [c|]; [|done].
    by rewrite <- connect_withStopped.
  - rewrite stop_withStopped. by destruct (stop_stopped σ) as [_ ->].
Qed.

(** [hasStopped] is written by [stop] and read by nothing: whatever is
    done with the object, it goes the same way whether the flag was set
    or not, up to the flag itself.  In particular a socket that fails
    after [stop] is replaced by a new one, which is sent a handshake:
    [stop] does not end the reconnecting. *)
Theorem stop_flag_is_never_read (ops : list op) (b : bool) (σ : state) :
  run ops (withStopped b σ)
  = mapOutcome (withStopped (foldl (λ b o, stoppedAfter o b) b ops)) (run ops σ)
  ∧ ∀ socket c newNonce,
      closures σ !! socket = Some c →
      log (onSocketDown socket newNonce (stop σ))
      = log (stop σ)
        ++ match connections σ !! peer c with
           | Some old => [SocketEnd old]
           | None => []
           end
        ++ [SocketWrite (nextSocket σ) (KeyBuffer (peerPublicKey c)) rsa
              (JArr [JStr (id σ); JStr newNonce])].
Proof.
  split.
  - revert b σ. induction ops as [|o ops IH]; intros b σ; [done|].
    simpl. rewrite step_withStopped.
    destruct (step o σ) as [σ1| |]; simpl; [|done|done]. apply IH.
  - intros socket c newNonce Hc.
    destruct (stop_frame σ) as (I & Cl & C & _ & _).
    assert (Hnext : nextSocket (stop σ) = nextSocket σ).
    { unfold stop. generalize (map_to_list (connections σ)).
      set (σ1 := State _ _ _ _ _ _ true _ _ _).
      assert (H1 : nextSocket σ1 = nextSocket σ) by done.
      clearbody σ1. intros l. revert σ1 H1.
      induction l as [|kv l IH]; intros σ1 H1; [done|]. simpl. by apply IH. }
    unfold onSocketDown. rewrite Cl, Hc. unfold connect.
    cbn [connections setConnectionKeys]. rewrite C.
    destruct (connections σ !! peer c) as [old|];
      cbn [log emit id nextSocket setConnectionKeys]; rewrite I, Hnext; [|done].
    by rewrite <- app_assoc.
Qed.

End StopFacts.

(** ** The server side of the handshake *)

Module EncryptedServerFacts.
Import EncryptedTCPNetwork EncryptedServer.
Import TCPNetworkInstance (jsval, Undefined, Value, destructure).

Section Connection.
Variable publicKeys : gmap string Buffer.t.
Variable receiversByTopic : gset string.
Variable connectionKey : connKey.

(** The first value that sets [senderId]: the sender and the nonce it
    carries, and the values that arrive after it. *)
Fixpoint handshake (datas : list json) : option (jsval * jsval * list json) :=
  match datas with
  | [] => None
  | data :: after =>
      match destructure data with
      | Some (Value JNull, _) | None => handshake after
      | Some (senderId, nonce) => Some (senderId, nonce, after)
      end
  end.

(** The reply to a handshake: for a sender whose public key is
    registered, under that key, the nonce of the handshake and the
    connection key. *)
Definition reply (senderId nonce : jsval) : list effect :=
  match senderId with
  | Value (JStr s) =>
      match publicKeys !! s with
      | Some senderPublicKey =>
          [Reply senderPublicKey (JArr [orNull nonce; keyJSON connectionKey])]
      | None => []
      end
  | _ => []
  end.

(** The call that a value leads to once the sender is known. *)
Definition called (senderId : jsval) (data : json) : option effect :=
  match destructure data with
  | Some (Value (JStr topic), message) =>
      if decide (topic ∈ receiversByTopic) then Some (Called topic senderId message)
      else None
  | _ => None
  end.

Lemma served_cons senderId data datas :
  onMessages publicKeys receiversByTopic connectionKey senderId (data :: datas)
  = let '(senderId1, effects1) :=
      onMessage publicKeys receiversByTopic connectionKey senderId data in
    let '(senderId2, effects2) :=
      onMessages publicKeys receiversByTopic connectionKey senderId1 datas in
    (senderId2, effects1 ++ effects2).
Proof.
  unfold onMessages. simpl.
  destruct (onMessage _ _ _ senderId data) as [s1 e1].
  assert (Hacc : ∀ l s acc,
            foldl (λ '(senderId, effects) data,
                     let '(senderId', new) :=
                       onMessage publicKeys receiversByTopic connectionKey senderId data in
                     (senderId', effects ++ new)) (s, acc) l
            = let '(s', e') :=
                foldl (λ '(senderId, effects) data,
                         let '(senderId', new) :=
                           onMessage publicKeys receiversByTopic connectionKey senderId data in
                         (senderId', effects ++ new)) (s, []) l in
              (s', acc ++ e')).
  { induction l as [|d l IH]; intros s acc; simpl.
    - by rewrite app_nil_r.
    - destruct (onMessage _ _ _ s d) as [s' new].
      rewrite (IH s' (acc ++ new)), (IH s' new).
      destruct (foldl _ (s', []) l) as [s'' e'']. by rewrite app_assoc. }
  by rewrite (Hacc datas s1 e1).
Qed.

(** Once the sender is known, a value changes nothing but the calls. *)
Lemma onMessage_known senderId data :
  senderId ≠ Value JNull →
  onMessage publicKeys receiversByTopic connectionKey senderId data
  = (senderId, match called senderId data with Some e => [e] | None => [] end).
Proof.
  intros Hknown.
  assert (Hmode : ∀ (A : Type) (x y : A),
            match senderId with Value JNull => x | _ => y end = y).
  { intros A x y. destruct senderId as [|[]]; done. }
  unfold onMessage, called. rewrite Hmode.
  destruct (destructure data) as [[topic message]|]; [|done].
  destruct topic as [|[| | |t| |]]; try done.
  by case_decide.
Qed.

Lemma onMessages_known senderId datas :
  senderId ≠ Value JNull →
  onMessages publicKeys receiversByTopic connectionKey senderId datas
  = (senderId, omap (called senderId) datas).
Proof.
  intros Hknown. induction datas as [|data datas IH]; [done|].
  rewrite served_cons, onMessage_known, IH by done.
  cbn [omap list_omap]. by destruct (called senderId data).
Qed.

(** The handshake itself. *)
Lemma onMessage_handshake data :
  onMessage publicKeys receiversByTopic connectionKey (Value JNull) data
  = match destructure data with
    | Some (senderId, nonce) => (senderId, reply senderId nonce)
    | None => (Value JNull, [])
    end.
Proof.
  unfold onMessage, reply.
  destruct (destructure data) as [[senderId nonce]|]; [|done].
  destruct senderId as [|[| | |s| |]]; try done.
  by destruct (publicKeys !! s).
Qed.

Lemma handshake_app datas more senderId nonce after :
  handshake datas = Some (senderId, nonce, after) →
  handshake (datas ++ more) = Some (senderId, nonce, after ++ more).
Proof.
  induction datas as [|data datas IH]; [done|]. cbn [handshake app].
  destruct (destructure data) as [[s n]|]; [|done].
  destruct s as [|[| | | | |]]; try done; by intros [= <- <- <-].
Qed.

Lemma handshake_known datas senderId nonce after :
  handshake datas = Some (senderId, nonce, after) → senderId ≠ Value JNull.
Proof.
  induction datas as [|data datas IH]; [done|]. cbn [handshake].
  destruct (destructure data) as [[s n]|]; [|done].
  destruct s as [|[| | | | |]]; try done; by intros [= <- _ _].
Qed.

(** On an accepted connection, whatever values arrive.  Until a value
    sets [senderId], nothing is written and nothing is called.  The
    first value that sets it settles the sender for good.  For that
    value, and for no other, one handshake reply is written if the
    sender has a registered public key, and none otherwise: the reply
    goes out under that key and carries the nonce that came with the
    sender, and the connection key.  Every value after it leads to at
    most a call of the receiver of its topic, with the sender that was
    recorded. *)
Theorem server_replies_once (datas more : list json) :
  onMessages publicKeys receiversByTopic connectionKey (Value JNull) datas
  = match handshake datas with
    | None => (Value JNull, [])
    | Some (senderId, nonce, after) =>
        (senderId, reply senderId nonce ++ omap (called senderId) after)
    end
  ∧ match handshake datas with
    | None => True
    | Some (senderId, nonce, after) =>
        senderId ≠ Value JNull
        ∧ (onMessages publicKeys receiversByTopic connectionKey (Value JNull)
             (datas ++ more)).1 = senderId
    end.
Proof.
  assert (Hserved : ∀ l,
            onMessages publicKeys receiversByTopic connectionKey (Value JNull) l
            = match handshake l with
              | None => (Value JNull, [])
              | Some (senderId, nonce, after) =>
                  (senderId, reply senderId nonce ++ omap (called senderId) after)
              end).
  { intros l. induction l as [|data l IH]; [done|].
    rewrite served_cons, onMessage_handshake. cbn [handshake].
    destruct (destructure data) as [[s n]|]; [|by rewrite IH; destruct (handshake l) as [[[? ?] ?]|]].
    assert (Hknown : s ≠ Value JNull →
              (let '(senderId2, effects2) :=
                 onMessages publicKeys receiversByTopic connectionKey s l in
               (senderId2, reply s n ++ effects2))
              = (s, reply s n ++ omap (called s) l)).
    { intros Hs. by rewrite onMessages_known. }
    destruct s as [|[| | | | |]]; try (by apply Hknown).
    cbn [reply]. rewrite IH. by destruct (handshake l) as [[[? ?] ?]|]. }
  split; [apply Hserved|].
  destruct (handshake datas) as [[[senderId nonce] after]|] eqn:Hdatas; [|done].
  split; [by apply (handshake_known datas senderId nonce after)|].
  by rewrite Hserved, (handshake_app datas more _ _ _ Hdatas).
Qed.

End Connection.
End EncryptedServerFacts.

(** ** A network of correct nodes *)

Module AgreementFacts.
Import ReliableMessageDistributor ReliableFacts VoteFacts.

(** The event that a message sent on a topic is for its receiver: the
    call of the receiver registered for that topic, with the sender the
    network vouches for. *)
Definition eventOf (topic senderId : string) (message : json) : option event :=
  if String.eqb topic "initial" then Some (Initial senderId message)
  else if String.eqb topic "echo" then Some (Echo senderId message)
  else if String.eqb topic "ready" then Some (Ready senderId message)
  else None.

Section WithDistributor.
Context `{!JSON} `{!Hash}.
Variable nodeIDs : list string.

(** *** What the handlers put in the log *)

(** A log entry as a handler makes it: an initial message, an echo or a
    ready of a well-formed annotated message, or the delivery of a
    message that a ready has arrived for. *)
Definition made (events : list event) (x : effect) : Prop :=
  match x with
  | Send _ topic y =>
      (topic = "initial"%string ∧ ∃ uuid message, Broadcast uuid message ∈ events)
      ∨ ((topic = "echo"%string ∨ topic = "ready"%string)
         ∧ isAnnotatedMessage y = true)
  | Deliver h content =>
      ∃ s y, Ready s y ∈ events ∧ h = hashMessage y ∧ content = getContentOfMessage y
  end.

Lemma made_mono events e x : made events x → made (events ++ [e]) x.
Proof.
  destruct x as [id topic y|h content]; simpl.
  - intros [[-> (u & m & Hin)]|Hann]; [left|by right].
    split; [done|]. exists u, m. apply elem_of_app. by left.
  - intros (s & y & Hin & Hrest). exists s, y. split; [|done].
    apply elem_of_app. by left.
Qed.

Lemma toAll_made events topic y :
  (topic = "echo"%string ∨ topic = "ready"%string) →
  isAnnotatedMessage y = true →
  Forall (made events) (toAll nodeIDs topic y).
Proof.
  intros Htopic Hy. apply Forall_forall. intros x (id & ->)%elem_of_toAll.
  right. done.
Qed.

Lemma onEcho_effects s m σ :
  isAnnotatedMessage m = true →
  effects (exec (onEcho nodeIDs s m) σ)
  = effects σ
    ++ (let st1 := addEcho s (stateOf σ (hashMessage m)) in
        if readyTest nodeIDs st1 then ownEchoReady nodeIDs m st1 else []).
Proof.
  intros Hm. unfold onEcho. rewrite exec_when, Hm, exec_bind. cbv beta.
  destruct (acts_registerEchoMessage s m σ) as (S1 & E1 & _).
  set (σ1 := exec (registerEchoMessage s m) σ) in *.
  rewrite exec_bind, isMessageReady_exec, isMessageReady_eval, exec_when. cbv beta.
  rewrite S1, decide_True by done. cbv zeta.
  destruct (readyTest nodeIDs _).
  - destruct (echoReady_acts nodeIDs m (exec (getMessageState m) σ1)) as (_ & -> & _).
    rewrite get_effects, get_stateOf, E1, S1, decide_True by done.
    by rewrite app_nil_r.
  - by rewrite get_effects, E1, !app_nil_r.
Qed.

Lemma onReady_effects s m σ :
  isAnnotatedMessage m = true →
  effects (exec (onReady nodeIDs s m) σ)
  = effects σ
    ++ (let st1 := addReady s (stateOf σ (hashMessage m)) in
        let st2 := if readyTest nodeIDs st1 then setReadySent (setEchoSent st1)
                   else st1 in
        (if readyTest nodeIDs st1 then ownEchoReady nodeIDs m st1 else [])
        ++ (if acceptedTest nodeIDs st2 && negb (wasAccepted st2)
            then [Deliver (hashMessage m) (getContentOfMessage m)] else [])).
Proof.
  intros Hm. unfold onReady. rewrite exec_when, Hm, exec_bind. cbv beta.
  destruct (acts_registerReadyMessage s m σ) as (S1 & E1 & _).
  set (σ1 := exec (registerReadyMessage s m) σ) in *.
  rewrite app_nil_r in E1.
  rewrite exec_bind, isMessageReady_exec, isMessageReady_eval. cbv beta.
  rewrite exec_bind. cbv beta.
  set (st1 := addReady s (stateOf σ (hashMessage m))).
  assert (Hst1 : stateOf σ1 (hashMessage m) = st1).
  { by rewrite S1, decide_True. }
  rewrite Hst1.
  set (σ3 := exec (when (readyTest nodeIDs st1)
                     (bind (echoMessage nodeIDs m) (λ _, readyMessage nodeIDs m)))
                  (exec (getMessageState m) σ1)).
  assert (H3 : stateOf σ3 (hashMessage m)
               = (if readyTest nodeIDs st1 then setReadySent (setEchoSent st1) else st1)
               ∧ effects σ3
                 = effects σ
                   ++ (if readyTest nodeIDs st1 then ownEchoReady nodeIDs m st1 else [])).
  { unfold σ3. rewrite exec_when. destruct (readyTest nodeIDs st1).
    - destruct (echoReady_acts nodeIDs m (exec (getMessageState m) σ1)) as (-> & -> & _).
      by rewrite decide_True, get_effects, get_stateOf, E1, Hst1.
    - by rewrite get_stateOf, get_effects, E1, Hst1, app_nil_r. }
  destruct H3 as [S3 E3].
  rewrite exec_bind, isMessageAccepted_exec, isMessageAccepted_eval, exec_when, S3.
  cbv beta zeta.
  destruct (acceptedTest nodeIDs _) eqn:Hacc; cbn [andb].
  - destruct (acts_acceptMessage m (exec (getMessageState m) σ3)) as (_ & -> & _).
    rewrite get_effects, get_stateOf, E3, S3, <- app_assoc.
    by destruct (wasAccepted _).
  - by rewrite get_effects, E3, app_nil_r.
Qed.

Lemma ownEchoReady_made events m st :
  isAnnotatedMessage m = true → Forall (made events) (ownEchoReady nodeIDs m st).
Proof.
  intros Hm. unfold ownEchoReady. apply Forall_app. split.
  - destruct (wasEchoSent st); [done|]. apply toAll_made; [by left|done].
  - destruct (wasReadySent st); [done|]. apply toAll_made; [by right|done].
Qed.

Lemma handle_made events e σ :
  Forall (made events) (effects σ) →
  Forall (made (events ++ [e])) (effects (exec (handle nodeIDs e) σ)).
Proof.
  intros Hσ.
  assert (Hold : Forall (made (events ++ [e])) (effects σ)).
  { eapply Forall_impl; [exact Hσ|]. intros x. apply made_mono. }
  assert (Hin : e ∈ events ++ [e]) by (apply elem_of_app; right; apply list_elem_of_here).
  destruct e as [uuid message|s m|s m|s m]; cbn [handle].
  - unfold broadcast. rewrite send_effects.
    apply Forall_app. split; [done|]. apply Forall_forall.
    intros x (id & -> & _)%list_elem_of_fmap. left. split; [done|]. by exists uuid, message.
  - unfold onInitial. rewrite exec_when.
    destruct (isMessageWithId m) eqn:Hm; [|done].
    destruct (acts_echoMessage nodeIDs (annotate m s) σ) as (_ & -> & _).
    apply Forall_app. split; [done|].
    destruct (wasEchoSent _); [done|]. apply toAll_made; [by left|].
    destruct m as [| | | |items|]; try done. simpl in Hm.
    apply andb_true_iff in Hm as [Hlen Hid]. apply Nat.eqb_eq in Hlen.
    destruct items as [|x [|y [|z items]]]; try done. by destruct x.
  - destruct (isAnnotatedMessage m) eqn:Hm.
    2:{ unfold onEcho. by rewrite exec_when, Hm. }
    rewrite onEcho_effects by done. apply Forall_app. split; [done|]. cbv zeta.
    destruct (readyTest nodeIDs _); [|done]. by apply ownEchoReady_made.
  - destruct (isAnnotatedMessage m) eqn:Hm.
    2:{ unfold onReady. by rewrite exec_when, Hm. }
    rewrite onReady_effects by done. apply Forall_app. split; [done|]. cbv zeta.
    apply Forall_app. split.
    + destruct (readyTest nodeIDs _); [|done]. by apply ownEchoReady_made.
    + destruct (_ && _); [|done]. apply Forall_singleton. by exists s, m.
Qed.

Lemma run_made events : Forall (made events) (effects (run nodeIDs events init)).
Proof.
  induction events as [|e events IH] using rev_ind; [done|].
  rewrite run_snoc. by apply handle_made.
Qed.

(** The log only grows. *)
Lemma handle_keeps e σ x : x ∈ effects σ → x ∈ effects (exec (handle nodeIDs e) σ).
Proof.
  intros Hx.
  assert (Happ : ∀ new, x ∈ effects σ ++ new) by (intros; apply elem_of_app; by left).
  destruct e as [uuid message|s m|s m|s m]; cbn [handle].
  - unfold broadcast. rewrite send_effects. apply Happ.
  - unfold onInitial. rewrite exec_when. destruct (isMessageWithId m); [|done].
    destruct (acts_echoMessage nodeIDs (annotate m s) σ) as (_ & -> & _). apply Happ.
  - destruct (isAnnotatedMessage m) eqn:Hm.
    + rewrite onEcho_effects by done. apply Happ.
    + unfold onEcho. by rewrite exec_when, Hm.
  - destruct (isAnnotatedMessage m) eqn:Hm.
    + rewrite onReady_effects by done. apply Happ.
    + unfold onReady. by rewrite exec_when, Hm.
Qed.

Lemma broadcast_logged events uuid message id :
  Broadcast uuid message ∈ events → id ∈ nodeIDs →
  Send id "initial" (withId uuid message) ∈ effects (run nodeIDs events init).
Proof.
  intros Hin Hid. induction events as [|e events IH] using rev_ind.
  - by apply elem_of_nil in Hin.
  - rewrite run_snoc. apply elem_of_app in Hin as [Hin|Hin].
    + by apply handle_keeps, IH.
    + apply list_elem_of_singleton in Hin. subst e. cbn [handle]. unfold broadcast.
      rewrite send_effects. apply elem_of_app. right.
      apply list_elem_of_fmap. by exists id.
Qed.

Lemma sentCount_pos topic h id l :
  0 < sentCount topic h id l → ∃ y, Send id topic y ∈ l ∧ hashMessage y = h.
Proof.
  unfold sentCount. intros Hpos.
  destruct (List.filter _ l) as [|x rest] eqn:Hfilter; [simpl in Hpos; lia|].
  assert (Hx : In x (List.filter
                       (λ e, match e with
                             | Send t tp m =>
                                 String.eqb t id && String.eqb tp topic
                                 && String.eqb (hashMessage m) h
                             | Deliver _ _ => false
                             end) l)).
  { rewrite Hfilter. by left. }
  apply filter_In in Hx as [Hx Hprop]. destruct x as [t tp y|]; [|done].
  apply andb_true_iff in Hprop as [Hprop Hh].
  apply andb_true_iff in Hprop as [Ht Htp].
  apply String.eqb_eq in Ht, Htp, Hh. subst. exists y. split; [|done].
  by apply list_elem_of_In.
Qed.

Lemma deliverCount_pos h l :
  0 < deliverCount h l → ∃ content, Deliver h content ∈ l.
Proof.
  unfold deliverCount. intros Hpos.
  destruct (List.filter _ l) as [|x rest] eqn:Hfilter; [simpl in Hpos; lia|].
  assert (Hx : In x (List.filter
                       (λ e, match e with
                             | Deliver h' _ => String.eqb h' h
                             | Send _ _ _ => false
                             end) l)).
  { rewrite Hfilter. by left. }
  apply filter_In in Hx as [Hx Hprop]. destruct x as [|h' content]; [done|].
  apply String.eqb_eq in Hprop. subst. exists content. by apply list_elem_of_In.
Qed.

(** *** Every member delivers *)

Section Network.
Hypothesis nodeIDs_NoDup : NoDup nodeIDs.
Hypothesis ids_distinct :
  ∀ s s', JSON_stringify (JStr s) = JSON_stringify (JStr s') → s = s'.

(** What each member has handled, in the order in which it handled it. *)
Variable trace : string → list event.

(** The network of the [Network] interface at rest: what a member sent
    to a member has triggered the receiver of its topic there, with the
    sender's id. *)
Hypothesis arrives :
  ∀ j i topic y e,
    j ∈ nodeIDs → i ∈ nodeIDs →
    Send i topic y ∈ effects (run nodeIDs (trace j) init) →
    eventOf topic j y = Some e →
    e ∈ trace i.

Variables (b uuid : string) (message : json).
Hypothesis b_member : b ∈ nodeIDs.
Hypothesis b_broadcasts : Broadcast uuid message ∈ trace b.

Abbreviation annotated := (annotate (withId uuid message) b).
Abbreviation h := (hashMessage annotated).
Abbreviation n := (nodeCount nodeIDs).
Abbreviation f := (faultyNodeCount nodeIDs).

Lemma members_nonempty : nodeIDs ≠ [].
Proof. intros Hnil. rewrite Hnil in b_member. by apply elem_of_nil in b_member. Qed.

Lemma quorums : (1 ≤ n ∧ 0 ≤ f ∧ 2 * f + 1 ≤ n ∧ n + f < 2 * n)%Z.
Proof.
  assert (Hn : (1 ≤ n)%Z).
  { unfold nodeCount. pose proof members_nonempty. destruct nodeIDs; [done|].
    simpl length. lia. }
  pose proof (faultyNodeCount_nonneg nodeIDs members_nonempty) as Hf.
  pose proof (Z.mul_div_le (n - 1) 3) as Hdiv. unfold faultyNodeCount in *. lia.
Qed.

Lemma counted_run i :
  stateOf (run nodeIDs (trace i) init) h
  = counted nodeIDs (initialSeen (trace i) h) (echoVoters (trace i) h)
      (readyVoters (trace i) h)
  ∧ deliverCount h (effects (run nodeIDs (trace i) init))
    = Nat.b2n (acceptReached nodeIDs (readyVoters (trace i) h)).
Proof. apply state_is_vote_count, members_nonempty. Qed.

Lemma sent_once i k :
  k ∈ nodeIDs →
  sentCount "echo" h k (effects (run nodeIDs (trace i) init))
  = Nat.b2n (wasEchoSent (stateOf (run nodeIDs (trace i) init) h))
  ∧ sentCount "ready" h k (effects (run nodeIDs (trace i) init))
    = Nat.b2n (wasReadySent (stateOf (run nodeIDs (trace i) init) h)).
Proof.
  intros Hk.
  apply (run_preserves nodeIDs (emissions nodeIDs) (trace i)
           (handle_emissions nodeIDs nodeIDs_NoDup) init (init_emissions nodeIDs) h k Hk).
Qed.

Lemma all_voters (voters : SerializedSet.t) :
  (∀ i, i ∈ nodeIDs → SerializedSet.serializeValue (JStr i) ∈ voters) →
  (n ≤ Z.of_nat (SerializedSet.size voters))%Z.
Proof.
  intros Hall. unfold nodeCount, SerializedSet.size. apply inj_le.
  assert (Hinj : Inj (=) (=) (λ s, SerializedSet.serializeValue (JStr s))).
  { intros s s'. apply ids_distinct. }
  rewrite <- (length_fmap (λ s, SerializedSet.serializeValue (JStr s)) nodeIDs).
  rewrite <- (size_list_to_set (C := gset string)) by (by apply NoDup_fmap_2).
  apply subseteq_size. intros x (i & -> & Hi)%elem_of_list_to_set%list_elem_of_fmap.
  by apply Hall.
Qed.

Lemma initial_arrives i : i ∈ nodeIDs → Initial b (withId uuid message) ∈ trace i.
Proof.
  intros Hi. apply (arrives b i "initial" (withId uuid message)); try done.
  by apply broadcast_logged.
Qed.

Lemma echo_sent i :
  i ∈ nodeIDs → wasEchoSent (stateOf (run nodeIDs (trace i) init) h) = true.
Proof.
  intros Hi. destruct (counted_run i) as [-> _]. unfold counted. cbn [wasEchoSent].
  apply orb_true_iff. left. apply initialSeen_spec.
  exists b, (withId uuid message). split; [by apply initial_arrives|done].
Qed.

Lemma echoes_arrive k i :
  k ∈ nodeIDs → i ∈ nodeIDs →
  SerializedSet.serializeValue (JStr i) ∈ echoVoters (trace k) h.
Proof.
  intros Hk Hi. destruct (sent_once i k Hk) as [Hecho _].
  rewrite (echo_sent i Hi) in Hecho.
  destruct (sentCount_pos "echo" h k _ ltac:(rewrite Hecho; simpl; lia))
    as (y & Hy & Hhash).
  pose proof (run_made (trace i)) as Hmade. rewrite Forall_forall in Hmade.
  destruct (Hmade _ Hy) as [[Htopic _]|[_ Hann]]; [done|].
  apply elem_of_echoVoters. exists i, y. split; [|done].
  by apply (arrives i k "echo" y).
Qed.

Lemma ready_sent k :
  k ∈ nodeIDs → wasReadySent (stateOf (run nodeIDs (trace k) init) h) = true.
Proof.
  intros Hk. destruct (counted_run k) as [-> _]. unfold counted. cbn [wasReadySent].
  unfold readyReached. apply orb_true_iff. right. rewrite Qltb_half.
  apply Z.ltb_lt. pose proof (all_voters _ (λ i Hi, echoes_arrive k i Hk Hi)). pose proof quorums. lia.
Qed.

Lemma readies_arrive k i :
  k ∈ nodeIDs → i ∈ nodeIDs →
  SerializedSet.serializeValue (JStr i) ∈ readyVoters (trace k) h.
Proof.
  intros Hk Hi. destruct (sent_once i k Hk) as [_ Hready].
  rewrite (ready_sent i Hi) in Hready.
  destruct (sentCount_pos "ready" h k _ ltac:(rewrite Hready; simpl; lia))
    as (y & Hy & Hhash).
  pose proof (run_made (trace i)) as Hmade. rewrite Forall_forall in Hmade.
  destruct (Hmade _ Hy) as [[Htopic _]|[_ Hann]]; [done|].
  apply elem_of_readyVoters. exists i, y. split; [|done].
  by apply (arrives i k "ready" y).
Qed.

Lemma accept_reached k :
  k ∈ nodeIDs → acceptReached nodeIDs (readyVoters (trace k) h) = true.
Proof.
  intros Hk. unfold acceptReached. apply Z.leb_le.
  pose proof (all_voters _ (λ i Hi, readies_arrive k i Hk Hi)). pose proof quorums. lia.
Qed.

End Network.

(** In a network whose members all run this code, over a [Network] that
    has handed every message sent between members to the receiver of its
    topic (with the id of its sender), a message that a member has
    broadcast is a message that every member has echoed to every member
    once, has sent its ready for to every member once, and has delivered
    exactly once, whatever the order in which each member handled what
    reached it and whatever else reached it.  What is delivered is the
    content that was broadcast, if no other message that a ready arrived
    for has the same hash. *)
Theorem all_correct_all_deliver (trace : string → list event) (b uuid : string)
    (message : json) (i : string) :
  NoDup nodeIDs →
  (∀ s s', JSON_stringify (JStr s) = JSON_stringify (JStr s') → s = s') →
  (∀ j i topic y e,
     j ∈ nodeIDs → i ∈ nodeIDs →
     Send i topic y ∈ effects (run nodeIDs (trace j) init) →
     eventOf topic j y = Some e →
     e ∈ trace i) →
  b ∈ nodeIDs →
  Broadcast uuid message ∈ trace b →
  i ∈ nodeIDs →
  let h := hashMessage (annotate (withId uuid message) b) in
  let σ := run nodeIDs (trace i) init in
  stateOf σ h = mkMessageState true true true None None
  ∧ deliverCount h (effects σ) = 1
  ∧ (∀ k, k ∈ nodeIDs →
       sentCount "echo" h k (effects σ) = 1 ∧ sentCount "ready" h k (effects σ) = 1)
  ∧ ((∀ s y, Ready s y ∈ trace i → hashMessage y = h →
             y = annotate (withId uuid message) b) →
     Deliver h message ∈ effects σ).
Proof.
  intros Hnd Hinj Harrives Hb Hbroadcast Hi. cbv zeta.
  pose proof (accept_reached Hnd Hinj trace Harrives b uuid message Hb Hbroadcast i Hi)
    as Hacc.
  pose proof (ready_sent Hnd Hinj trace Harrives b uuid message Hb Hbroadcast i Hi)
    as Hready.
  pose proof (echo_sent trace Harrives b uuid message Hb Hbroadcast i Hi) as Hecho.
  destruct (counted_run trace b uuid message Hb i) as [Hstate Hcount].
  rewrite Hacc in Hcount.
  assert (Hst : stateOf (run nodeIDs (trace i) init)
                  (hashMessage (annotate (withId uuid message) b))
                = mkMessageState true true true None None).
  { rewrite Hstate in Hready, Hecho |- *. unfold counted in *.
    cbn [wasReadySent wasEchoSent] in Hready, Hecho. by rewrite Hecho, Hready, Hacc. }
  split; [done|]. split; [done|]. split.
  - intros k Hk.
    destruct (sent_once Hnd trace b uuid message i k Hk) as [-> ->].
    by rewrite Hst.
  - intros Hunique.
    destruct (deliverCount_pos _ _ ltac:(rewrite Hcount; simpl; lia)) as (content & Hin).
    pose proof (run_made (trace i)) as Hmade. rewrite Forall_forall in Hmade.
    destruct (Hmade _ Hin) as (s & y & Hy & Hh & ->).
    rewrite (Hunique s y Hy (eq_sym Hh)) in Hin. exact Hin.
Qed.

End WithDistributor.
(** Two members, [f = 0]: ["a"] broadcasts, and each member handles the
    initial message, both echoes and both readies. *)
Definition nodes2 : list string := ["a"; "b"]%string.

Definition greeting : json := JArr [JStr "u1"; JStr "hello"].

Definition trace2 (i : string) : list event :=
  let handled := [Initial "a" greeting; Echo "a" hello; Echo "b" hello;
                  Ready "a" hello; Ready "b" hello] in
  if String.eqb i "a" then Broadcast "u1" (JStr "hello") :: handled
  else if String.eqb i "b" then handled
  else [].

Lemma trace2_log_a :
  effects (run (H := toyJSON) (H0 := toyHash) nodes2 (trace2 "a") init)
  = [Send "a" "initial" greeting; Send "b" "initial" greeting;
     Send "a" "echo" hello; Send "b" "echo" hello;
     Send "a" "ready" hello; Send "b" "ready" hello;
     Deliver hello_hash (JStr "hello")].
Proof. vm_compute. reflexivity. Qed.

Lemma trace2_log_b :
  effects (run (H := toyJSON) (H0 := toyHash) nodes2 (trace2 "b") init)
  = [Send "a" "echo" hello; Send "b" "echo" hello;
     Send "a" "ready" hello; Send "b" "ready" hello;
     Deliver hello_hash (JStr "hello")].
Proof. vm_compute. reflexivity. Qed.

Lemma trace2_arrives (j i topic : string) (y : json) (e : event) :
  j ∈ nodes2 → i ∈ nodes2 →
  Send i topic y ∈ effects (run (H := toyJSON) (H0 := toyHash) nodes2 (trace2 j) init) →
  eventOf topic j y = Some e →
  e ∈ trace2 i.
Proof.
  intros Hj _ Hin He.
  apply elem_of_cons in Hj as [->|Hj];
    [rewrite trace2_log_a in Hin
    |apply list_elem_of_singleton in Hj as ->; rewrite trace2_log_b in Hin].
  all: repeat (apply elem_of_cons in Hin as [Hin|Hin];
               [try discriminate Hin; injection Hin as -> -> ->;
                injection He as <-; cbn; repeat constructor|]).
  all: by apply elem_of_nil in Hin.
Qed.

Lemma all_correct_all_deliver_witness :
  NoDup nodes2
  ∧ "a"%string ∈ nodes2
  ∧ Broadcast "u1" (JStr "hello") ∈ trace2 "a"
  ∧ "b"%string ∈ nodes2
  ∧ deliverCount hello_hash
      (effects (run (H := toyJSON) (H0 := toyHash) nodes2 (trace2 "b") init)) = 1
  ∧ Deliver hello_hash (JStr "hello")
    ∈ effects (run (H := toyJSON) (H0 := toyHash) nodes2 (trace2 "b") init).
Proof.
  assert (Hnd : NoDup nodes2).
  { apply (bool_decide_unpack (NoDup nodes2)). vm_compute. exact I. }
  assert (Ha : "a"%string ∈ nodes2) by (repeat constructor).
  assert (Hb : "b"%string ∈ nodes2) by (repeat constructor).
  assert (Hbroadcast : Broadcast "u1" (JStr "hello") ∈ trace2 "a") by (repeat constructor).
  destruct (all_correct_all_deliver (H := toyJSON) (H0 := toyHash) nodes2 trace2
              "a" "u1" (JStr "hello") "b" Hnd (λ s s' Heq, Heq) trace2_arrives
              Ha Hbroadcast Hb) as (_ & Hcount & _ & Hcontent).
  split; [done|]. split; [done|]. split; [done|]. split; [done|]. split; [exact Hcount|].
  apply Hcontent. intros s y Hy _.
  repeat (apply elem_of_cons in Hy as [Hy|Hy]; [try discriminate Hy|]).
  - by injection Hy as _ ->.
  - by injection Hy as _ ->.
  - by apply elem_of_nil in Hy.
Defined.

End AgreementFacts.

(** ** The handshake from end to end *)

Module HandshakeFacts.
Import EncryptedTCPNetwork EncryptedFacts EncryptedServer EncryptedServerFacts
  EncryptedClient.
Import TCPNetworkInstance (jsval, Undefined, Value, destructure).

(** The value a message is sent as. *)
Definition messageData (element : string * json) : json :=
  JArr [JStr element.1; element.2].

(** Every socket has been sent its handshake: the id of the node and
    the nonce of the socket, under the public key of the peer. *)
Definition announced (σ : state) : Prop :=
  ∀ socket c,
    closures σ !! socket = Some c →
    SocketWrite socket (KeyBuffer (peerPublicKey c)) rsa
      (JArr [JStr (id σ); JStr (nonce c)]) ∈ log σ.

Lemma announced_later (σ σ' : state) :
  announced σ → id σ' = id σ → closures σ' = closures σ → log σ `prefix_of` log σ' →
  announced σ'.
Proof.
  intros Hσ I Cl [more L] socket c. rewrite Cl, I, L. intros Hc.
  apply elem_of_app. left. by apply Hσ.
Qed.

Lemma connect_announced peerId key newNonce σ :
  announced σ → announced (connect peerId key newNonce σ).
Proof.
  intros Hσ socket c. unfold connect.
  set (σ1 := setConnectionKeys (delete peerId (connectionKeys σ)) σ).
  set (σ2 := match connections σ1 !! peerId with
             | Some old => emit (SocketEnd old) σ1
             | None => σ1
             end).
  assert (H2 : id σ2 = id σ ∧ closures σ2 = closures σ ∧ log σ `prefix_of` log σ2).
  { unfold σ2. destruct (connections σ1 !! peerId); simpl; repeat split; try done.
    by apply prefix_app_r. }
  destruct H2 as (I2 & Cl2 & [more L2]).
  cbn [closures id log emit]. rewrite Cl2, I2, L2.
  intros [[<- <-]|[Hother Hc]]%lookup_insert_Some.
  - apply elem_of_app. right. apply list_elem_of_here.
  - apply elem_of_app. left. apply elem_of_app. left. by apply Hσ.
Qed.

Lemma step_announced (o : op) (σ σ' : state) :
  announced σ → step o σ = Returns σ' → announced σ'.
Proof.
  intros Hσ. destruct o as [p k n|t|i t m|f s r k n|s n|]; simpl.
  - intros [= <-]. unfold registerNode.
    destruct (negb (String.eqb p (id σ))); [|done].
    apply connect_announced. by apply (announced_later σ).
  - intros [= <-]. by apply (announced_later σ).
  - intros Hsend.
    destruct (sendMessage_frame i t m σ σ' Hsend) as (I & _ & _ & Cl & _ & L).
    by apply (announced_later σ).
  - destruct (onHandshakeReply f s r k n σ) as [[σ0 rejected]| |] eqn:Hreply;
      [|done|done].
    intros [= <-]. revert Hreply. unfold onHandshakeReply.
    destruct (closures σ !! s) as [c|] eqn:Hc; [|by intros [= <- _]].
    destruct (negb (hasKey c)); [|by intros [= <- _]].
    destruct (String.eqb r (nonce c)).
    + set (σ1 := setConnectionKeys _ σ). set (σ2 := setClosures _ σ1).
      assert (H2 : announced σ2).
      { intros socket c'. cbn [closures id log σ2 σ1 setClosures setConnectionKeys].
        intros [[<- <-]|[Hother Hc']]%lookup_insert_Some; [|by apply Hσ].
        cbn [peerPublicKey nonce]. by apply Hσ. }
      destruct (bufferedData σ2 !! peer c); [|by intros [= <- _]].
      intros Hdrain. apply drain_frame in Hdrain as (I & _ & Cl & _ & L).
      by apply (announced_later σ2).
    + intros [= <- _]. by apply connect_announced.
  - intros [= <-]. unfold onSocketDown.
    destruct (closures σ !! s) as [c|]; [|done]. by apply connect_announced.
  - intros [= <-]. destruct (stop_frame σ) as (I & Cl & _ & _ & L).
    by apply (announced_later σ).
Qed.

Lemma run_announced (ops : list op) (σ σ' : state) :
  announced σ → run ops σ = Returns σ' → announced σ'.
Proof.
  revert σ. induction ops as [|o ops IH]; intros σ Hσ; simpl.
  - by intros [= <-].
  - destruct (step o σ) as [σ1| |] eqn:Hstep; try done.
    apply IH. by apply (step_announced o σ).
Qed.

Section Ends.
Context `{!NodeBuffer}.

(** The receiver reads the reply that the server writes for a key given
    as a Buffer as the handshake reply with the nonce and that key. *)
Lemma onReply_bufferJSON fuel socket c (key : Buffer.t) newNonce σ :
  closures σ !! socket = Some c →
  hasKey c = false →
  Buffer_from (Value (bytesJSON key)) = Some key →
  onReply fuel socket (JArr [JStr (nonce c); bufferJSON key]) newNonce σ
  = onHandshakeReply fuel socket (nonce c) (WireBuffer key) newNonce σ.
Proof.
  intros Hc Hkey Hfrom. unfold onReply. rewrite Hc, Hkey.
  cbn [negb destructure lookup list_lookup from_option looseEq].
  rewrite String.eqb_refl.
  unfold wireKeyOf, bufferJSON. cbn [dataOf field].
  change (String.eqb "data" "data") with true.
  change (String.eqb "type" "data") with false. cbv iota.
  by rewrite Hfrom.
Qed.

(** The two ends agree.  A node has a socket to a peer, on which it has
    written its handshake; the server of the peer, which holds the
    node's public key and a connection key of 32 bytes, takes the node's
    id as sender and replies, under that public key, with the nonce and
    its connection key; from then on it decrypts with the connection
    key.  The receiver of the node, given the value of that reply, reads
    the same key out of it, records it for the peer and writes its queue
    under it; and the server, given the values so written, calls the
    receivers of their topics, in order, with the node as sender. *)
Theorem handshake_end_to_end (ownId : string) (ops : list op) (σ : state)
    (socket : nat) (c : closure)
    (publicKeys : gmap string Buffer.t) (receiversByTopic : gset string)
    (privateKey key senderPublicKey : Buffer.t) (fuel : nat) (newNonce : string) :
  run ops (init ownId) = Returns σ →
  closures σ !! socket = Some c →
  hasKey c = false →
  publicKeys !! ownId = Some senderPublicKey →
  length key = 32 →
  Buffer_from (Value (bytesJSON key)) = Some key →
  length (buffered σ (peer c)) ≤ fuel →
  let handshake := JArr [JStr ownId; JStr (nonce c)] in
  let sender := Value (JStr ownId) in
  SocketWrite socket (KeyBuffer (peerPublicKey c)) rsa handshake ∈ log σ
  ∧ ∃ reply,
      onMessage publicKeys receiversByTopic (KeyBuffer key) (Value JNull) handshake
      = (sender, [Reply senderPublicKey reply])
      ∧ getDecryptionKey privateKey (KeyBuffer key) sender = (aes, KeyBuffer key)
      ∧ ∃ σ' conn,
          connections σ !! peer c = Some conn
          ∧ onReply fuel socket reply newNonce σ = Returns (σ', None)
          ∧ connectionKeys σ' !! peer c = Some (KeyBuffer key)
          ∧ log σ' = log σ ++ (aesWrite conn (KeyBuffer key) <$> buffered σ (peer c))
          ∧ onMessages publicKeys receiversByTopic (KeyBuffer key) sender
              (map messageData (buffered σ (peer c)))
            = (sender,
               omap (λ element,
                       if decide (element.1 ∈ receiversByTopic)
                       then Some (Called element.1 sender (Value element.2))
                       else None) (buffered σ (peer c))).
Proof.
  intros Hrun Hc Hkey Hpublic Hlen Hfrom Hfuel. cbv zeta.
  pose proof (reachable_wellFormed _ _ _ Hrun) as Hwf.
  assert (Hid : id σ = ownId).
  { by destruct (run_frame ops _ _ (init_wellFormed ownId) Hrun) as (_ & -> & _). }
  split.
  { rewrite <- Hid. apply (run_announced ops (init ownId)); [|done|done].
    intros s c'. unfold init. simpl. by rewrite lookup_empty. }
  exists (JArr [JStr (nonce c); bufferJSON key]). split.
  { unfold onMessage. cbn [destructure lookup list_lookup from_option].
    by rewrite Hpublic. }
  split; [done|].
  assert (Hcipher : cipherKey (keyOfWire (WireBuffer key)) = true).
  { unfold cipherKey. cbn [keyOfWire keyBytes]. rewrite Hlen. done. }
  destruct (handshake_drains fuel socket c (WireBuffer key) newNonce σ Hwf Hc Hkey
              Hcipher Hfuel) as (σ' & conn & Hconn & Hreply & Hrecorded & Hlog & _).
  exists σ', conn. split; [done|].
  split; [by rewrite (onReply_bufferJSON fuel socket c key newNonce σ)|].
  split; [done|]. split; [done|].
  rewrite onMessages_known by done. f_equal.
  generalize (buffered σ (peer c)). clear.
  induction l as [|[t m] l IH]; [done|].
  rewrite map_cons. cbn [omap list_omap]. rewrite IH.
  unfold called. cbn [messageData fst snd destructure lookup list_lookup from_option].
  by case_decide.
Qed.

End Ends.

(** A stand-in for [Buffer.from]: a string gives its bytes, an array
    the bytes of its numbers, and anything else is refused. *)
Definition toyBuffer : NodeBuffer := {|
  Buffer_from := λ value,
    match value with
    | Value (JStr s) => Some (list_byte_of_string s)
    | Value (JArr items) =>
        Some (map (λ item,
                     match item with
                     | JNum n => default x00 (Byte.of_N (Z.to_N (n mod 256)))
                     | _ => x00
                     end) items)
    | _ => None
    end
|}.

(** The queued state of the example above: the handshake of socket 0
    and the message ["ping"], and a server that holds the public key of
    the node and the connection key [key1]. *)
Lemma handshake_end_to_end_witness :
  let publicKeys : gmap string Buffer.t := {["me"%string := [x07]]} in
  let receiversByTopic : gset string := {["t"%string]} in
  let reply := JArr [JStr "n0"; bufferJSON key1] in
  run before (init "me") = Returns queued
  ∧ closures queued !! 0 = Some (Closure "peer" [] "n0" false)
  ∧ publicKeys !! "me"%string = Some [x07]
  ∧ length key1 = 32
  ∧ Buffer_from (NodeBuffer := toyBuffer) (Value (bytesJSON key1)) = Some key1
  ∧ (∃ σ', onReply (H := toyBuffer) 1 0 reply "n1" queued = Returns (σ', None)
           ∧ log σ' = log queued
                      ++ [SocketWrite 0 (KeyBuffer key1) aes (JArr [JStr "t"; JStr "ping"])])
  ∧ onMessages publicKeys receiversByTopic (KeyBuffer key1) (Value (JStr "me"))
      (map messageData (buffered queued "peer"))
    = (Value (JStr "me"), [Called "t" (Value (JStr "me")) (Value (JStr "ping"))]).
Proof.
  assert (Hrun : run before (init "me") = Returns queued) by (vm_compute; reflexivity).
  assert (Hc : closures queued !! 0 = Some (Closure "peer" [] "n0" false))
    by (vm_compute; reflexivity).
  assert (Hpublic : ({["me"%string := [x07]]} : gmap string Buffer.t) !! "me"%string
                    = Some [x07]) by (vm_compute; reflexivity).
  assert (Hlen : length key1 = 32) by reflexivity.
  assert (Hfrom : Buffer_from (NodeBuffer := toyBuffer) (Value (bytesJSON key1))
                  = Some key1) by (vm_compute; reflexivity).
  assert (Hfuel : length (buffered queued (peer (Closure "peer" [] "n0" false))) ≤ 1)
    by (vm_compute; lia).
  split; [exact Hrun|]. split; [exact Hc|]. split; [exact Hpublic|].
  split; [exact Hlen|]. split; [exact Hfrom|].
  destruct (handshake_end_to_end (H := toyBuffer) "me" before queued 0
              (Closure "peer" [] "n0" false)
              {["me"%string := [x07]]} {["t"%string]} [] key1 [x07] 1 "n1"
              Hrun Hc eq_refl Hpublic Hlen Hfrom Hfuel)
    as (_ & reply & Hserver & _ & σ' & conn & Hconn & Hreply & _ & Hlog & Hserved).
  assert (Hvalue : reply = JArr [JStr "n0"; bufferJSON key1]).
  { vm_compute in Hserver. by injection Hserver as <-. }
  subst reply.
  assert (Hsocket : conn = 0).
  { vm_compute in Hconn. by injection Hconn as <-. }
  subst conn.
  split; [by exists σ'|].
  etrans; [exact Hserved|]. vm_compute. reflexivity.
Defined.

End HandshakeFacts.
